(** * XRainbow: a shallow embedding of [xrainbow.c]

    The program cycles the gamma correction of an X11 display through a
    rainbow of hues.  This development embeds the C source in Rocq:

    - the C types [float] and [double] are IEEE 754 binary32 and binary64
      numbers, represented by the standard library's [spec_float] and
      computed with its round-to-nearest-even operations;
    - [long] is a 64-bit signed integer, a [Z] with its range written out;
    - the calls into libc and Xlib are events of a trace, and what the
      environment answers (clock readings, success of a request, signals)
      is an input of the model.
*)

From Stdlib Require Import ZArith Bool List String Lia QArith Qabs Qpower.
From Stdlib Require Import Floats.SpecFloat.
Import ListNotations.

Local Open Scope Z_scope.

(** ** IEEE 754 arithmetic of the two C floating-point types *)

Module IEEE.

(** A value of either format; the format is fixed by the operation used. *)
Definition fp := spec_float.

(** Rounding of a finite number to a format (round to nearest, ties to
    even); zeros, infinities and NaN are kept. *)
Definition round_to (prec emax : Z) (x : fp) : fp :=
  match x with
  | S754_finite s m e => binary_round prec emax s m e
  | _ => x
  end.

(** The integer [n] in a format. *)
Definition of_Z (prec emax : Z) (n : Z) : fp :=
  binary_normalize prec emax n 0 false.

(** [x >= y] and [x > y] of C are [y <= x] and [y < x]. *)
Definition SFgeb (x y : fp) : bool := SFleb y x.
Definition SFgtb (x y : fp) : bool := SFltb y x.

End IEEE.

(** binary32, the C type [float]. *)
Module F32.
Definition prec : Z := 24.
Definition emax : Z := 128.
Definition add : IEEE.fp -> IEEE.fp -> IEEE.fp := SFadd prec emax.
Definition sub : IEEE.fp -> IEEE.fp -> IEEE.fp := SFsub prec emax.
Definition div : IEEE.fp -> IEEE.fp -> IEEE.fp := SFdiv prec emax.
Definition of_Z : Z -> IEEE.fp := IEEE.of_Z prec emax.
Definition valid : IEEE.fp -> bool := valid_binary prec emax.
(** The literal [n/d] written in decimal with suffix [f]: the float
    nearest to the quotient. *)
Definition lit (n d : Z) : IEEE.fp := div (of_Z n) (of_Z d).
End F32.

(** binary64, the C type [double]. *)
Module F64.
Definition prec : Z := 53.
Definition emax : Z := 1024.
Definition add : IEEE.fp -> IEEE.fp -> IEEE.fp := SFadd prec emax.
Definition sub : IEEE.fp -> IEEE.fp -> IEEE.fp := SFsub prec emax.
Definition mul : IEEE.fp -> IEEE.fp -> IEEE.fp := SFmul prec emax.
Definition div : IEEE.fp -> IEEE.fp -> IEEE.fp := SFdiv prec emax.
Definition of_Z : Z -> IEEE.fp := IEEE.of_Z prec emax.
Definition valid : IEEE.fp -> bool := valid_binary prec emax.
Definition lit (n d : Z) : IEEE.fp := div (of_Z n) (of_Z d).
End F64.

(** The C types. *)
Definition float := IEEE.fp.
Definition double := IEEE.fp.

(** Conversions between the two types: [(double)x] is exact, [(float)x]
    rounds. *)
Definition double_of_float (x : float) : double := IEEE.round_to F64.prec F64.emax x.
Definition float_of_double (x : double) : float := IEEE.round_to F32.prec F32.emax x.

(** ** [long] and the conversion [(long)t] *)

Definition LONG_MIN : Z := - 2 ^ 63.
Definition LONG_MAX : Z := 2 ^ 63 - 1.

Definition in_long (n : Z) : bool := (LONG_MIN <=? n) && (n <=? LONG_MAX).

(** The integral part of a finite number, rounded toward zero. *)
Definition trunc (x : double) : option Z :=
  match x with
  | S754_zero _ => Some 0
  | S754_finite s m e => Some (cond_Zopp s (Z.shiftl (Zpos m) e))
  | _ => None
  end.

(** [(long)t]: the truncated value when [long] can hold it; the
    conversion is undefined otherwise (NaN, infinities, out of range). *)
Definition to_long (t : double) : option Z :=
  match trunc t with
  | Some n => if in_long n then Some n else None
  | None => None
  end.

(** ** [fmod] of libm

    [fmod x y] is the exact value [x - n*y] with the sign of [x] and a
    magnitude below that of [y]; no rounding takes place. *)
Definition fmod (x y : double) : double :=
  match x, y with
  | S754_nan, _ | _, S754_nan => S754_nan
  | S754_infinity _, _ => S754_nan
  | _, S754_zero _ => S754_nan
  | S754_zero _, _ => x
  | S754_finite _ _ _, S754_infinity _ => x
  | S754_finite sx mx ex, S754_finite _ my ey =>
      let e := Z.min ex ey in
      let X := Zpos mx * 2 ^ (ex - e) in
      let Y := Zpos my * 2 ^ (ey - e) in
      binary_normalize F64.prec F64.emax (cond_Zopp sx (X mod Y)) e sx
  end.

(** ** Constants of the source *)

Definition f_0_1 : float := F32.lit 1 10.     (* 0.1f  *)
Definition f_9_9 : float := F32.lit 99 10.    (* 9.9f  *)
Definition f_10 : float := F32.of_Z 10.       (* 10.0f *)
Definition f_1 : float := F32.of_Z 1.         (* 1.0f  *)
Definition f_3 : float := F32.of_Z 3.         (* 3.0f  *)
Definition f_0 : float := F32.of_Z 0.         (* 0.0f  *)
Definition d_1 : double := F64.of_Z 1.        (* 1.0   *)
Definition d_0 : double := F64.of_Z 0.        (* 0.0   *)
Definition d_m1 : double := F64.of_Z (-1).    (* -1.0  *)

(** ** The gamma sink and the color function *)

(** The three assertions of [change_gamma]. *)
Definition gamma_in_range (x : float) : bool :=
  IEEE.SFgeb x f_0_1 && SFleb x f_10.

Definition change_gamma_assert (r g b : float) : bool :=
  gamma_in_range r && gamma_in_range g && gamma_in_range b.

(** [palette[i] += d] on a [float] array with a [double] right-hand side:
    the sum is taken in [double] and stored as [float].  An index outside
    the array is undefined behaviour: [None]. *)
Fixpoint array_upd (p : list float) (i : nat) (f : float -> float) : option (list float) :=
  match p, i with
  | [], _ => None
  | x :: q, O => Some (f x :: q)
  | x :: q, S k => option_map (cons x) (array_upd q k f)
  end.

Definition add_assign (p : list float) (i : Z) (d : double) : option (list float) :=
  if i <? 0 then None
  else array_upd p (Z.to_nat i)
         (fun x => float_of_double (F64.add (double_of_float x) d)).

(** The index [(n + k) % 3] of C: the sum must not overflow [long], and
    [%] truncates toward zero. *)
Definition index3 (n k : Z) : option Z :=
  if in_long (n + k) then Some (Z.rem (n + k) 3) else None.

Definition bind {A B} (o : option A) (f : A -> option B) : option B :=
  match o with Some a => f a | None => None end.

(** The body of [call_rainbow] up to the call of [change_gamma]: the
    three arguments passed to it, or [None] when the body has no defined
    behaviour. *)
Definition rainbow_palette (t : double) (c : float) : option (float * float * float) :=
  let palette := [c; c; c] in
  bind (to_long t) (fun n =>
  bind (index3 n 0) (fun i =>
  bind (add_assign palette i (F64.sub (double_of_float f_1) (fmod t d_1))) (fun palette =>
  bind (index3 n 1) (fun j =>
  bind (add_assign palette j (fmod t d_1)) (fun palette =>
  match palette with
  | [r; g; b] => Some (r, g, b)
  | _ => None
  end))))).

(** ** Command line *)

Inductive exit_status := EXIT_SUCCESS | EXIT_FAILURE.

(** The three locals of [main] that the flags set. *)
Record RunConfig := mkConfig {
  time_limit : double;
  speed : double;
  luminosity : float
}.

(** Their initialisers (lines 129-131). *)
Definition default_config : RunConfig :=
  {| time_limit := d_m1;
     speed := d_1;
     luminosity := F32.div f_1 f_3 |}.

(** What the argument loop ends in: it falls through to the rest of
    [main], or one of the two printing functions exits the process. *)
Inductive parsed :=
| Parsed (cfg : RunConfig)
| Usage (code : exit_status)     (* print_usage_and_exit *)
| Version.                       (* print_version_and_exit *)

(** The two tests of the source on a parsed value. *)
Definition luminosity_rejected (l : float) : bool :=
  SFltb l f_0_1 || IEEE.SFgtb l f_9_9.

Definition speed_rejected (s : double) : bool :=
  SFleb s (double_of_float f_0).

Section Args.

(** [atof] of libc, on the strings of [argv]. *)
Variable atof : string -> double.

Definition is_flag (short long a : string) : bool :=
  String.eqb a short || String.eqb a long.

(** The [for] loop of [main] from index [i] on: [args] is
    [argv[i..argc-1]], and [i + 1 < argc] holds when a second element
    follows. *)
Fixpoint parse_args (args : list string) (cfg : RunConfig) : parsed :=
  match args with
  | [] => Parsed cfg
  | a :: rest =>
      if is_flag "-h" "--help" a then Usage EXIT_SUCCESS
      else if is_flag "-v" "--version" a then Version
      else
        match rest with
        | v :: rest' =>
            if is_flag "-t" "--time-limit" a then
              parse_args rest'
                {| time_limit := atof v;
                   speed := speed cfg;
                   luminosity := luminosity cfg |}
            else if is_flag "-l" "--luminosity" a then
              let l := float_of_double (atof v) in
              if luminosity_rejected l then Usage EXIT_FAILURE
              else parse_args rest'
                     {| time_limit := time_limit cfg;
                        speed := speed cfg;
                        luminosity := l |}
            else if is_flag "-s" "--speed" a then
              let s := atof v in
              if speed_rejected s then Usage EXIT_FAILURE
              else parse_args rest'
                     {| time_limit := time_limit cfg;
                        speed := s;
                        luminosity := luminosity cfg |}
            else Usage EXIT_FAILURE
        | [] => Usage EXIT_FAILURE
        end
  end.

End Args.

(** ** The process: events, environment and control points *)

(** What the process does to the outside. *)
Inductive event :=
| PrintUsage
| PrintVersion
| Diagnostic                                        (* a line on stderr *)
| XOpenDisplay (ok : bool)
| XF86VidModeSetGamma (r g b : float) (ok : bool)
| XFlush
| XCloseDisplay
| ClockGettime (ok : bool)
| SchedYield
| AssertionFailed.

(** What the environment answers to the calls of one step: the
    [timespec] that [clock_gettime] fills (or its failure), and whether
    the X request of the step succeeds. *)
Record answer := mkAnswer {
  clock : option (Z * Z);
  x_ok : bool
}.

(** One input per step: a signal among SIGINT, SIGTERM and SIGSEGV is
    delivered, or the program runs to its next control point. *)
Inductive input :=
| Signal
| Go (a : answer).

(** How a process ends: [exit] or a return from [main]; [abort] after a
    failed assertion; the default action of a signal that has no handler
    yet; or a statement without defined behaviour. *)
Inductive status :=
| Exited (code : exit_status)
| Aborted
| Killed
| Undefined.

(** Control points of [main] after the argument loop. *)
Inductive pc :=
| PcOpenDisplay          (* line 171 *)
| PcInstall              (* lines 177-181 *)
| PcStartTime            (* line 182 *)
| PcLoopCond             (* line 183 *)
| PcCallRainbow          (* line 185 *)
| PcYield                (* line 186 *)
| PcCheckQuit            (* line 187 *)
| PcReturn               (* line 190 *)
| PcExit (code : exit_status)   (* inside exit: handlers still to run *)
| PcDone (s : status).

(** The globals of the source, the local [start_time], what has been
    registered with libc, and the history of the process. *)
Record state := mkState {
  st_pc : pc;
  x11_display : bool;          (* the pointer is not NULL *)
  pending_quit : bool;
  handlers : bool;             (* [handle_signal] is installed *)
  atexit_quit : bool;          (* [quit_application] is registered *)
  start_time : double;
  teardowns : nat;             (* calls of [quit_application] so far *)
  trace : list event
}.

Definition set_pc (p : pc) (st : state) : state :=
  mkState p (x11_display st) (pending_quit st) (handlers st) (atexit_quit st)
          (start_time st) (teardowns st) (trace st).

Definition emit (e : event) (st : state) : state :=
  mkState (st_pc st) (x11_display st) (pending_quit st) (handlers st)
          (atexit_quit st) (start_time st) (teardowns st) (trace st ++ [e]).

(** [get_time]: the seconds of the clock as a [double]; [None] when
    [clock_gettime] fails, in which case the caller exits. *)
Definition d_1e9 : double := F64.of_Z 1000000000.

Definition get_time (ts : option (Z * Z)) : option double :=
  match ts with
  | Some (tv_sec, tv_nsec) =>
      Some (F64.add (F64.of_Z tv_sec) (F64.div (F64.of_Z tv_nsec) d_1e9))
  | None => None
  end.

(** A call of [get_time] inside a step, continued by [k] on success. *)
Definition with_time (a : answer) (st : state) (k : double -> state -> state) : state :=
  match get_time (clock a) with
  | Some now => k now (emit (ClockGettime true) st)
  | None => set_pc (PcExit EXIT_FAILURE) (emit Diagnostic (emit (ClockGettime false) st))
  end.

(** A call either returns to its caller or leaves it for good ([exit],
    [abort], undefined behaviour); the state then holds where it went. *)
Inductive result :=
| Returns (st : state)
| Leaves (st : state).

(** [change_gamma]: the assertions, the request and the flush. *)
Definition change_gamma (r g b : float) (a : answer) (st : state) : result :=
  if negb (change_gamma_assert r g b) then
    Leaves (set_pc (PcDone Aborted) (emit AssertionFailed st))
  else if negb (x_ok a) then
    Leaves (set_pc (PcExit EXIT_FAILURE)
              (emit Diagnostic (emit (XF86VidModeSetGamma r g b false) st)))
  else Returns (emit XFlush (emit (XF86VidModeSetGamma r g b true) st)).

(** [call_rainbow]. *)
Definition call_rainbow (t : double) (c : float) (a : answer) (st : state) : result :=
  match rainbow_palette t c with
  | Some (r, g, b) => change_gamma r g b a st
  | None => Leaves (set_pc (PcDone Undefined) st)
  end.

(** [quit_application], run by [exit] with status [code].  When the
    request of [change_gamma] fails the handler calls [exit] again: the
    process ends with that status and the handler is not run again. *)
Definition quit_application (code : exit_status) (a : answer) (st : state) : state :=
  let st := mkState (st_pc st) (x11_display st) (pending_quit st) (handlers st)
                    (atexit_quit st) (start_time st) (S (teardowns st)) (trace st) in
  match change_gamma f_1 f_1 f_1 a st with
  | Leaves st =>
      match st_pc st with
      | PcExit c => set_pc (PcDone (Exited c)) st
      | _ => st
      end
  | Returns st =>
      let st :=
        if x11_display st then
          let st := emit XCloseDisplay st in
          mkState (st_pc st) false (pending_quit st) (handlers st)
                  (atexit_quit st) (start_time st) (teardowns st) (trace st)
        else st in
      set_pc (PcDone (Exited code)) st
  end.

(** The loop condition of line 183, given the time read by its call of
    [get_time]. *)
Definition elapsed (now start : double) : double := F64.sub now start.

Definition within_limit (limit now start : double) : bool :=
  IEEE.SFgeb limit (elapsed now start).

Definition unbounded (limit : double) : bool := SFltb limit d_0.

Section Process.

Variable cfg : RunConfig.

(** The program runs from its control point to the next one. *)
Definition advance (a : answer) (st : state) : state :=
  match st_pc st with
  | PcOpenDisplay =>
      if x_ok a then
        let st := emit (XOpenDisplay true) st in
        set_pc PcInstall
          (mkState (st_pc st) true (pending_quit st) (handlers st)
                   (atexit_quit st) (start_time st) (teardowns st) (trace st))
      else
        set_pc (PcExit EXIT_FAILURE) (emit Diagnostic (emit (XOpenDisplay false) st))
  | PcInstall =>
      set_pc PcStartTime
        (mkState (st_pc st) (x11_display st) (pending_quit st) true true
                 (start_time st) (teardowns st) (trace st))
  | PcStartTime =>
      with_time a st (fun now st =>
        set_pc PcLoopCond
          (mkState (st_pc st) (x11_display st) (pending_quit st) (handlers st)
                   (atexit_quit st) now (teardowns st) (trace st)))
  | PcLoopCond =>
      if unbounded (time_limit cfg) then set_pc PcCallRainbow st
      else
        with_time a st (fun now st =>
          if within_limit (time_limit cfg) now (start_time st)
          then set_pc PcCallRainbow st
          else set_pc PcReturn st)
  | PcCallRainbow =>
      with_time a st (fun now st =>
        match call_rainbow (F64.mul (elapsed now (start_time st)) (speed cfg))
                           (luminosity cfg) a st with
        | Returns st => set_pc PcYield st
        | Leaves st => st
        end)
  | PcYield => set_pc PcCheckQuit (emit SchedYield st)
  | PcCheckQuit =>
      if pending_quit st then set_pc PcReturn st else set_pc PcLoopCond st
  | PcReturn => set_pc (PcExit EXIT_SUCCESS) st
  | PcExit code =>
      if atexit_quit st then quit_application code a st
      else set_pc (PcDone (Exited code)) st
  | PcDone _ => st
  end.

(** [handle_signal] when it is installed; before that the default
    action of the signal ends the process. *)
Definition deliver (st : state) : state :=
  if handlers st then
    mkState (st_pc st) (x11_display st) true (handlers st) (atexit_quit st)
            (start_time st) (teardowns st) (trace st)
  else set_pc (PcDone Killed) st.

Definition step (i : input) (st : state) : state :=
  match st_pc st with
  | PcDone _ => st
  | _ => match i with
         | Signal => deliver st
         | Go a => advance a st
         end
  end.

Fixpoint exec (inputs : list input) (st : state) : state :=
  match inputs with
  | [] => st
  | i :: rest => exec rest (step i st)
  end.

End Process.

(** The state in which [main] starts, and the one in which the argument
    loop leaves the process. *)
Definition boot (p : pc) (tr : list event) : state :=
  mkState p false false false false d_0 0 tr.

Definition after_args (r : parsed) : RunConfig * state :=
  match r with
  | Parsed cfg => (cfg, boot PcOpenDisplay [])
  | Usage code => (default_config, boot (PcDone (Exited code)) [PrintUsage])
  | Version => (default_config, boot (PcDone (Exited EXIT_SUCCESS)) [PrintVersion])
  end.

(** [main]: [argv[0]] is the name of the program. *)
Definition main (atof : string -> double) (argv : list string) (inputs : list input) : state :=
  let '(cfg, st) := after_args (parse_args atof (tl argv) default_config) in
  exec cfg inputs st.

(** ** Predicates on states and traces used by the properties *)

Definition no_close (tr : list event) : Prop := ~ In XCloseDisplay tr.

(** What [quit_application] adds to the trace: the neutral gamma, and
    then the flush and the release of the display, or the diagnostic of
    a failed request. *)
Definition neutral_tail (ok : bool) : list event :=
  XF86VidModeSetGamma f_1 f_1 f_1 ok ::
  (if ok then [XFlush; XCloseDisplay] else [Diagnostic]).

Definition teardown_status (code : exit_status) (ok : bool) : status :=
  Exited (if ok then code else EXIT_FAILURE).

(** The invariant of the process, by control point. *)
Definition wf (st : state) : Prop :=
  match st_pc st with
  | PcOpenDisplay =>
      x11_display st = false /\ atexit_quit st = false /\
      teardowns st = 0%nat /\ no_close (trace st)
  | PcInstall =>
      x11_display st = true /\ atexit_quit st = false /\
      teardowns st = 0%nat /\ no_close (trace st)
  | PcExit _ =>
      (atexit_quit st = true -> x11_display st = true) /\
      teardowns st = 0%nat /\ no_close (trace st)
  | PcDone _ =>
      (teardowns st = 0%nat /\ no_close (trace st)) \/
      (teardowns st = 1%nat /\
       exists tr ok, trace st = tr ++ neutral_tail ok /\ no_close tr)
  | _ =>
      x11_display st = true /\ atexit_quit st = true /\ handlers st = true /\
      teardowns st = 0%nat /\ no_close (trace st)
  end.

(** The inputs that make the program run (the others are signals). *)
Definition is_go (i : input) : bool :=
  match i with Go _ => true | Signal => false end.

Definition count_go (inputs : list input) : nat := List.length (List.filter is_go inputs).

(** Steps of the program from a control point to the end of the process
    once [main] is about to return. *)
Definition steps_to_end (p : pc) : nat :=
  match p with
  | PcReturn => 2
  | PcExit _ => 1
  | _ => 0
  end.

(** The states from the return of [main] on, relative to the state [st0]
    in which the return is reached. *)
Definition returning (st0 st : state) : Prop :=
  (st_pc st = PcReturn \/ st_pc st = PcExit EXIT_SUCCESS) /\
  x11_display st = true /\ atexit_quit st = true /\ handlers st = true /\
  teardowns st = 0%nat /\ trace st = trace st0.

Definition torn_down (st0 st : state) : Prop :=
  exists ok,
    st_pc st = PcDone (teardown_status EXIT_SUCCESS ok) /\
    trace st = trace st0 ++ neutral_tail ok /\
    teardowns st = 1%nat /\
    x11_display st = negb ok.

Definition in_loop (p : pc) : bool :=
  match p with
  | PcLoopCond | PcCallRainbow | PcYield | PcCheckQuit => true
  | _ => false
  end.

Definition is_gamma (e : event) : bool :=
  match e with XF86VidModeSetGamma _ _ _ _ => true | _ => false end.

(** The number of gamma-set requests in a trace. *)
Definition gamma_calls (tr : list event) : nat :=
  List.length (List.filter is_gamma tr).

(** Requests that the loop can still make before it looks at the flag,
    and steps of the program until it has looked. *)
Definition calls_ahead (p : pc) : nat :=
  match p with
  | PcLoopCond | PcCallRainbow => 1
  | _ => 0
  end.

Definition steps_to_check (p : pc) : nat :=
  match p with
  | PcLoopCond => 4
  | PcCallRainbow => 3
  | PcYield => 2
  | PcCheckQuit => 1
  | _ => 0
  end.

Definition started (p : pc) : bool :=
  match p with
  | PcOpenDisplay | PcInstall | PcStartTime => false
  | _ => true
  end.

(** The states after the flag is set, relative to the number [g] of
    requests and the number [t] of teardowns at that moment. *)
Definition stopping (g t : nat) (st : state) : Prop :=
  pending_quit st = true /\ started (st_pc st) = true /\
  match st_pc st with
  | PcDone _ =>
      (t <= teardowns st)%nat /\
      (gamma_calls (trace st) <= g + 1 + (teardowns st - t))%nat
  | p =>
      teardowns st = t /\
      (gamma_calls (trace st) + calls_ahead p <= g + 1)%nat
  end.

(** ** Values and sample inputs *)

(** The rational number that a finite floating-point number denotes
    (zero for the other ones). *)
Definition SF2Q (x : spec_float) : Q :=
  match x with
  | S754_finite s m e => inject_Z (cond_Zopp s (Zpos m)) * Qpower 2 e
  | _ => 0%Q
  end.

(** [atof] on the few strings of the sample runs; as in libc, a string
    that is not a number gives zero. *)
Definition atof_table (s : string) : double :=
  if String.eqb s "2" then F64.of_Z 2
  else if String.eqb s "9.5" then F64.lit 95 10
  else if String.eqb s "-1" then F64.of_Z (-1)
  else if String.eqb s "0.05" then F64.lit 5 100
  else d_0.

(** An answer of the environment: the clock reads [s] seconds and [ns]
    nanoseconds, and requests succeed. *)
Definition at_time (s ns : Z) : answer := mkAnswer (Some (s, ns)) true.

(** A configuration with a time limit of two seconds. *)
Definition two_seconds : RunConfig :=
  {| time_limit := F64.of_Z 2; speed := d_1; luminosity := F32.div f_1 f_3 |}.

(** A state of the loop at its condition, started at second 5. *)
Definition at_loop_cond (quit : bool) : state :=
  mkState PcLoopCond true quit true true (F64.of_Z 5) 0 [XOpenDisplay true; ClockGettime true].

(** ** Values of floating-point numbers and rounding *)

Definition rne (X G : Z) : Z :=
  let q := X / G in
  let r2 := 2 * (X mod G) in
  if r2 <? G then q
  else if G <? r2 then q + 1
  else if Z.even q then q else q + 1.

(** The least exponent of binary64, as a count of binary digits after
    the point: every finite number of either format is a multiple of
    [2 ^ - K]. *)
Definition K : Z := 1074.

(** A finite number in units of [2 ^ - K]. *)
Definition val (x : spec_float) : Z :=
  match x with
  | S754_finite s m e => cond_Zopp s (Zpos m * 2 ^ (e + K))
  | _ => 0
  end.

(** The number is a zero or finite, with the sign bit [s]. *)
Definition fin_sign (s : bool) (x : spec_float) : Prop :=
  match x with
  | S754_zero s' => s' = s
  | S754_finite s' _ e => s' = s /\ - K <= e
  | _ => False
  end.

(** The spacing of the numbers of a format around [X] (in units of
    [2 ^ - K]), and rounding to it. *)
Definition grid (prec emax : Z) (X : Z) : Z :=
  2 ^ (fexp prec emax (Z.log2 X + 1 - K) + K).

Definition RND (prec emax : Z) (X : Z) : Z :=
  rne X (grid prec emax X) * grid prec emax X.

(** The mantissa that [binary_round] arrives at before it renormalises,
    at the exponent [fexp] of the number. *)
Definition rounded_mantissa (prec emax : Z) (m : positive) (e : Z) : Z :=
  let E := fexp prec emax (Z.log2 (Zpos m) + 1 + e) in
  if E <=? e then Zpos m * 2 ^ (e - E) else rne (Zpos m) (2 ^ (E - e)).

(** One, in units of [2 ^ - K]. *)
Definition U : Z := 2 ^ K.

(** [palette[i] += d] on one element. *)
Definition boost (x : float) (d : double) : float :=
  float_of_double (F64.add (double_of_float x) d).

(** 2^63 as a [double]: the first value that [long] cannot hold. *)
Definition d_2p63 : double := F64.of_Z (2 ^ 63).

(** The bonus that the rising channel gets: [1.0f - fmod(t, 1.0)]. *)
Definition fading (t : double) : double :=
  F64.sub (double_of_float f_1) (fmod t d_1).

(** The palette after the two updates, by the whole seconds [n]. *)
Definition rotate (n : Z) (fade rise c : float) : float * float * float :=
  match n mod 3 with
  | 0 => (fade, rise, c)
  | 1 => (c, fade, rise)
  | _ => (rise, c, fade)
  end.

(** A time that [call_rainbow] can take: zero or positive and below
    2^63, so that [(long)t] and [(long)t + 1] are defined. *)
Definition time_arg (t : double) : Prop :=
  F64.valid t = true /\ fin_sign false t /\ val t < 2 ^ 63 * U.

Definition Upos : positive := 2 ^ 1074.

(** A luminosity that the argument loop lets through (and that is a
    number): a [float] between 0.1f and 9.9f. *)
Definition accepted (L : float) : Prop :=
  F32.valid L = true /\ SFleb f_0_1 L = true /\ SFleb L f_9_9 = true.

(** Bounds of the rounding errors of one update, in units of [2 ^ - K]:
    the spacing of [float] and of [double] below 16, and of [double]
    below 2. *)
Definition E32 : Z := 2 ^ (4 - 24 + K).
Definition E64 : Z := 2 ^ (4 - 53 + K).
Definition E1 : Z := 2 ^ (1 - 53 + K).

(** One half and three, as [double]s. *)
Definition d_half : double := F64.lit 1 2.
Definition d_3 : double := F64.of_Z 3.

(** A time just above zero for which [t + 3.0] is rounded. *)
Definition t_rounded : double := S754_finite false 9007198986305536 (-81).

(** Two channels whose values differ by at most [delta] (in units of
    [2 ^ - K]) and the rounding tolerance 2^-19. *)
Definition near (delta : Z) (x y : float) : Prop :=
  fin_sign false x /\ fin_sign false y /\
  2 ^ 19 * (Z.abs (val x - val y) - delta) <= U.

(** A time that [call_rainbow] can take, in the comparisons of C: a
    [double] at least 0.0 and below 2^63, other than [-0.0]. *)
Definition callable (t : double) : Prop :=
  F64.valid t = true /\ SFleb d_0 t = true /\ SFltb t d_2p63 = true /\
  t <> S754_zero true.

(** The triples at [t] and at [n] are within [eps] of each other,
    channel by channel. *)
Definition triples_within (eps : Q) (t n : double) (L : float) : Prop :=
  exists r g b r' g' b',
    rainbow_palette t L = Some (r, g, b) /\
    rainbow_palette n L = Some (r', g', b') /\
    (Qabs (SF2Q r - SF2Q r') <= eps)%Q /\
    (Qabs (SF2Q g - SF2Q g') <= eps)%Q /\
    (Qabs (SF2Q b - SF2Q b') <= eps)%Q.

(** The display has been opened at some point of the trace. *)
Definition opened (tr : list event) : Prop := In (XOpenDisplay true) tr.

(** What holds on the way to an [exit]: before the handler is
    registered the display has not been opened, and an [exit] that ran
    the handler ended the trace with the request of the neutral gamma. *)
Definition exit_inv (st : state) : Prop :=
  match st_pc st with
  | PcOpenDisplay => ~ opened (trace st)
  | PcExit _ => atexit_quit st = false -> ~ opened (trace st)
  | PcDone (Exited c) =>
      ~ opened (trace st) \/
      (teardowns st = 1%nat /\
       exists tr ok c0,
         trace st = tr ++ neutral_tail ok /\ c = (if ok then c0 else EXIT_FAILURE) /\
         x11_display st = negb ok)
  | _ => True
  end.

(** The states of a loop that nothing asks to stop: in the loop, or on
    the way out by a failure. *)
Definition loop_only (st : state) : Prop :=
  pending_quit st = false /\
  match st_pc st with
  | PcLoopCond | PcCallRainbow | PcYield | PcCheckQuit => True
  | PcExit EXIT_FAILURE => True
  | PcDone s => s <> Exited EXIT_SUCCESS
  | _ => False
  end.

(** The values of a gamma request satisfy the assertions of
    [change_gamma]. *)
Definition in_range_event (e : event) : bool :=
  match e with
  | XF86VidModeSetGamma r g b _ => change_gamma_assert r g b
  | _ => true
  end.

Definition requests_ok (tr : list event) : Prop :=
  forallb in_range_event tr = true.

(** 9.0f, the luminosity up to which a full bonus stays within the
    bound 10.0f of the assertions. *)
Definition f_9 : float := F32.of_Z 9.

(** The two numbers at which the test of the luminosity changes its
    answer: the midpoint of 0.1f and the [float] below it, and the
    midpoint of 9.9f and the [float] above it.  Both are [double]s. *)
Definition lum_low : double := F64.lit 26843545 (2 ^ 28).
Definition lum_high : double := F64.lit 20761805 (2 ^ 21).

(** [atof] on strings just outside the interval; as in libc, a string
    that is not a number gives zero. *)
Definition atof_edge (s : string) : double :=
  if String.eqb s "9.90000001" then F64.lit 990000001 100000000
  else if String.eqb s "9.91" then F64.lit 991 100
  else if String.eqb s "0.0999999999" then F64.lit 999999999 10000000000
  else d_0.

(** The bonus of channel [i] at the time [tau] without any rounding, in
    units of [2 ^ - K]: a triangular wave of period three seconds. *)
Definition ideal (i tau : Z) : Z :=
  match (tau / U - i) mod 3 with
  | 0 => U - tau mod U
  | 2 => tau mod U
  | _ => 0
  end.

(** The channel [x] follows the ideal bonus of channel [i] at the time
    [t] up to the rounding of one update. *)
Definition tracks (i : Z) (t : double) (L x : float) : Prop :=
  fin_sign false x /\
  2 * Z.abs (val x - (val L + ideal i (val t))) <= E32 + E64 + E1.

(** Two channels differ by at most [delta] and the rounding of two
    updates. *)
Definition gap (delta : Z) (x y : float) : Prop :=
  fin_sign false x /\ fin_sign false y /\
  Z.abs (val x - val y) <= delta + (E32 + E64 + E1).

(** 2^32 seconds, as a [double]. *)
Definition d_2p32 : double := F64.of_Z (2 ^ 32).

(** A luminosity for which [L + 1.0] lies halfway between two
    [float]s, the last [double] below 2.0, the largest fractional part
    of a time between 1.0 and 2.0, and the two values of the third
    channel at and below 2.0. *)
Definition lum_tie : float := S754_finite false 8388611 (-24).
Definition d_below_2 : double := S754_finite false 9007199254740991 (-52).
Definition d_below_1 : double := S754_finite false 9007199254740990 (-53).
Definition blue_at_2 : float := S754_finite false 12582914 (-23).
Definition blue_below_2 : float := S754_finite false 12582913 (-23).

(** * Properties *)

(** ** Comparisons *)

Lemma SFcompare_antisym (x y : spec_float) :
  SFcompare x y = option_map CompOpp (SFcompare y x).
Proof.
  destruct x as [sx|sx| |sx mx ex], y as [sy|sy| |sy my ey]; simpl;
    try reflexivity;
    try (destruct sx; reflexivity);
    try (destruct sy; reflexivity);
    try (destruct sx, sy; reflexivity).
  rewrite (Z.compare_antisym ey ex).
  rewrite !Pos.compare_cont_spec; simpl Pos.switch_Eq.
  rewrite (Pos.compare_antisym my mx).
  destruct sx, sy; simpl; try reflexivity;
    destruct (ey ?= ex); simpl; try reflexivity;
    destruct (my ?= mx)%positive; reflexivity.
Qed.

Lemma SFltb_not_leb (x y : spec_float) :
  SFltb x y = true -> SFleb y x = false.
Proof.
  unfold SFltb, SFleb. rewrite (SFcompare_antisym y x).
  destruct (SFcompare x y) as [[ | | ]|]; simpl; congruence.
Qed.

Lemma SFleb_not_ltb (x y : spec_float) :
  SFleb x y = true -> SFltb y x = false.
Proof.
  unfold SFltb, SFleb. rewrite (SFcompare_antisym y x).
  destruct (SFcompare x y) as [[ | | ]|]; simpl; congruence.
Qed.

(** ** The constants, evaluated *)

Lemma f_0_1_bits : f_0_1 = S754_finite false 13421773 (-27).
Proof. reflexivity. Qed.

Lemma f_9_9_bits : f_9_9 = S754_finite false 10380902 (-20).
Proof. reflexivity. Qed.

Lemma f_10_bits : f_10 = S754_finite false 10485760 (-20).
Proof. reflexivity. Qed.

Lemma f_1_bits : f_1 = S754_finite false 8388608 (-23).
Proof. reflexivity. Qed.

Lemma d_1_bits : d_1 = S754_finite false 4503599627370496 (-52).
Proof. reflexivity. Qed.

Lemma d_0_bits : d_0 = S754_zero false.
Proof. reflexivity. Qed.

Lemma neutral_in_range : change_gamma_assert f_1 f_1 f_1 = true.
Proof. reflexivity. Qed.

(** ** Rounding to nearest, by value *)

Lemma digits2_pos_log2 (m : positive) :
  Zpos (digits2_pos m) = Z.log2 (Zpos m) + 1.
Proof.
  assert (E : forall p, digits2_pos p = Pos.size p).
  { induction p; simpl; congruence. }
  rewrite E. destruct m; simpl; rewrite ?Pos2Z.inj_succ; lia.
Qed.

Lemma iter_xO (m d : positive) :
  Zpos (Pos.iter xO m d) = Zpos m * 2 ^ Zpos d.
Proof.
  induction d using Pos.peano_ind.
  - simpl. lia.
  - rewrite Pos.iter_succ, Pos2Z.inj_succ, Z.pow_succ_r by lia.
    rewrite Pos2Z.inj_xO, IHd. lia.
Qed.

Lemma shl_align_spec (m : positive) (e e' : Z) :
  e' <= e ->
  snd (shl_align m e e') = e' /\
  Zpos (fst (shl_align m e e')) = Zpos m * 2 ^ (e - e').
Proof.
  intros H. unfold shl_align.
  destruct (e' - e) as [|d|d] eqn:E; try lia; cbn [fst snd].
  - assert (e' = e) by lia. subst. rewrite Z.sub_diag, Z.pow_0_r. lia.
  - split; [reflexivity|]. rewrite iter_xO.
    replace (e - e') with (Zpos d) by lia. reflexivity.
Qed.

Lemma shl_align_id (m : positive) (e e' : Z) :
  e <= e' -> shl_align m e e' = (m, e).
Proof.
  intros H. unfold shl_align.
  destruct (e' - e) as [|d|d] eqn:E; try lia; reflexivity.
Qed.

Lemma iter_pos_nat {A} (f : A -> A) (n : positive) (x : A) :
  iter_pos f n x = Nat.iter (Pos.to_nat n) f x.
Proof.
  revert x. induction n; intros x.
  - change (iter_pos f n~1 x) with (iter_pos f n (iter_pos f n (f x))).
    rewrite !IHn, Pos2Nat.inj_xI, Nat.iter_succ_r.
    replace (2 * Pos.to_nat n)%nat with (Pos.to_nat n + Pos.to_nat n)%nat by lia.
    now rewrite Nat.iter_add.
  - change (iter_pos f n~0 x) with (iter_pos f n (iter_pos f n x)).
    rewrite !IHn, Pos2Nat.inj_xO.
    replace (2 * Pos.to_nat n)%nat with (Pos.to_nat n + Pos.to_nat n)%nat by lia.
    now rewrite Nat.iter_add.
  - reflexivity.
Qed.

Lemma shr_1_spec (q : Z) (r s : bool) :
  0 <= q ->
  shr_1 (Build_shr_record q r s) = Build_shr_record (q / 2) (Z.odd q) (r || s).
Proof.
  intros Hq. destruct q as [|p|p]; try lia; [reflexivity|].
  destruct p.
  - simpl shr_1. simpl Z.odd. f_equal.
    apply Z.div_unique with (r := 1); lia.
  - simpl shr_1. simpl Z.odd. f_equal.
    apply Z.div_unique with (r := 0); lia.
  - reflexivity.
Qed.

(** The record after [k + 1] halvings of [m]: the quotient, the last bit
    shifted out, and whether a bit shifted out before it was set. *)
Lemma shr_1_iter (m : Z) (k : nat) :
  0 <= m ->
  Nat.iter (S k) shr_1 (Build_shr_record m false false) =
  Build_shr_record (m / 2 ^ Z.of_nat (S k))
                   (Z.testbit m (Z.of_nat k))
                   (negb (m mod 2 ^ Z.of_nat k =? 0)).
Proof.
  intros Hm. induction k as [|k IH].
  - replace (Nat.iter 1 shr_1 (Build_shr_record m false false))
      with (shr_1 (Build_shr_record m false false)) by reflexivity.
    rewrite shr_1_spec by assumption.
    change (Z.of_nat 1) with 1. change (Z.of_nat 0) with 0.
    rewrite Z.pow_1_r, Z.pow_0_r, Z.mod_1_r, Z.bit0_odd. reflexivity.
  - rewrite Nat.iter_succ, IH. clear IH.
    set (q := m / 2 ^ Z.of_nat (S k)).
    assert (Hq : 0 <= q) by (apply Z.div_pos; lia).
    assert (Eq : m / 2 ^ Z.of_nat (S (S k)) = q / 2).
    { unfold q. rewrite (Nat2Z.inj_succ (S k)), Z.pow_succ_r by lia.
      rewrite (Z.mul_comm 2), Z.div_div by lia. reflexivity. }
    assert (Eb : Z.testbit m (Z.of_nat (S k)) = Z.odd q).
    { unfold q. rewrite <- Z.bit0_odd, Z.div_pow2_bits by lia. f_equal. }
    assert (Es : negb (m mod 2 ^ Z.of_nat (S k) =? 0)
                 = Z.testbit m (Z.of_nat k) || negb (m mod 2 ^ Z.of_nat k =? 0)).
    { rewrite Nat2Z.inj_succ, Z.pow_succ_r by lia.
      pose proof (Z.testbit_spec' m (Z.of_nat k) ltac:(lia)) as Hb.
      set (P := 2 ^ Z.of_nat k) in *.
      assert (HP : 0 < P) by (unfold P; lia).
      assert (E1 : m mod (2 * P) = P * ((m / P) mod 2) + m mod P).
      { rewrite (Z.mul_comm 2 P), Z.rem_mul_r by lia. lia. }
      rewrite E1, <- Hb.
      pose proof (Z.mod_pos_bound m P HP).
      destruct (Z.testbit m (Z.of_nat k)); simpl Z.b2z; simpl orb.
      - apply negb_true_iff, Z.eqb_neq. lia.
      - rewrite Z.mul_0_r, Z.add_0_l. reflexivity. }
    rewrite shr_1_spec by assumption. rewrite Eq, Eb, Es. reflexivity.
Qed.

Lemma mod_pow2_succ (m k : Z) :
  0 <= k ->
  m mod 2 ^ (Z.succ k) = 2 ^ k * Z.b2z (Z.testbit m k) + m mod 2 ^ k.
Proof.
  intros Hk. rewrite Z.pow_succ_r by lia.
  rewrite (Z.testbit_spec' m k Hk).
  assert (HP : 0 < 2 ^ k) by lia.
  rewrite (Z.mul_comm 2 (2 ^ k)), Z.rem_mul_r by lia. lia.
Qed.

(** Shifting right by [n] and rounding by the location is rounding the
    quotient by [2 ^ n] to the nearest integer, ties to even. *)
Lemma shr_round (m : Z) (n : positive) :
  0 <= m ->
  let mrs := iter_pos shr_1 n (Build_shr_record m false false) in
  round_nearest_even (shr_m mrs) (loc_of_shr_record mrs) = rne m (2 ^ Zpos n).
Proof.
  intros Hm mrs. unfold mrs. rewrite iter_pos_nat.
  destruct (Pos2Nat.is_succ n) as [k Ek]. rewrite Ek.
  rewrite shr_1_iter by assumption.
  assert (En : Zpos n = Z.succ (Z.of_nat k)) by lia.
  rewrite En, <- Nat2Z.inj_succ.
  unfold rne. rewrite Nat2Z.inj_succ.
  rewrite (mod_pow2_succ m (Z.of_nat k)) by lia.
  rewrite Z.pow_succ_r by lia.
  set (P := 2 ^ Z.of_nat k).
  assert (HP : 0 < P) by (unfold P; lia).
  pose proof (Z.mod_pos_bound m P HP) as Hr.
  set (q := m / (2 * P)).
  cbn [shr_m loc_of_shr_record].
  destruct (Z.testbit m (Z.of_nat k)); cbn [Z.b2z];
    destruct (m mod P =? 0) eqn:E0; cbn [negb round_nearest_even];
    [apply Z.eqb_eq in E0 | apply Z.eqb_neq in E0
    |apply Z.eqb_eq in E0 | apply Z.eqb_neq in E0].
  - replace (2 * (P * 1 + m mod P) <? 2 * P) with false
      by (symmetry; apply Z.ltb_ge; lia).
    replace (2 * P <? 2 * (P * 1 + m mod P)) with false
      by (symmetry; apply Z.ltb_ge; lia).
    reflexivity.
  - replace (2 * (P * 1 + m mod P) <? 2 * P) with false
      by (symmetry; apply Z.ltb_ge; lia).
    replace (2 * P <? 2 * (P * 1 + m mod P)) with true
      by (symmetry; apply Z.ltb_lt; lia).
    reflexivity.
  - replace (2 * (P * 0 + m mod P) <? 2 * P) with true
      by (symmetry; apply Z.ltb_lt; lia).
    reflexivity.
  - replace (2 * (P * 0 + m mod P) <? 2 * P) with true
      by (symmetry; apply Z.ltb_lt; lia).
    reflexivity.
Qed.

Lemma rne_scale (X G c : Z) :
  0 < G -> 0 < c -> rne (X * c) (G * c) = rne X G.
Proof.
  intros HG Hc. unfold rne.
  rewrite Z.div_mul_cancel_r by lia.
  rewrite Z.mul_mod_distr_r by lia.
  replace (2 * (X mod G * c) <? G * c) with (2 * (X mod G) <? G).
  2:{ destruct (Z.ltb_spec (2 * (X mod G)) G), (Z.ltb_spec (2 * (X mod G * c)) (G * c));
        try reflexivity; nia. }
  replace (G * c <? 2 * (X mod G * c)) with (G <? 2 * (X mod G)).
  2:{ destruct (Z.ltb_spec G (2 * (X mod G))), (Z.ltb_spec (G * c) (2 * (X mod G * c)));
        try reflexivity; nia. }
  reflexivity.
Qed.

Lemma rne_multiple (q G : Z) : 0 < G -> rne (q * G) G = q.
Proof.
  intros HG. unfold rne. rewrite Z.div_mul, Z.mod_mul by lia.
  replace (2 * 0 <? G) with true by (symmetry; apply Z.ltb_lt; lia).
  reflexivity.
Qed.

Lemma rne_bounds (X G : Z) :
  0 < G -> X / G <= rne X G <= X / G + 1 /\
           2 * Z.abs (rne X G * G - X) <= G /\
           (X mod G = 0 -> rne X G = X / G).
Proof.
  intros HG. unfold rne.
  pose proof (Z.div_mod X G ltac:(lia)) as D.
  pose proof (Z.mod_pos_bound X G HG) as B.
  destruct (Z.ltb_spec (2 * (X mod G)) G);
    [|destruct (Z.ltb_spec G (2 * (X mod G)));
      [|destruct (Z.even (X / G))]];
    repeat split; try lia.
Qed.

Section Round.

Variables prec emax : Z.
Hypothesis Hprec : 0 < prec.
Hypothesis Hemax : 2 <= emax.
Hypothesis HK : - K <= emin prec emax.

Lemma fexp_ge_emin (x : Z) : emin prec emax <= fexp prec emax x.
Proof. unfold fexp. lia. Qed.

Lemma log2_mul_pow2' (m : positive) (k : Z) :
  0 <= k -> Z.log2 (Zpos m * 2 ^ k) = Z.log2 (Zpos m) + k.
Proof.
  intros Hk. rewrite Z.log2_mul_pow2 by lia. lia.
Qed.

(** The first phase of rounding: the mantissa [M] at exponent [e] is
    shifted to the exponent of the format and rounded. *)
Lemma shr_fexp_round (M e : Z) :
  0 < M ->
  let E := fexp prec emax (Z.log2 M + 1 + e) in
  let mrs := fst (shr_fexp prec emax M e loc_Exact) in
  let e' := snd (shr_fexp prec emax M e loc_Exact) in
  (E <= e -> mrs = Build_shr_record M false false /\ e' = e) /\
  (e < E -> e' = E /\
            shr_m mrs = M / 2 ^ (E - e) /\
            round_nearest_even (shr_m mrs) (loc_of_shr_record mrs)
            = rne M (2 ^ (E - e))).
Proof.
  intros HM E mrs e'. unfold mrs, e', shr_fexp.
  assert (Ed : Zdigits2 M = Z.log2 M + 1).
  { destruct M as [|p|p]; try lia. apply digits2_pos_log2. }
  rewrite Ed. fold E. cbn [shr_record_of_loc].
  unfold shr. destruct (E - e) as [|n|n] eqn:En; cbn [fst snd].
  - split; [auto | lia].
  - split; [lia|]. intros _. split; [lia|]. split.
    + rewrite iter_pos_nat. destruct (Pos2Nat.is_succ n) as [k Ek].
      rewrite Ek, shr_1_iter by lia. cbn [shr_m]. f_equal. f_equal. lia.
    + apply shr_round. lia.
  - split; [auto | lia].
Qed.

(** [binary_round_aux] on an exact mantissa, in the terms of the two
    phases. *)
Lemma binary_round_aux_exact (s : bool) (M e : Z) :
  0 < M ->
  let E := fexp prec emax (Z.log2 M + 1 + e) in
  let m1 := if E <=? e then M else rne M (2 ^ (E - e)) in
  let e1 := Z.max E e in
  binary_round_aux prec emax s M e loc_Exact =
  let '(mrs, e2) := shr_fexp prec emax m1 e1 loc_Exact in
  match shr_m mrs with
  | 0 => S754_zero s
  | Zpos m => if e2 <=? emax - prec then S754_finite s m e2 else S754_infinity s
  | Zneg _ => S754_nan
  end.
Proof.
  intros HM E m1 e1. unfold binary_round_aux.
  destruct (shr_fexp_round M e HM) as [H1 H2]. fold E in H1, H2.
  destruct (shr_fexp prec emax M e loc_Exact) as [mrs e'] eqn:Es.
  cbn [fst snd] in H1, H2.
  unfold m1, e1. destruct (Z.leb_spec E e) as [L|L].
  - destruct (H1 L) as [-> ->]. cbn [shr_m loc_of_shr_record round_nearest_even].
    rewrite Z.max_r by lia. reflexivity.
  - destruct (H2 L) as (-> & _ & ->). rewrite Z.max_l by lia. reflexivity.
Qed.

Lemma binary_round_phases (s : bool) (m : positive) (e : Z) :
  let E := fexp prec emax (Z.log2 (Zpos m) + 1 + e) in
  let Q := rounded_mantissa prec emax m e in
  binary_round prec emax s m e =
  let '(mrs, e2) := shr_fexp prec emax Q E loc_Exact in
  match shr_m mrs with
  | 0 => S754_zero s
  | Zpos m => if e2 <=? emax - prec then S754_finite s m e2 else S754_infinity s
  | Zneg _ => S754_nan
  end.
Proof.
  intros E Q. unfold binary_round. rewrite digits2_pos_log2. fold E.
  destruct (Z.ltb_spec E e) as [L|L].
  - destruct (shl_align_spec m e E ltac:(lia)) as [He Hm].
    destruct (shl_align m e E) as [mz ez]. cbn [fst snd] in He, Hm. subst ez.
    rewrite binary_round_aux_exact by lia.
    assert (EE : fexp prec emax (Z.log2 (Zpos mz) + 1 + E) = E).
    { rewrite Hm, log2_mul_pow2' by lia.
      replace (Z.log2 (Zpos m) + (e - E) + 1 + E) with (Z.log2 (Zpos m) + 1 + e) by lia.
      reflexivity. }
    rewrite EE, Z.leb_refl, Z.max_id.
    unfold Q, rounded_mantissa. fold E.
    replace (E <=? e) with true by (symmetry; apply Z.leb_le; lia).
    rewrite <- Hm. reflexivity.
  - rewrite shl_align_id by lia.
    rewrite binary_round_aux_exact by lia. fold E.
    rewrite Z.max_l by lia.
    unfold Q, rounded_mantissa. fold E.
    destruct (Z.leb_spec E e) as [L'|L']; [|reflexivity].
    replace (e - E) with 0 by lia. rewrite Z.pow_0_r, Z.mul_1_r. reflexivity.
Qed.

Lemma log2_bounds (m : positive) :
  2 ^ Z.log2 (Zpos m) <= Zpos m < 2 ^ (Z.log2 (Zpos m) + 1).
Proof.
  pose proof (Z.log2_spec (Zpos m) ltac:(lia)) as H.
  rewrite <- Z.add_1_r in H. exact H.
Qed.

Lemma rounded_mantissa_bounds (m : positive) (e : Z) :
  let E := fexp prec emax (Z.log2 (Zpos m) + 1 + e) in
  let Q := rounded_mantissa prec emax m e in
  0 <= Q <= 2 ^ prec /\ (emin prec emax < E -> 2 ^ (prec - 1) <= Q).
Proof.
  intros E Q. unfold Q, rounded_mantissa. fold E.
  pose proof (log2_bounds m) as [Hlo Hhi].
  pose proof (Z.log2_nonneg (Zpos m)) as Hl.
  set (l := Z.log2 (Zpos m)) in *.
  assert (HE : E = Z.max (l + 1 + e - prec) (emin prec emax)) by reflexivity.
  destruct (Z.leb_spec E e) as [L|L].
  - assert (Hp : 0 < 2 ^ (e - E)) by (apply Z.pow_pos_nonneg; lia).
    split; [split|].
    + lia.
    + apply Z.le_trans with (2 ^ (l + 1) * 2 ^ (e - E)); [nia|].
      rewrite <- Z.pow_add_r by lia. apply Z.pow_le_mono_r; lia.
    + intros Hgt. assert (E = l + 1 + e - prec) by lia.
      replace (prec - 1) with (l + (e - E)) by lia.
      rewrite Z.pow_add_r by lia. nia.
  - assert (Hn : 0 < E - e) by lia.
    assert (Hp : 0 < 2 ^ (E - e)) by (apply Z.pow_pos_nonneg; lia).
    destruct (rne_bounds (Zpos m) (2 ^ (E - e)) Hp) as [[B1 B2] _].
    assert (Hq0 : 0 <= Zpos m / 2 ^ (E - e)) by (apply Z.div_pos; lia).
    split; [split|].
    + lia.
    + assert (Zpos m / 2 ^ (E - e) < 2 ^ prec); [|lia].
      apply Z.div_lt_upper_bound; [lia|].
      rewrite <- Z.pow_add_r by lia.
      apply Z.lt_le_trans with (2 ^ (l + 1)); [lia|].
      apply Z.pow_le_mono_r; lia.
    + intros Hgt. assert (E = l + 1 + e - prec) by lia.
      assert (2 ^ (prec - 1) <= Zpos m / 2 ^ (E - e)); [|lia].
      apply Z.div_le_lower_bound; [lia|].
      rewrite <- Z.pow_add_r by lia.
      replace (E - e + (prec - 1)) with l by lia. lia.
Qed.

Lemma grid_of_float (m : positive) (e : Z) :
  - K <= e ->
  grid prec emax (Zpos m * 2 ^ (e + K))
  = 2 ^ (fexp prec emax (Z.log2 (Zpos m) + 1 + e) + K).
Proof.
  intros He. unfold grid. rewrite log2_mul_pow2' by lia.
  f_equal. f_equal. f_equal. lia.
Qed.

Lemma rounded_mantissa_RND (m : positive) (e : Z) :
  - K <= e ->
  let E := fexp prec emax (Z.log2 (Zpos m) + 1 + e) in
  rounded_mantissa prec emax m e * 2 ^ (E + K) = RND prec emax (Zpos m * 2 ^ (e + K)).
Proof.
  intros He E. unfold RND. rewrite grid_of_float by lia. fold E.
  pose proof (fexp_ge_emin (Z.log2 (Zpos m) + 1 + e)) as HE. fold E in HE.
  assert (HG : 0 < 2 ^ (E + K)) by (apply Z.pow_pos_nonneg; lia).
  f_equal. unfold rounded_mantissa. fold E.
  destruct (Z.leb_spec E e) as [L|L].
  - replace (e + K) with ((e - E) + (E + K)) by lia.
    rewrite (Z.pow_add_r 2 (e - E) (E + K)), Z.mul_assoc by lia.
    now rewrite rne_multiple.
  - replace (E + K) with ((E - e) + (e + K)) by lia.
    rewrite (Z.pow_add_r 2 (E - e) (e + K)) by lia.
    rewrite rne_scale; [reflexivity| |]; apply Z.pow_pos_nonneg; lia.
Qed.

Lemma fexp_le_emax (x : Z) :
  x < emax -> fexp prec emax x < emax - prec.
Proof. unfold fexp, emin. lia. Qed.

Lemma fexp_le_emax' (x : Z) :
  x <= emax -> fexp prec emax x <= emax - prec.
Proof. unfold fexp, emin. lia. Qed.

(** [binary_round] when the result does not overflow: it is a number of
    the format with the sign asked for, whose value is the value of the
    argument rounded to the format. *)
Lemma binary_round_spec_gen (s : bool) (m : positive) (e : Z) :
  - K <= e ->
  Z.log2 (Zpos m) + 1 + e <= emax ->
  (rounded_mantissa prec emax m e = 2 ^ prec -> Z.log2 (Zpos m) + 1 + e < emax) ->
  let r := binary_round prec emax s m e in
  fin_sign s r /\
  valid_binary prec emax r = true /\
  val r = cond_Zopp s (RND prec emax (Zpos m * 2 ^ (e + K))).
Proof.
  intros He Hov Hcarry r. unfold r. rewrite binary_round_phases.
  rewrite <- (rounded_mantissa_RND m e He).
  pose proof (rounded_mantissa_bounds m e) as [[Q0 Q1] Q2].
  pose proof (fexp_ge_emin (Z.log2 (Zpos m) + 1 + e)) as HE.
  pose proof (fexp_le_emax' _ Hov) as HE'.
  assert (HE'' : rounded_mantissa prec emax m e = 2 ^ prec ->
                 fexp prec emax (Z.log2 (Zpos m) + 1 + e) < emax - prec)
    by (intros C; apply fexp_le_emax, Hcarry, C).
  set (E := fexp prec emax (Z.log2 (Zpos m) + 1 + e)) in *.
  set (Q := rounded_mantissa prec emax m e) in *.
  destruct (Z.eq_dec Q 0) as [Z0|NZ].
  - (* the number rounds to zero *)
    rewrite Z0. unfold shr_fexp, shr. cbn [Zdigits2 shr_record_of_loc].
    assert (fexp prec emax (0 + E) - E <= 0) by (unfold fexp; lia).
    destruct (fexp prec emax (0 + E) - E) as [|n|n]; try lia;
      cbn [shr_m]; repeat split; destruct s; reflexivity.
  - assert (HQ : 0 < Q) by lia.
    destruct (shr_fexp_round Q E HQ) as [H1 H2].
    destruct (shr_fexp prec emax Q E loc_Exact) as [mrs e2].
    cbn [fst snd] in H1, H2.
    destruct (Z.eq_dec Q (2 ^ prec)) as [C|C].
    + (* the mantissa carries into the next binade *)
      specialize (HE'' C).
      assert (Hl : Z.log2 Q = prec) by (rewrite C; apply Z.log2_pow2; lia).
      assert (EE : fexp prec emax (Z.log2 Q + 1 + E) = E + 1)
        by (rewrite Hl; unfold fexp; lia).
      rewrite EE in H2. destruct (H2 ltac:(lia)) as (-> & Hm & _).
      rewrite Hm. replace (E + 1 - E) with 1 by lia. rewrite Z.pow_1_r.
      assert (Eh : Q / 2 = 2 ^ (prec - 1)).
      { rewrite C. replace prec with (Z.succ (prec - 1)) at 1 by lia.
        rewrite Z.pow_succ_r by lia. rewrite Z.mul_comm, Z.div_mul; lia. }
      rewrite Eh.
      assert (Hp : 0 < 2 ^ (prec - 1)) by (apply Z.pow_pos_nonneg; lia).
      destruct (2 ^ (prec - 1)) as [|p|p] eqn:Ep; try lia.
      replace (E + 1 <=? emax - prec) with true by (symmetry; apply Z.leb_le; lia).
      split; [split; [reflexivity | lia]|]. split.
      * cbn [valid_binary]. unfold bounded, canonical_mantissa.
        rewrite digits2_pos_log2, <- Ep, Z.log2_pow2 by lia.
        apply andb_true_iff. split; [apply Z.eqb_eq | apply Z.leb_le; lia].
        unfold fexp. lia.
      * cbn [val]. f_equal. rewrite <- Ep, C.
        replace (E + 1 + K) with (Z.succ (E + K)) by lia.
        replace prec with (Z.succ (prec - 1)) at 2 by lia.
        rewrite !Z.pow_succ_r by lia. lia.
    + (* the mantissa fits *)
      assert (Hl : Z.log2 Q < prec) by (apply Z.log2_lt_pow2; lia).
      assert (EE : fexp prec emax (Z.log2 Q + 1 + E) = E).
      { destruct (Z.eq_dec E (emin prec emax)) as [Em|Em].
        - unfold fexp. lia.
        - assert (prec - 1 <= Z.log2 Q) by (apply Z.log2_le_pow2; lia).
          unfold fexp. lia. }
      rewrite EE in H1. destruct (H1 ltac:(lia)) as [-> ->]. cbn [shr_m].
      destruct Q as [|q|q] eqn:Eq; try lia.
      replace (E <=? emax - prec) with true by (symmetry; apply Z.leb_le; lia).
      split; [split; [reflexivity | lia]|]. split.
      * cbn [valid_binary]. unfold bounded, canonical_mantissa.
        rewrite digits2_pos_log2, EE.
        apply andb_true_iff. split; [apply Z.eqb_eq; reflexivity | apply Z.leb_le; lia].
      * reflexivity.
Qed.

Lemma binary_round_spec (s : bool) (m : positive) (e : Z) :
  - K <= e ->
  Z.log2 (Zpos m) + 1 + e < emax ->
  let r := binary_round prec emax s m e in
  fin_sign s r /\
  valid_binary prec emax r = true /\
  val r = cond_Zopp s (RND prec emax (Zpos m * 2 ^ (e + K))).
Proof.
  intros He Hov. apply binary_round_spec_gen; [exact He | lia | intros _; exact Hov].
Qed.

(** A mantissa and an exponent that fit the format are kept as they
    are, up to normalisation. *)
Lemma binary_round_exact (s : bool) (m : positive) (e : Z) :
  - K <= e ->
  emin prec emax <= e ->
  Z.log2 (Zpos m) + 1 <= prec ->
  Z.log2 (Zpos m) + 1 + e <= emax ->
  let r := binary_round prec emax s m e in
  fin_sign s r /\
  valid_binary prec emax r = true /\
  val r = cond_Zopp s (Zpos m * 2 ^ (e + K)).
Proof.
  intros He Hmin Hdig Hov r.
  assert (HE : fexp prec emax (Z.log2 (Zpos m) + 1 + e) <= e)
    by (unfold fexp; lia).
  assert (EQ : rounded_mantissa prec emax m e
               = Zpos m * 2 ^ (e - fexp prec emax (Z.log2 (Zpos m) + 1 + e))).
  { unfold rounded_mantissa.
    replace (fexp prec emax (Z.log2 (Zpos m) + 1 + e) <=? e) with true
      by (symmetry; apply Z.leb_le; exact HE).
    reflexivity. }
  assert (NC : rounded_mantissa prec emax m e <> 2 ^ prec).
  { rewrite EQ. pose proof (log2_bounds m) as [_ Hu].
    pose proof (fexp_ge_emin (Z.log2 (Zpos m) + 1 + e)).
    set (E := fexp prec emax (Z.log2 (Zpos m) + 1 + e)) in *.
    assert (P : 0 < 2 ^ (e - E)) by (apply Z.pow_pos_nonneg; lia).
    assert (Zpos m * 2 ^ (e - E) < 2 ^ prec); [|lia].
    apply Z.lt_le_trans with (2 ^ (Z.log2 (Zpos m) + 1) * 2 ^ (e - E)); [nia|].
    pose proof (Z.log2_nonneg (Zpos m)).
    rewrite <- Z.pow_add_r by lia. apply Z.pow_le_mono_r; [lia|].
    unfold E, fexp. lia. }
  destruct (binary_round_spec_gen s m e He Hov ltac:(intros C; contradiction))
    as (F & V & E).
  split; [exact F|]. split; [exact V|].
  fold r in E. rewrite E. f_equal.
  rewrite <- (rounded_mantissa_RND m e He), EQ.
  rewrite <- Z.mul_assoc, <- Z.pow_add_r.
  - f_equal. f_equal. lia.
  - lia.
  - pose proof (fexp_ge_emin (Z.log2 (Zpos m) + 1 + e)). lia.
Qed.

End Round.

Lemma rne_mono (X Y G : Z) :
  0 < G -> X <= Y -> rne X G <= rne Y G.
Proof.
  intros HG HXY.
  destruct (rne_bounds X G HG) as [[X1 X2] _].
  destruct (rne_bounds Y G HG) as [[Y1 Y2] _].
  assert (Hq : X / G <= Y / G) by (apply Z.div_le_mono; lia).
  destruct (Z.eq_dec (X / G) (Y / G)) as [E|E]; [|lia].
  pose proof (Z.div_mod X G ltac:(lia)) as DX.
  pose proof (Z.div_mod Y G ltac:(lia)) as DY.
  assert (Hr : X mod G <= Y mod G) by (rewrite E in DX; lia).
  unfold rne in *. rewrite E in *.
  destruct (Z.ltb_spec (2 * (X mod G)) G);
    destruct (Z.ltb_spec (2 * (Y mod G)) G);
    destruct (Z.ltb_spec G (2 * (X mod G)));
    destruct (Z.ltb_spec G (2 * (Y mod G)));
    destruct (Z.even (Y / G)); lia.
Qed.

(** Rounding does not cross a point of the grid. *)
Lemma rne_le_multiple (X G q : Z) :
  0 < G -> X <= q * G -> rne X G <= q.
Proof.
  intros HG H. rewrite <- (rne_multiple q G HG). now apply rne_mono.
Qed.

Lemma rne_ge_multiple (X G q : Z) :
  0 < G -> q * G <= X -> q <= rne X G.
Proof.
  intros HG H. rewrite <- (rne_multiple q G HG). now apply rne_mono.
Qed.

Section RoundValue.

Variables prec emax : Z.
Hypothesis Hprec : 0 < prec.
Hypothesis HK : - K <= emin prec emax.

Let G := grid prec emax.
Let R := RND prec emax.

Lemma grid_pos (X : Z) : 0 < grid prec emax X.
Proof.
  unfold grid. apply Z.pow_pos_nonneg; [lia|].
  pose proof (fexp_ge_emin prec emax (Z.log2 X + 1 - K)). lia.
Qed.

Lemma grid_mono (X Y : Z) :
  X <= Y -> exists k, 0 <= k /\ grid prec emax Y = grid prec emax X * 2 ^ k.
Proof.
  intros H. unfold grid.
  pose proof (Z.log2_le_mono X Y H) as Hl.
  pose proof (fexp_ge_emin prec emax (Z.log2 X + 1 - K)) as HX.
  set (eX := fexp prec emax (Z.log2 X + 1 - K)) in *.
  set (eY := fexp prec emax (Z.log2 Y + 1 - K)).
  assert (HXY : eX <= eY) by (unfold eX, eY, fexp; lia).
  exists (eY - eX). split; [lia|].
  rewrite <- Z.pow_add_r by lia. f_equal. lia.
Qed.

(** The error of rounding is at most half the spacing. *)
Lemma RND_error (X : Z) :
  2 * Z.abs (RND prec emax X - X) <= grid prec emax X.
Proof. unfold RND. apply rne_bounds, grid_pos. Qed.

(** A multiple of the spacing around it rounds to itself. *)
Lemma RND_exact (X : Z) :
  X mod grid prec emax X = 0 -> RND prec emax X = X.
Proof.
  intros H. unfold RND.
  destruct (rne_bounds X (grid prec emax X) (grid_pos X)) as (_ & _ & E).
  rewrite (E H).
  pose proof (Z.div_mod X (grid prec emax X)) as D.
  pose proof (grid_pos X). lia.
Qed.

(** The value of a number of the format is such a multiple. *)
Lemma RND_float (m : positive) (e : Z) :
  - K <= e ->
  bounded prec emax m e = true ->
  RND prec emax (Zpos m * 2 ^ (e + K)) = Zpos m * 2 ^ (e + K).
Proof.
  intros He Hb. apply RND_exact.
  rewrite grid_of_float by assumption.
  unfold bounded, canonical_mantissa in Hb.
  apply andb_true_iff in Hb. destruct Hb as [Hc _].
  apply Z.eqb_eq in Hc. rewrite digits2_pos_log2 in Hc. rewrite Hc.
  apply Z.mod_mul. apply Z.pow_nonzero; lia.
Qed.

Lemma RND_nonneg (X : Z) : 0 <= X -> 0 <= RND prec emax X.
Proof.
  intros H. unfold RND. pose proof (grid_pos X).
  assert (0 <= rne X (grid prec emax X)); [|nia].
  apply rne_ge_multiple; lia.
Qed.

(** Rounding is monotone. *)
Lemma RND_mono (X Y : Z) :
  0 < X -> X <= Y -> RND prec emax X <= RND prec emax Y.
Proof.
  intros HX HXY. unfold RND.
  pose proof (grid_pos X) as GX. pose proof (grid_pos Y) as GY.
  destruct (grid_mono X Y HXY) as (k & Hk & Ek).
  destruct (Z.eq_dec k 0) as [Z0|NZ].
  - (* the same spacing *)
    subst k. rewrite Z.pow_0_r, Z.mul_1_r in Ek. rewrite Ek.
    apply Z.mul_le_mono_nonneg_r; [lia|]. apply rne_mono; lia.
  - (* [Y] lies in a higher binade: the power of two at its foot
       separates the two roundings *)
    set (B := 2 ^ Z.log2 Y).
    assert (Hlog : Z.log2 X < Z.log2 Y).
    { destruct (Z.eq_dec (Z.log2 X) (Z.log2 Y)) as [E|E].
      - exfalso. unfold grid in Ek. rewrite E in Ek.
        assert (P : 1 < 2 ^ k) by (apply Z.pow_gt_1; lia).
        unfold grid in GY. nia.
      - pose proof (Z.log2_le_mono X Y HXY). lia. }
    assert (HXB : X < B).
    { unfold B. apply Z.lt_le_trans with (2 ^ (Z.succ (Z.log2 X))).
      - apply Z.log2_spec. lia.
      - apply Z.pow_le_mono_r; lia. }
    assert (HBY : B <= Y) by (unfold B; apply Z.log2_spec; lia).
    assert (HeY : fexp prec emax (Z.log2 Y + 1 - K) + K <= Z.log2 Y).
    { assert (fexp prec emax (Z.log2 X + 1 - K) < fexp prec emax (Z.log2 Y + 1 - K)).
      { unfold grid in Ek.
        destruct (Z.lt_ge_cases (fexp prec emax (Z.log2 X + 1 - K))
                                (fexp prec emax (Z.log2 Y + 1 - K))) as [L|L];
          [exact L|].
        exfalso.
        assert (P : 1 < 2 ^ k) by (apply Z.pow_gt_1; lia).
        assert (Q : 2 ^ (fexp prec emax (Z.log2 Y + 1 - K) + K)
                    <= 2 ^ (fexp prec emax (Z.log2 X + 1 - K) + K))
          by (apply Z.pow_le_mono_r; lia).
        unfold grid in GX. nia. }
      pose proof (fexp_ge_emin prec emax (Z.log2 X + 1 - K)).
      unfold fexp in *. lia. }
    assert (BY : exists qY, B = qY * grid prec emax Y).
    { exists (2 ^ (Z.log2 Y - (fexp prec emax (Z.log2 Y + 1 - K) + K))).
      unfold B, grid. rewrite <- Z.pow_add_r.
      - f_equal. lia.
      - lia.
      - pose proof (fexp_ge_emin prec emax (Z.log2 Y + 1 - K)). lia. }
    destruct BY as (qY & EY).
    assert (BX : B = (qY * 2 ^ k) * grid prec emax X) by (rewrite EY, Ek; ring).
    apply Z.le_trans with B.
    + rewrite BX. apply Z.mul_le_mono_nonneg_r; [lia|].
      apply rne_le_multiple; lia.
    + rewrite EY. apply Z.mul_le_mono_nonneg_r; [lia|].
      apply rne_ge_multiple; lia.
Qed.

End RoundValue.

Section Ops.

Variables prec emax : Z.
Hypothesis Hprec : 0 < prec.
Hypothesis Hemax : 2 <= emax.
Hypothesis HK : - K <= emin prec emax.

Lemma bounded_inv (m : positive) (e : Z) :
  bounded prec emax m e = true ->
  fexp prec emax (Z.log2 (Zpos m) + 1 + e) = e /\ e <= emax - prec /\ - K <= e.
Proof.
  unfold bounded, canonical_mantissa. intros H.
  apply andb_true_iff in H. destruct H as [H1 H2].
  apply Z.eqb_eq in H1. apply Z.leb_le in H2.
  rewrite digits2_pos_log2 in H1.
  pose proof (fexp_ge_emin prec emax (Z.log2 (Zpos m) + 1 + e)).
  repeat split; lia.
Qed.

(** Among the numbers of a format a smaller exponent means a smaller
    magnitude. *)
Lemma bounded_lt (m1 m2 : positive) (e1 e2 : Z) :
  bounded prec emax m1 e1 = true ->
  bounded prec emax m2 e2 = true ->
  e1 < e2 ->
  Zpos m1 * 2 ^ (e1 + K) < Zpos m2 * 2 ^ (e2 + K).
Proof.
  intros B1 B2 L.
  destruct (bounded_inv _ _ B1) as (C1 & _ & K1).
  destruct (bounded_inv _ _ B2) as (C2 & _ & K2).
  pose proof (log2_bounds m1) as [_ U1].
  pose proof (log2_bounds m2) as [L2 _].
  pose proof (Z.log2_nonneg (Zpos m1)).
  pose proof (Z.log2_nonneg (Zpos m2)).
  unfold fexp in C1, C2.
  pose proof (fexp_ge_emin prec emax (Z.log2 (Zpos m1) + 1 + e1)) as G1.
  unfold fexp in G1.
  assert (E2 : Z.log2 (Zpos m2) = prec - 1) by lia.
  assert (E1 : Z.log2 (Zpos m1) + 1 <= prec) by lia.
  rewrite E2 in L2.
  assert (P1 : 0 < 2 ^ (e1 + K)) by (apply Z.pow_pos_nonneg; lia).
  assert (P2 : 0 < 2 ^ (e2 + K)) by (apply Z.pow_pos_nonneg; lia).
  apply Z.lt_le_trans with (2 ^ (prec - 1) * 2 ^ (e2 + K)); [|nia].
  apply Z.lt_le_trans with (2 ^ (Z.log2 (Zpos m1) + 1) * 2 ^ (e1 + K)); [nia|].
  rewrite <- !Z.pow_add_r by lia. apply Z.pow_le_mono_r; lia.
Qed.

Lemma compare_pos (m1 m2 : positive) (e1 e2 : Z) :
  bounded prec emax m1 e1 = true ->
  bounded prec emax m2 e2 = true ->
  match e1 ?= e2 with
  | Lt => Lt
  | Gt => Gt
  | Eq => Pos.compare_cont Eq m1 m2
  end = (Zpos m1 * 2 ^ (e1 + K) ?= Zpos m2 * 2 ^ (e2 + K)).
Proof.
  intros B1 B2. symmetry.
  destruct (Z.compare_spec e1 e2) as [E|L|L].
  - subst e2. destruct (bounded_inv _ _ B1) as (_ & _ & K1).
    assert (P : 0 < 2 ^ (e1 + K)) by (apply Z.pow_pos_nonneg; lia).
    rewrite Pos.compare_cont_spec. cbn [Pos.switch_Eq].
    change (m1 ?= m2)%positive with (Zpos m1 ?= Zpos m2).
    destruct (Z.compare_spec (Zpos m1) (Zpos m2)) as [E|L|L];
      [apply Z.compare_eq_iff | apply Z.compare_lt_iff | apply Z.compare_gt_iff];
      nia.
  - apply Z.compare_lt_iff. now apply bounded_lt.
  - apply Z.compare_gt_iff. now apply bounded_lt.
Qed.

(** On the numbers of a format the comparison of IEEE is the comparison
    of the values. *)
Lemma SFcompare_val (x y : spec_float) (sx sy : bool) :
  valid_binary prec emax x = true -> valid_binary prec emax y = true ->
  fin_sign sx x -> fin_sign sy y ->
  SFcompare x y = Some (val x ?= val y).
Proof.
  intros Vx Vy Fx Fy.
  destruct x as [s1|s1| |s1 m1 e1], y as [s2|s2| |s2 m2 e2];
    try contradiction; cbn [SFcompare val valid_binary] in *.
  - reflexivity.
  - destruct (bounded_inv _ _ Vy) as (_ & _ & K2).
    assert (P : 0 < Zpos m2 * 2 ^ (e2 + K))
      by (apply Z.mul_pos_pos; [lia | apply Z.pow_pos_nonneg; lia]).
    destruct s2; cbn [cond_Zopp]; f_equal; symmetry;
      [apply Z.compare_gt_iff | apply Z.compare_lt_iff]; lia.
  - destruct (bounded_inv _ _ Vx) as (_ & _ & K1).
    assert (P : 0 < Zpos m1 * 2 ^ (e1 + K))
      by (apply Z.mul_pos_pos; [lia | apply Z.pow_pos_nonneg; lia]).
    destruct s1; cbn [cond_Zopp]; f_equal; symmetry;
      [apply Z.compare_lt_iff | apply Z.compare_gt_iff]; lia.
  - destruct (bounded_inv _ _ Vx) as (_ & _ & K1).
    destruct (bounded_inv _ _ Vy) as (_ & _ & K2).
    assert (P1 : 0 < Zpos m1 * 2 ^ (e1 + K))
      by (apply Z.mul_pos_pos; [lia | apply Z.pow_pos_nonneg; lia]).
    assert (P2 : 0 < Zpos m2 * 2 ^ (e2 + K))
      by (apply Z.mul_pos_pos; [lia | apply Z.pow_pos_nonneg; lia]).
    f_equal. destruct s1, s2; cbn [cond_Zopp].
    + rewrite Z.compare_opp, (Z.compare_antisym (Zpos m1 * 2 ^ (e1 + K))).
      rewrite <- (compare_pos m1 m2 e1 e2 Vx Vy).
      destruct (e1 ?= e2); reflexivity.
    + symmetry. apply Z.compare_lt_iff. lia.
    + symmetry. apply Z.compare_gt_iff. lia.
    + apply compare_pos; assumption.
Qed.

(** A number of a format is determined by its sign and its value. *)
Lemma val_inj (x y : spec_float) (s : bool) :
  valid_binary prec emax x = true -> valid_binary prec emax y = true ->
  fin_sign s x -> fin_sign s y ->
  val x = val y -> x = y.
Proof.
  intros Vx Vy Fx Fy E.
  destruct x as [s1|s1| |s1 m1 e1], y as [s2|s2| |s2 m2 e2];
    try contradiction; cbn [val valid_binary fin_sign] in *.
  - congruence.
  - exfalso. destruct (bounded_inv _ _ Vy) as (_ & _ & K2).
    assert (P : 0 < Zpos m2 * 2 ^ (e2 + K))
      by (apply Z.mul_pos_pos; [lia | apply Z.pow_pos_nonneg; lia]).
    destruct s2; cbn [cond_Zopp] in E; lia.
  - exfalso. destruct (bounded_inv _ _ Vx) as (_ & _ & K1).
    assert (P : 0 < Zpos m1 * 2 ^ (e1 + K))
      by (apply Z.mul_pos_pos; [lia | apply Z.pow_pos_nonneg; lia]).
    destruct s1; cbn [cond_Zopp] in E; lia.
  - destruct Fx as [-> _], Fy as [-> _].
    assert (E' : Zpos m1 * 2 ^ (e1 + K) = Zpos m2 * 2 ^ (e2 + K))
      by (destruct s; cbn [cond_Zopp] in E; lia).
    destruct (Z.lt_trichotomy e1 e2) as [L|[L|L]].
    + pose proof (bounded_lt _ _ _ _ Vx Vy L). lia.
    + subst e2. destruct (bounded_inv _ _ Vx) as (_ & _ & K1).
      assert (P : 0 < 2 ^ (e1 + K)) by (apply Z.pow_pos_nonneg; lia).
      assert (Zpos m1 = Zpos m2) by nia. congruence.
    + pose proof (bounded_lt _ _ _ _ Vy Vx L). lia.
Qed.

Lemma RND_zero : RND prec emax 0 = 0.
Proof.
  unfold RND.
  assert (E : rne 0 (grid prec emax 0) = 0)
    by exact (rne_multiple 0 _ (grid_pos prec emax HK 0)).
  rewrite E. reflexivity.
Qed.

Lemma val_nonneg (x : spec_float) : fin_sign false x -> 0 <= val x.
Proof.
  destruct x as [s|s| |s m e]; cbn [val fin_sign]; try lia.
  intros [-> He]. cbn [cond_Zopp].
  apply Z.mul_nonneg_nonneg; [lia | apply Z.pow_nonneg; lia].
Qed.

(** A non-negative value below [2 ^ (emax - 1)] does not overflow. *)
Lemma no_overflow (m : positive) (e : Z) :
  - K <= e ->
  Zpos m * 2 ^ (e + K) < 2 ^ (emax - 1 + K) ->
  Z.log2 (Zpos m) + 1 + e < emax.
Proof.
  intros He H.
  assert (P : 0 < Zpos m * 2 ^ (e + K))
    by (apply Z.mul_pos_pos; [lia | apply Z.pow_pos_nonneg; lia]).
  apply Z.log2_lt_pow2 in H; [|exact P].
  rewrite log2_mul_pow2' in H by lia. lia.
Qed.

(** Conversion of a non-negative number to the format. *)
Lemma round_to_spec (x : spec_float) :
  fin_sign false x ->
  val x < 2 ^ (emax - 1 + K) ->
  let r := IEEE.round_to prec emax x in
  fin_sign false r /\
  valid_binary prec emax r = true /\
  val r = RND prec emax (val x).
Proof.
  destruct x as [s|s| |s m e]; try contradiction; cbn [fin_sign val IEEE.round_to].
  - intros -> _. rewrite RND_zero. cbn [fin_sign valid_binary val]. auto.
  - intros [-> He] Hov. cbn [cond_Zopp] in Hov.
    apply (binary_round_spec prec emax Hprec Hemax HK false m e He).
    now apply no_overflow.
Qed.

(** Addition of two non-negative numbers of the format. *)
Lemma SFadd_nonneg (x y : spec_float) :
  valid_binary prec emax x = true -> valid_binary prec emax y = true ->
  fin_sign false x -> fin_sign false y ->
  val x + val y < 2 ^ (emax - 1 + K) ->
  let r := SFadd prec emax x y in
  fin_sign false r /\
  valid_binary prec emax r = true /\
  val r = RND prec emax (val x + val y).
Proof.
  intros Vx Vy Fx Fy Hov.
  destruct x as [sx|sx| |sx mx ex], y as [sy|sy| |sy my ey];
    try contradiction; cbn [fin_sign val valid_binary SFadd] in *.
  - subst sx sy. change (0 + 0) with 0. rewrite RND_zero.
    cbn [fin_sign valid_binary val]. auto.
  - destruct Fy as [-> He]. cbn [cond_Zopp]. rewrite Z.add_0_l.
    rewrite (RND_float prec emax HK my ey He Vy). cbn [fin_sign valid_binary val cond_Zopp]. auto.
  - destruct Fx as [-> He]. cbn [cond_Zopp]. rewrite Z.add_0_r.
    rewrite (RND_float prec emax HK mx ex He Vx). cbn [fin_sign valid_binary val cond_Zopp]. auto.
  - destruct Fx as [-> Hx], Fy as [-> Hy]. cbn [cond_Zopp] in *.
    set (ez := Z.min ex ey).
    destruct (shl_align_spec mx ex ez ltac:(lia)) as [_ Ex].
    destruct (shl_align_spec my ey ez ltac:(lia)) as [_ Ey].
    rewrite Ex, Ey.
    assert (PX : 0 < 2 ^ (ex - ez)) by (apply Z.pow_pos_nonneg; lia).
    assert (PY : 0 < 2 ^ (ey - ez)) by (apply Z.pow_pos_nonneg; lia).
    destruct (Zpos mx * 2 ^ (ex - ez) + Zpos my * 2 ^ (ey - ez)) as [|p|p] eqn:Ep;
      try lia.
    cbn [binary_normalize].
    assert (Ev : Zpos p * 2 ^ (ez + K)
                 = Zpos mx * 2 ^ (ex + K) + Zpos my * 2 ^ (ey + K)).
    { rewrite <- Ep, Z.mul_add_distr_r, <- !Z.mul_assoc.
      rewrite <- !Z.pow_add_r by lia.
      replace (ex - ez + (ez + K)) with (ex + K) by lia.
      replace (ey - ez + (ez + K)) with (ey + K) by lia. reflexivity. }
    rewrite <- Ev.
    apply (binary_round_spec prec emax Hprec Hemax HK false p ez ltac:(lia)).
    apply no_overflow; [lia|]. rewrite Ev. exact Hov.
Qed.

(** Subtraction of a smaller non-negative number. *)
Lemma SFsub_pos (x y : spec_float) :
  valid_binary prec emax x = true -> valid_binary prec emax y = true ->
  fin_sign false x -> fin_sign false y ->
  val y < val x ->
  val x < 2 ^ (emax - 1 + K) ->
  let r := SFsub prec emax x y in
  fin_sign false r /\
  valid_binary prec emax r = true /\
  val r = RND prec emax (val x - val y).
Proof.
  intros Vx Vy Fx Fy Hlt Hov.
  pose proof (val_nonneg y Fy) as Hy0.
  destruct x as [sx|sx| |sx mx ex], y as [sy|sy| |sy my ey];
    try contradiction; cbn [fin_sign val valid_binary SFsub] in *; try lia.
  - destruct Fx as [-> He]. cbn [cond_Zopp]. rewrite Z.sub_0_r.
    rewrite (RND_float prec emax HK mx ex He Vx). cbn [fin_sign valid_binary val cond_Zopp]. auto.
  - destruct Fx as [-> Hx], Fy as [-> Hy]. cbn [cond_Zopp] in *.
    set (ez := Z.min ex ey).
    destruct (shl_align_spec mx ex ez ltac:(lia)) as [_ Ex].
    destruct (shl_align_spec my ey ez ltac:(lia)) as [_ Ey].
    rewrite Ex, Ey.
    assert (PZ : 0 < 2 ^ (ez + K)) by (apply Z.pow_pos_nonneg; lia).
    assert (Ev : (Zpos mx * 2 ^ (ex - ez) - Zpos my * 2 ^ (ey - ez)) * 2 ^ (ez + K)
                 = Zpos mx * 2 ^ (ex + K) - Zpos my * 2 ^ (ey + K)).
    { rewrite Z.mul_sub_distr_r, <- !Z.mul_assoc.
      rewrite <- !Z.pow_add_r by lia.
      replace (ex - ez + (ez + K)) with (ex + K) by lia.
      replace (ey - ez + (ez + K)) with (ey + K) by lia. reflexivity. }
    destruct (Zpos mx * 2 ^ (ex - ez) - Zpos my * 2 ^ (ey - ez)) as [|p|p] eqn:Ep;
      try nia.
    cbn [binary_normalize]. rewrite <- Ev.
    apply (binary_round_spec prec emax Hprec Hemax HK false p ez ltac:(lia)).
    apply no_overflow; [lia|]. rewrite Ev. lia.
Qed.

End Ops.

(** The two formats satisfy the assumptions of the rounding lemmas. *)
Lemma F32_prec : 0 < F32.prec. Proof. reflexivity. Qed.
Lemma F32_emax : 2 <= F32.emax. Proof. discriminate. Qed.
Lemma F32_K : - K <= emin F32.prec F32.emax. Proof. discriminate. Qed.
Lemma F64_prec : 0 < F64.prec. Proof. reflexivity. Qed.
Lemma F64_emax : 2 <= F64.emax. Proof. discriminate. Qed.
Lemma F64_K : - K <= emin F64.prec F64.emax. Proof. discriminate. Qed.

Lemma U_pos : 0 < U.
Proof. unfold U. apply Z.pow_pos_nonneg; [lia | discriminate]. Qed.

Lemma K_nonneg : 0 <= K. Proof. discriminate. Qed.

Section Exact.

Variables prec emax : Z.
Hypothesis Hprec : 0 < prec.
Hypothesis HK : - K <= emin prec emax.

(** A multiple of [2 ^ a] with fewer than [prec] digits above [a] is a
    number of the format. *)
Lemma RND_exact_at (X a : Z) :
  0 < X -> emin prec emax <= a ->
  X mod 2 ^ (a + K) = 0 ->
  X < 2 ^ (a + K + prec) ->
  RND prec emax X = X.
Proof.
  intros HX Ha Hm Hlt. apply RND_exact; try assumption.
  unfold grid.
  assert (Hl : Z.log2 X < a + K + prec) by (apply Z.log2_lt_pow2; lia).
  set (g := fexp prec emax (Z.log2 X + 1 - K)).
  assert (Hg : emin prec emax <= g <= a) by (unfold g, fexp; lia).
  apply Z.mod_divide in Hm; [|apply Z.pow_nonzero; lia].
  apply Z.mod_divide; [apply Z.pow_nonzero; lia|].
  apply Z.divide_trans with (2 ^ (a + K)); [|exact Hm].
  exists (2 ^ (a - g)). rewrite <- Z.pow_add_r by lia. f_equal. lia.
Qed.

Lemma RND_pow2 (k : Z) :
  emin prec emax <= k -> RND prec emax (2 ^ (k + K)) = 2 ^ (k + K).
Proof.
  intros Hk.
  assert (P : 0 < 2 ^ (k + K)) by (apply Z.pow_pos_nonneg; lia).
  apply (RND_exact_at _ k); try assumption.
  - apply Z.mod_same. lia.
  - apply Z.pow_lt_mono_r; lia.
Qed.

Lemma RND_le_pow2 (X k : Z) :
  0 < X -> emin prec emax <= k -> X <= 2 ^ (k + K) ->
  RND prec emax X <= 2 ^ (k + K).
Proof.
  intros HX Hk H. rewrite <- (RND_pow2 k Hk).
  apply RND_mono; try assumption.
Qed.

(** The error of rounding a value below [2 ^ k]. *)
Lemma RND_error_below (X k : Z) :
  0 < X -> emin prec emax <= k - prec -> X < 2 ^ (k + K) ->
  2 * Z.abs (RND prec emax X - X) <= 2 ^ (k - prec + K).
Proof.
  intros HX Hk H.
  apply Z.le_trans with (grid prec emax X); [apply RND_error; try assumption|].
  unfold grid. apply Z.pow_le_mono_r; [lia|].
  assert (Hl : Z.log2 X < k + K) by (apply Z.log2_lt_pow2; lia).
  unfold fexp. lia.
Qed.

End Exact.

(** ** [(long)t] and [fmod(t, 1.0)] by value *)

Lemma trunc_val (t : spec_float) :
  fin_sign false t -> trunc t = Some (val t / U).
Proof.
  destruct t as [s|s| |s m e]; try contradiction; cbn [fin_sign trunc val].
  - intros _. rewrite Z.div_0_l; [reflexivity | pose proof U_pos; lia].
  - intros [-> He]. cbn [cond_Zopp]. f_equal. unfold U.
    destruct (Z.lt_ge_cases e 0) as [L|L].
    + rewrite Z.shiftl_div_pow2 by lia.
      replace K with (- e + (e + K)) at 2 by lia.
      rewrite (Z.pow_add_r 2 (- e) (e + K)) by lia.
      rewrite Z.div_mul_cancel_r; [reflexivity| |]; apply Z.pow_nonzero; lia.
    + rewrite Z.shiftl_mul_pow2 by lia.
      rewrite (Z.pow_add_r 2 e K), Z.mul_assoc by (lia || discriminate).
      rewrite Z.div_mul; [reflexivity|]. apply Z.pow_nonzero; [lia|discriminate].
Qed.

Lemma bounded_mantissa (prec emax : Z) (m : positive) (e : Z) :
  bounded prec emax m e = true -> Zpos m < 2 ^ prec.
Proof.
  intros H. unfold bounded, canonical_mantissa in H.
  apply andb_true_iff in H. destruct H as [H _]. apply Z.eqb_eq in H.
  rewrite digits2_pos_log2 in H. unfold fexp in H.
  pose proof (log2_bounds m) as [_ Hu].
  pose proof (Z.log2_nonneg (Zpos m)).
  apply Z.lt_le_trans with (2 ^ (Z.log2 (Zpos m) + 1)); [exact Hu|].
  apply Z.pow_le_mono_r; lia.
Qed.

(** [fmod(t, 1.0)] of a non-negative [t] is its fractional part, a
    number of the format again. *)
Lemma fmod_one (t : double) :
  F64.valid t = true -> fin_sign false t ->
  fin_sign false (fmod t d_1) /\
  F64.valid (fmod t d_1) = true /\
  val (fmod t d_1) = val t mod U.
Proof.
  intros Vt Ft. rewrite d_1_bits.
  destruct t as [s|s| |s m e]; try contradiction; cbn [fmod fin_sign val] in *.
  - subst s. rewrite Z.mod_0_l by (pose proof U_pos; lia).
    cbn [fin_sign val]. auto.
  - destruct Ft as [-> He]. cbn [cond_Zopp].
    unfold F64.valid in Vt. cbn [valid_binary] in Vt.
    pose proof (bounded_mantissa _ _ _ _ Vt) as Hm.
    set (e' := Z.min e (-52)).
    assert (He' : - K <= e') by (unfold e', K in *; lia).
    set (c := 2 ^ (e' + K)).
    assert (Hc : 0 < c) by (apply Z.pow_pos_nonneg; lia).
    set (X := Zpos m * 2 ^ (e - e')).
    set (Y := Zpos 4503599627370496 * 2 ^ (-52 - e')).
    assert (EX : X * c = Zpos m * 2 ^ (e + K)).
    { unfold X, c. rewrite <- Z.mul_assoc, <- Z.pow_add_r by lia.
      f_equal. f_equal. lia. }
    assert (EY : Y * c = U).
    { unfold Y, c, U. change (Zpos 4503599627370496) with (2 ^ 52).
      rewrite <- !Z.pow_add_r by lia. f_equal. lia. }
    assert (HY : 0 < Y) by (unfold Y; apply Z.mul_pos_pos; [lia | apply Z.pow_pos_nonneg; lia]).
    pose proof (Z.mod_pos_bound X Y HY) as HR.
    assert (ER : (X mod Y) * c = (Zpos m * 2 ^ (e + K)) mod U).
    { rewrite <- EX, <- EY. rewrite Z.mul_mod_distr_r by lia. reflexivity. }
    destruct (X mod Y) as [|p|p] eqn:Ep; try lia.
    + cbn [binary_normalize fin_sign val]. rewrite <- ER. auto.
    + cbn [binary_normalize].
      assert (Hlt : Zpos p * c < U) by (rewrite <- EY; nia).
      destruct (binary_round_spec F64.prec F64.emax F64_prec F64_emax F64_K
                  false p e' He') as (F & V & E).
      { apply (no_overflow F64.emax); [exact He'|].
        fold c. apply Z.lt_le_trans with U; [exact Hlt|].
        unfold U. apply Z.pow_le_mono_r; [lia | unfold F64.emax, K; lia]. }
      split; [exact F|]. split; [exact V|].
      rewrite E. cbn [cond_Zopp]. fold c. rewrite <- ER.
      (* the fractional part is a number of the format *)
      destruct (Z.lt_ge_cases e 0) as [L|L].
      * apply (RND_exact_at F64.prec F64.emax F64_prec F64_K _ e).
        -- lia.
        -- unfold emin, F64.prec, F64.emax, K in *. lia.
        -- rewrite ER.
           replace U with (2 ^ (- e) * 2 ^ (e + K))
             by (unfold U; rewrite <- Z.pow_add_r by lia; f_equal; lia).
           rewrite Z.mul_mod_distr_r by (apply Z.pow_nonzero; lia).
           apply Z.mod_mul. apply Z.pow_nonzero; lia.
        -- rewrite ER.
           assert (P : 0 < 2 ^ (e + K)) by (apply Z.pow_pos_nonneg; lia).
           apply Z.le_lt_trans with (Zpos m * 2 ^ (e + K)).
           ++ apply Z.mod_le; [lia | pose proof U_pos; lia].
           ++ replace (e + K + F64.prec) with (F64.prec + (e + K)) by lia.
              rewrite (Z.pow_add_r 2 F64.prec (e + K)) by (unfold F64.prec; lia). nia.
      * exfalso.
        assert (Z0 : (Zpos m * 2 ^ (e + K)) mod U = 0).
        { unfold U. rewrite (Z.pow_add_r 2 e K) by (lia || discriminate).
          rewrite Z.mul_assoc. apply Z.mod_mul. apply Z.pow_nonzero; [lia|discriminate]. }
        rewrite Z0 in ER. nia.
Qed.

Lemma bounded32_inv (m : positive) (e : Z) :
  bounded F32.prec F32.emax m e = true ->
  -149 <= e <= 104 /\ Z.log2 (Zpos m) + 1 <= 24 /\
  fexp F32.prec F32.emax (Z.log2 (Zpos m) + 1 + e) = e.
Proof.
  intros H. destruct (bounded_inv _ _ F32_K _ _ H) as (C & L & _).
  pose proof (Z.log2_nonneg (Zpos m)).
  unfold fexp, emin, F32.prec, F32.emax in *. repeat split; lia.
Qed.

(** [(double)x] is exact. *)
Lemma double_of_float_spec (x : float) (s : bool) :
  F32.valid x = true -> fin_sign s x ->
  fin_sign s (double_of_float x) /\
  F64.valid (double_of_float x) = true /\
  val (double_of_float x) = val x.
Proof.
  intros V F. destruct x as [s'|s'| |s' m e]; try contradiction.
  - cbn. auto.
  - destruct F as [-> He]. unfold F32.valid in V. cbn [valid_binary] in V.
    destruct (bounded32_inv _ _ V) as (Be & Bl & _).
    apply (binary_round_exact F64.prec F64.emax F64_prec F64_emax F64_K s m e);
      unfold emin, F64.prec, F64.emax, K in *; lia.
Qed.

(** [(float)d] of a value that is a [float] is that [float]. *)
Lemma float_of_double_exact (d : double) (x : float) (s : bool) :
  F32.valid x = true -> fin_sign s x -> fin_sign s d ->
  val d = val x ->
  float_of_double d = x.
Proof.
  intros V Fx Fd E.
  destruct d as [sd|sd| |sd m' e']; try contradiction.
  - (* zero *)
    cbn [fin_sign] in Fd. subst sd. cbn [float_of_double IEEE.round_to].
    unfold float_of_double. cbn [IEEE.round_to].
    apply (val_inj F32.prec F32.emax F32_prec F32_emax F32_K _ _ s);
      try assumption; reflexivity.
  - destruct Fd as [-> He']. cbn [val] in E.
    assert (P' : 0 < Zpos m' * 2 ^ (e' + K))
      by (apply Z.mul_pos_pos; [lia | apply Z.pow_pos_nonneg; lia]).
    destruct x as [sx|sx| |sx m e]; try contradiction;
      cbn [val fin_sign] in *;
      [exfalso; destruct s; cbn [cond_Zopp] in E; lia|].
    destruct Fx as [-> He]. unfold F32.valid in V. cbn [valid_binary] in V.
    destruct (bounded32_inv _ _ V) as (Be & Bl & Bc).
    assert (E' : Zpos m' * 2 ^ (e' + K) = Zpos m * 2 ^ (e + K))
      by (destruct s; cbn [cond_Zopp] in E; lia).
    assert (El : Z.log2 (Zpos m') + e' = Z.log2 (Zpos m) + e).
    { pose proof (f_equal Z.log2 E') as H.
      rewrite !log2_mul_pow2' in H by lia. lia. }
    assert (ER : RND F32.prec F32.emax (Zpos m' * 2 ^ (e' + K))
                 = Zpos m * 2 ^ (e + K)).
    { rewrite E'. apply (RND_float F32.prec F32.emax F32_K); assumption. }
    unfold float_of_double. cbn [IEEE.round_to].
    destruct (binary_round_spec_gen F32.prec F32.emax F32_prec F32_emax F32_K
                s m' e' He') as (F & V' & Ev).
    + unfold F32.emax. lia.
    + intros C. exfalso.
      pose proof (rounded_mantissa_RND F32.prec F32.emax F32_K m' e' He') as R.
      cbv zeta in R. rewrite ER, C in R.
      replace (Z.log2 (Zpos m') + 1 + e') with (Z.log2 (Zpos m) + 1 + e) in R by lia.
      rewrite Bc in R.
      assert (P : 0 < 2 ^ (e + K)) by (apply Z.pow_pos_nonneg; lia).
      pose proof (bounded_mantissa _ _ _ _ V). nia.
    + apply (val_inj F32.prec F32.emax F32_prec F32_emax F32_K _ _ s);
        try assumption.
      * cbn [fin_sign]. split; [reflexivity | lia].
      * rewrite Ev, ER. reflexivity.
Qed.

(** A [float] survives the conversion to [double] and back. *)
Lemma float_roundtrip (x : float) :
  F32.valid x = true -> float_of_double (double_of_float x) = x.
Proof.
  intros V. destruct x as [s|s| |s m e]; try reflexivity.
  assert (F : fin_sign s (S754_finite s m e)).
  { cbn. split; [reflexivity|].
    destruct (bounded32_inv _ _ V) as (Be & _). unfold K. lia. }
  destruct (double_of_float_spec _ s V F) as (Fd & _ & Ed).
  now apply (float_of_double_exact _ _ s).
Qed.

(** [palette[i] += d] for non-negative operands whose sum is at most
    [2 ^ k]: the sum is rounded to [double] and then to [float]. *)
Lemma boost_spec (c : float) (d : double) (k : Z) :
  F32.valid c = true -> fin_sign false c ->
  F64.valid d = true -> fin_sign false d ->
  0 <= k <= 126 ->
  val c + val d <= 2 ^ (k + K) ->
  fin_sign false (boost c d) /\
  F32.valid (boost c d) = true /\
  val (boost c d) = RND F32.prec F32.emax (RND F64.prec F64.emax (val c + val d)).
Proof.
  intros Vc Fc Vd Fd Hk Hle.
  destruct (double_of_float_spec c false Vc Fc) as (F1 & V1 & E1).
  assert (P : 2 ^ (k + K) < 2 ^ (F32.emax - 1 + K))
    by (apply Z.pow_lt_mono_r; unfold F32.emax, K; lia).
  assert (P' : 2 ^ (F32.emax - 1 + K) < 2 ^ (F64.emax - 1 + K))
    by (apply Z.pow_lt_mono_r; unfold F32.emax, F64.emax, K; lia).
  destruct (SFadd_nonneg F64.prec F64.emax F64_prec F64_emax F64_K
              (double_of_float c) d V1 Vd F1 Fd) as (F2 & V2 & E2).
  { rewrite E1. lia. }
  rewrite E1 in E2.
  pose proof (val_nonneg c Fc) as N1. pose proof (val_nonneg d Fd) as N2.
  assert (B : RND F64.prec F64.emax (val c + val d) <= 2 ^ (k + K)).
  { destruct (Z.eq_dec (val c + val d) 0) as [Z0|NZ].
    - rewrite Z0, (RND_zero _ _ F64_K). apply Z.pow_nonneg. lia.
    - apply (RND_le_pow2 F64.prec F64.emax F64_prec F64_K); try lia.
      unfold emin, F64.prec, F64.emax. lia. }
  unfold boost.
  destruct (round_to_spec F32.prec F32.emax F32_prec F32_emax F32_K _ F2)
    as (F3 & V3 & E3).
  { rewrite E2. lia. }
  unfold float_of_double, F64.add. rewrite E3, E2. auto.
Qed.

Lemma d_2p63_bits : d_2p63 = S754_finite false 4503599627370496 11.
Proof. vm_compute. reflexivity. Qed.

Lemma time_arg_of_compare (t : double) :
  F64.valid t = true -> SFleb d_0 t = true -> SFltb t d_2p63 = true ->
  t <> S754_zero true -> time_arg t.
Proof.
  intros V H0 H1 Hz.
  assert (F : fin_sign false t).
  { rewrite d_0_bits in H0. rewrite d_2p63_bits in H1.
    unfold SFleb, SFltb in H0, H1.
    destruct t as [s|s| |s m e]; cbn [SFcompare] in H0, H1; try discriminate.
    - destruct s; [contradiction | reflexivity].
    - destruct s; discriminate.
    - destruct s; [discriminate|]. split; [reflexivity|].
      apply (bounded_inv _ _ F64_K _ _ V). }
  split; [exact V|]. split; [exact F|].
  unfold SFltb in H1.
  rewrite (SFcompare_val F64.prec F64.emax F64_prec F64_emax F64_K
             t d_2p63 false false V eq_refl F) in H1
    by (rewrite d_2p63_bits; split; [reflexivity | discriminate]).
  destruct (Z.compare_spec (val t) (val d_2p63)) as [E|L|L]; try discriminate.
  replace (2 ^ 63 * U) with (val d_2p63); [exact L|].
  vm_compute. reflexivity.
Qed.

Lemma long_succ_ok (t : double) :
  time_arg t -> 0 <= val t / U /\ val t / U + 1 <= LONG_MAX.
Proof.
  intros (V & F & B). pose proof U_pos as HU.
  pose proof (val_nonneg t F) as N.
  split; [apply Z.div_pos; lia|].
  destruct t as [s|s| |s m e]; try contradiction; cbn [val] in *.
  - rewrite Z.div_0_l by lia. unfold LONG_MAX. lia.
  - destruct F as [-> He]. cbn [cond_Zopp] in *.
    unfold F64.valid in V. cbn [valid_binary] in V.
    pose proof (bounded_mantissa _ _ _ _ V) as Hm. unfold F64.prec in Hm.
    destruct (Z.le_gt_cases e 0) as [L|L].
    + assert (Zpos m * 2 ^ (e + K) / U <= Zpos m).
      { apply Z.div_le_upper_bound; [lia|]. unfold U.
        assert (2 ^ (e + K) <= 2 ^ K) by (apply Z.pow_le_mono_r; lia).
        nia. }
      unfold LONG_MAX. lia.
    + assert (E : Zpos m * 2 ^ (e + K) = (2 * (Zpos m * 2 ^ (e - 1))) * U).
      { unfold U. replace (e + K) with (Z.succ (e - 1) + K) by lia.
        rewrite (Z.pow_add_r 2 (Z.succ (e - 1)) K) by (lia || discriminate).
        rewrite Z.pow_succ_r by lia. ring. }
      rewrite E, Z.div_mul by lia.
      rewrite E in B. unfold LONG_MAX.
      assert (2 * (Zpos m * 2 ^ (e - 1)) < 2 ^ 63) by nia. lia.
Qed.

Lemma d_1_of_float : double_of_float f_1 = d_1.
Proof. reflexivity. Qed.

(** The result of [call_rainbow]'s body on a time it can take. *)
Lemma rainbow_palette_rotate (t : double) (c : float) :
  time_arg t ->
  rainbow_palette t c
  = Some (rotate (val t / U) (boost c (fading t)) (boost c (fmod t d_1)) c).
Proof.
  intros T. destruct (long_succ_ok t T) as [N0 N1].
  destruct T as (V & F & B).
  unfold rainbow_palette, to_long. rewrite (trunc_val t F).
  set (n := val t / U) in *.
  assert (I0 : in_long n = true).
  { unfold in_long, LONG_MIN, LONG_MAX in *.
    apply andb_true_iff. split; apply Z.leb_le; lia. }
  assert (I1 : in_long (n + 1) = true).
  { unfold in_long, LONG_MIN, LONG_MAX in *.
    apply andb_true_iff. split; apply Z.leb_le; lia. }
  rewrite I0. cbn [bind]. unfold index3.
  rewrite Z.add_0_r, I0, I1. cbn [bind].
  rewrite !Z.rem_mod_nonneg by lia.
  fold (fading t). unfold rotate.
  pose proof (Z.mod_pos_bound n 3 ltac:(lia)) as Hr.
  assert (E1 : (n + 1) mod 3 = (n mod 3 + 1) mod 3)
    by (rewrite Z.add_mod_idemp_l by lia; reflexivity).
  rewrite E1.
  assert (C : n mod 3 = 0 \/ n mod 3 = 1 \/ n mod 3 = 2) by lia.
  destruct C as [C|[C|C]]; rewrite C; reflexivity.
Qed.

(** The values of the two bonuses. *)
Lemma fading_spec (t : double) :
  time_arg t ->
  fin_sign false (fading t) /\ F64.valid (fading t) = true /\
  val (fading t) = RND F64.prec F64.emax (U - val t mod U) /\
  0 <= val (fading t) <= U.
Proof.
  intros (V & F & B). pose proof U_pos as HU.
  destruct (fmod_one t V F) as (Ff & Vf & Ef).
  pose proof (Z.mod_pos_bound (val t) U HU) as Hr.
  unfold fading. rewrite d_1_of_float.
  assert (V1 : F64.valid d_1 = true) by reflexivity.
  assert (F1 : fin_sign false d_1) by (split; [reflexivity | discriminate]).
  assert (E1 : val d_1 = U) by (unfold U; vm_compute; reflexivity).
  destruct (SFsub_pos F64.prec F64.emax F64_prec F64_emax F64_K
              d_1 (fmod t d_1) V1 Vf F1 Ff) as (Fs & Vs & Es).
  { rewrite Ef, E1. lia. }
  { rewrite E1. unfold U. apply Z.pow_lt_mono_r; unfold F64.emax, K; lia. }
  rewrite E1, Ef in Es.
  split; [exact Fs|]. split; [exact Vs|]. split; [exact Es|].
  unfold F64.sub. rewrite Es. split.
  - apply (RND_nonneg F64.prec F64.emax F64_K). lia.
  - pose proof (RND_le_pow2 F64.prec F64.emax F64_prec F64_K
                  (U - val t mod U) 0) as H.
    change (2 ^ (0 + K)) with U in H. apply H; try lia.
    unfold emin, F64.prec, F64.emax. lia.
Qed.

(** ** The argument loop *)

Section ArgsFacts.

Variable atof : string -> double.

(** Lists two elements at a time, the way the loop consumes a flag and
    its value. *)
Lemma list_pair_ind (A : Type) (P : list A -> Prop) :
  P [] -> (forall a, P [a]) -> (forall a b l, P l -> P (a :: b :: l)) ->
  forall l, P l.
Proof.
  intros H0 H1 H2.
  assert (both : forall l, P l /\ forall a, P (a :: l)).
  { induction l as [|b l [IH IH']]; split; auto. }
  intro l; apply both.
Qed.

(** A prefix that the loop gets through leaves the loop at its end with
    the configuration it built, whatever follows. *)
Lemma parse_args_app (pre rest : list string) :
  forall cfg cfg',
    parse_args atof pre cfg = Parsed cfg' ->
    parse_args atof (pre ++ rest) cfg = parse_args atof rest cfg'.
Proof.
  induction pre as [|a|a v pre IH] using list_pair_ind; intros cfg cfg' H.
  - simpl in H. injection H as <-. reflexivity.
  - simpl in H.
    destruct (is_flag "-h" "--help" a); [discriminate|].
    destruct (is_flag "-v" "--version" a); discriminate.
  - change ((a :: v :: pre) ++ rest) with (a :: v :: (pre ++ rest)).
    simpl in H |- *.
    destruct (is_flag "-h" "--help" a); [discriminate|].
    destruct (is_flag "-v" "--version" a); [discriminate|].
    destruct (is_flag "-t" "--time-limit" a); [now apply IH|].
    destruct (is_flag "-l" "--luminosity" a).
    { destruct (luminosity_rejected _); [discriminate|]. now apply IH. }
    destruct (is_flag "-s" "--speed" a); [|discriminate].
    destruct (speed_rejected _); [discriminate|]. now apply IH.
Qed.

Lemma is_flag_inv (short long a : string) :
  is_flag short long a = true -> a = short \/ a = long.
Proof.
  unfold is_flag. intros H. apply orb_true_iff in H.
  destruct H as [H|H]; apply String.eqb_eq in H; auto.
Qed.

(** The loop at a speed flag whose value is refused. *)
Lemma parse_speed_rejected (a v : string) (rest : list string) (cfg : RunConfig) :
  is_flag "-s" "--speed" a = true ->
  speed_rejected (atof v) = true ->
  parse_args atof (a :: v :: rest) cfg = Usage EXIT_FAILURE.
Proof.
  intros Ha Hv. apply is_flag_inv in Ha.
  destruct Ha as [-> | ->]; simpl; rewrite Hv; reflexivity.
Qed.

(** The loop at a luminosity flag whose value is refused. *)
Lemma parse_luminosity_rejected (a v : string) (rest : list string) (cfg : RunConfig) :
  is_flag "-l" "--luminosity" a = true ->
  luminosity_rejected (float_of_double (atof v)) = true ->
  parse_args atof (a :: v :: rest) cfg = Usage EXIT_FAILURE.
Proof.
  intros Ha Hv. apply is_flag_inv in Ha.
  destruct Ha as [-> | ->]; simpl; rewrite Hv; reflexivity.
Qed.

(** Every configuration that leaves the loop passed the tests of the
    flags that set it, or is the default. *)
Lemma parse_args_accepts (args : list string) :
  forall cfg cfg',
    parse_args atof args cfg = Parsed cfg' ->
    (speed cfg' = speed cfg \/ speed_rejected (speed cfg') = false) /\
    (luminosity cfg' = luminosity cfg \/
     luminosity_rejected (luminosity cfg') = false).
Proof.
  induction args as [|a|a v args IH] using list_pair_ind; intros cfg cfg' H.
  - simpl in H. injection H as <-. auto.
  - simpl in H.
    destruct (is_flag "-h" "--help" a); [discriminate|].
    destruct (is_flag "-v" "--version" a); discriminate.
  - simpl in H.
    destruct (is_flag "-h" "--help" a); [discriminate|].
    destruct (is_flag "-v" "--version" a); [discriminate|].
    destruct (is_flag "-t" "--time-limit" a); [now apply IH in H|].
    destruct (is_flag "-l" "--luminosity" a).
    { destruct (luminosity_rejected _) eqn:E; [discriminate|].
      apply IH in H. simpl in H. destruct H as [H1 [H2|H2]]; split; auto.
      right. rewrite H2. exact E. }
    destruct (is_flag "-s" "--speed" a); [|discriminate].
    destruct (speed_rejected _) eqn:E; [discriminate|].
    apply IH in H. simpl in H. destruct H as [[H1|H1] H2]; split; auto.
    right. rewrite H1. exact E.
Qed.

End ArgsFacts.

(** A process that has ended stays as it is. *)
Lemma exec_done (cfg : RunConfig) (inputs : list input) (st : state) (s : status) :
  st_pc st = PcDone s -> exec cfg inputs st = st.
Proof.
  revert st. induction inputs as [|i inputs IH]; intros st H; simpl; [reflexivity|].
  assert (E : step cfg i st = st) by (unfold step; rewrite H; reflexivity).
  rewrite E. now apply IH.
Qed.

(** The two tests as the loop makes them.  A speed at or below zero, or
    a luminosity that is below 0.1f or above 9.9f once it is stored in
    the [float] variable, at a flag that the argument loop reaches, makes
    the program print the usage text and exit with the failure status;
    the process has then made no other call, [XOpenDisplay] in
    particular, and no later input changes that. *)
Lemma invalid_value_rejected
    (atof : string -> double) (prog : string)
    (pre : list string) (flag v : string) (rest : list string)
    (cfg : RunConfig) (inputs : list input) :
  parse_args atof pre default_config = Parsed cfg ->
  (is_flag "-s" "--speed" flag = true /\ SFleb (atof v) d_0 = true) \/
  (is_flag "-l" "--luminosity" flag = true /\
   (SFltb (float_of_double (atof v)) f_0_1 = true \/
    SFltb f_9_9 (float_of_double (atof v)) = true)) ->
  let st := main atof (prog :: pre ++ flag :: v :: rest) inputs in
  st_pc st = PcDone (Exited EXIT_FAILURE) /\
  trace st = [PrintUsage] /\
  (forall ok, ~ In (XOpenDisplay ok) (trace st)).
Proof.
  intros Hpre Hbad st.
  assert (E : parse_args atof (pre ++ flag :: v :: rest) default_config
              = Usage EXIT_FAILURE).
  { rewrite (parse_args_app atof pre (flag :: v :: rest) _ _ Hpre).
    destruct Hbad as [[Hf Hv] | [Hf Hv]].
    - apply parse_speed_rejected; assumption.
    - apply parse_luminosity_rejected; [assumption|].
      unfold luminosity_rejected, IEEE.SFgtb.
      destruct Hv as [-> | ->]; [reflexivity | apply orb_true_r]. }
  assert (Est : st = boot (PcDone (Exited EXIT_FAILURE)) [PrintUsage]).
  { unfold st, main. simpl tl. rewrite E. simpl after_args.
    now apply exec_done with (s := Exited EXIT_FAILURE). }
  rewrite Est. simpl. repeat split.
  intros ok [H|[]]. discriminate.
Qed.

(** ** The loop condition *)

Lemma nonneg_not_unbounded (limit : double) :
  SFleb d_0 limit = true -> unbounded limit = false.
Proof. intro H. unfold unbounded. now apply SFleb_not_ltb. Qed.

Lemma advance_loop_cond_bounded (cfg : RunConfig) (a : answer) (st : state) (now : double) :
  st_pc st = PcLoopCond ->
  unbounded (time_limit cfg) = false ->
  get_time (clock a) = Some now ->
  st_pc (step cfg (Go a) st) =
    if within_limit (time_limit cfg) now (start_time st)
    then PcCallRainbow else PcReturn.
Proof.
  intros Hpc Hb Hnow. unfold step, advance, with_time.
  rewrite Hpc, Hb, Hnow. simpl.
  destruct (within_limit _ _ _); reflexivity.
Qed.

(** C7. At the loop condition, with a time limit that is not negative:
    if the elapsed time that the check computes is at most the limit the
    loop goes on to its body, and if it exceeds the limit the loop is
    left for the return of [main].  With a negative limit the loop goes
    on to its body whatever the clock says. *)
Theorem time_limit_boundary (cfg : RunConfig) (st : state) :
  st_pc st = PcLoopCond ->
  (SFleb d_0 (time_limit cfg) = true ->
   forall a now,
     get_time (clock a) = Some now ->
     (SFleb (elapsed now (start_time st)) (time_limit cfg) = true ->
      st_pc (step cfg (Go a) st) = PcCallRainbow) /\
     (SFltb (time_limit cfg) (elapsed now (start_time st)) = true ->
      st_pc (step cfg (Go a) st) = PcReturn)) /\
  (SFltb (time_limit cfg) d_0 = true ->
   forall a, st_pc (step cfg (Go a) st) = PcCallRainbow).
Proof.
  intros Hpc. split.
  - intros Hnn a now Hnow.
    rewrite (advance_loop_cond_bounded cfg a st now Hpc
               (nonneg_not_unbounded _ Hnn) Hnow).
    unfold within_limit, IEEE.SFgeb. split; intros H.
    + rewrite H. reflexivity.
    + rewrite (SFltb_not_leb _ _ H). reflexivity.
  - intros Hneg a. unfold step, advance. rewrite Hpc.
    unfold unbounded. rewrite Hneg. reflexivity.
Qed.

(** ** Teardown *)

Arguments rainbow_palette : simpl never.
Arguments change_gamma_assert : simpl never.
Arguments get_time : simpl never.
Arguments within_limit : simpl never.
Arguments unbounded : simpl never.
Arguments F64.mul : simpl never.
Arguments elapsed : simpl never.

Lemma no_close_app (tr : list event) (e : event) :
  no_close tr -> e <> XCloseDisplay -> no_close (tr ++ [e]).
Proof.
  unfold no_close. intros H He Hin. apply in_app_or in Hin.
  destruct Hin as [Hin|[Hin|[]]]; [auto | congruence].
Qed.

(** [quit_application] from a state in which it has not run. *)
Lemma quit_application_spec (code : exit_status) (a : answer) (st : state) :
  x11_display st = true ->
  let st' := quit_application code a st in
  st_pc st' = PcDone (teardown_status code (x_ok a)) /\
  trace st' = trace st ++ neutral_tail (x_ok a) /\
  teardowns st' = S (teardowns st) /\
  x11_display st' = negb (x_ok a).
Proof.
  intros Hd. unfold quit_application, change_gamma.
  rewrite neutral_in_range. simpl negb. cbv iota.
  destruct (x_ok a); simpl.
  - rewrite Hd. simpl. rewrite <- !app_assoc. auto.
  - rewrite <- !app_assoc. auto.
Qed.

Lemma wf_boot : wf (boot PcOpenDisplay []).
Proof. unfold wf, boot, no_close; simpl. repeat split; auto. Qed.

Ltac close_events :=
  repeat (apply no_close_app; [|discriminate]); try assumption.

Ltac wf_done :=
  unfold wf; simpl; repeat split; intros; try assumption; try congruence;
  close_events.

Lemma wf_step (cfg : RunConfig) (i : input) (st : state) :
  wf st -> wf (step cfg i st).
Proof.
  intros H. unfold step.
  destruct (st_pc st) eqn:Hpc; try exact H;
    (destruct i as [|a];
     [ unfold deliver, wf in *; rewrite Hpc in H;
       destruct (handlers st) eqn:Hh; simpl; rewrite ?Hpc; simpl;
       try tauto; try (left; tauto)
     | ]).
  all: unfold advance; rewrite Hpc; unfold wf in H; rewrite Hpc in H.
  - (* PcOpenDisplay *)
    destruct H as (Hd & Ha & Ht & Hc).
    destruct (x_ok a); wf_done.
  - (* PcInstall *)
    unfold wf; simpl. tauto.
  - (* PcStartTime *)
    destruct H as (Hd & Ha & Hh & Ht & Hc).
    unfold with_time. destruct (get_time (clock a)); wf_done.
  - (* PcLoopCond *)
    destruct H as (Hd & Ha & Hh & Ht & Hc).
    destruct (unbounded (time_limit cfg)); [unfold wf; simpl; tauto|].
    unfold with_time. destruct (get_time (clock a)).
    + destruct (within_limit _ _ _); wf_done.
    + wf_done.
  - (* PcCallRainbow *)
    destruct H as (Hd & Ha & Hh & Ht & Hc).
    unfold with_time. destruct (get_time (clock a)).
    + unfold call_rainbow.
      destruct (rainbow_palette _ _) as [[[r g] b]|].
      * unfold change_gamma. simpl.
        destruct (change_gamma_assert r g b); simpl.
        { destruct (x_ok a); wf_done. }
        unfold wf; simpl. left. split; [assumption|close_events].
      * unfold wf; simpl. left. split; [assumption|close_events].
    + wf_done.
  - (* PcYield *)
    destruct H as (Hd & Ha & Hh & Ht & Hc). wf_done.
  - (* PcCheckQuit *)
    destruct (pending_quit st); unfold wf; simpl; tauto.
  - (* PcReturn *)
    unfold wf; simpl; tauto.
  - (* PcExit *)
    destruct H as (Hd & Ht & Hc).
    destruct (atexit_quit st) eqn:Ha.
    + destruct (quit_application_spec code a st (Hd eq_refl))
        as (Ep & Et & En & _).
      unfold wf. rewrite Ep. right. split; [rewrite En, Ht; reflexivity|].
      exists (trace st), (x_ok a). auto.
    + unfold wf; simpl. left. tauto.
Qed.

Lemma wf_exec (cfg : RunConfig) (inputs : list input) (st : state) :
  wf st -> wf (exec cfg inputs st).
Proof.
  revert st. induction inputs as [|i inputs IH]; intros st H; simpl; [exact H|].
  apply IH. now apply wf_step.
Qed.

Lemma returning_exec (cfg : RunConfig) (st0 : state) (inputs : list input) :
  forall st,
    returning st0 st ->
    let st' := exec cfg inputs st in
    (returning st0 st' /\
     (count_go inputs + steps_to_end (st_pc st') = steps_to_end (st_pc st))%nat) \/
    torn_down st0 st'.
Proof.
  induction inputs as [|i inputs IH]; intros st R; simpl.
  - left. split; [exact R | reflexivity].
  - destruct R as (Hpc & Hd & Ha & Hh & Ht & Htr).
    destruct i as [|a].
    + (* a signal only sets the flag *)
      assert (R' : returning st0 (step cfg Signal st) /\
                   st_pc (step cfg Signal st) = st_pc st).
      { unfold step, deliver. rewrite Hh.
        destruct Hpc as [Hpc|Hpc]; rewrite Hpc; simpl;
          unfold returning; simpl; rewrite ?Hpc; tauto. }
      destruct R' as [R' E]. specialize (IH _ R'). simpl in IH.
      rewrite E in IH. exact IH.
    + destruct Hpc as [Hpc|Hpc].
      * assert (R' : returning st0 (step cfg (Go a) st) /\
                     st_pc (step cfg (Go a) st) = PcExit EXIT_SUCCESS).
        { unfold step, advance. rewrite Hpc. unfold returning. simpl. tauto. }
        destruct R' as [R' E]. specialize (IH _ R'). simpl in IH.
        destruct IH as [[IH1 IH2]|IH]; [left|right; exact IH].
        split; [exact IH1|]. rewrite Hpc. rewrite E in IH2.
        unfold count_go in *. simpl in IH2 |- *. lia.
      * right.
        assert (E : step cfg (Go a) st = quit_application EXIT_SUCCESS a st).
        { unfold step, advance. rewrite Hpc, Ha. reflexivity. }
        rewrite E.
        destruct (quit_application_spec EXIT_SUCCESS a st Hd) as (Ep & Et & En & Ex).
        rewrite (exec_done cfg inputs _ _ Ep).
        exists (x_ok a). rewrite Ep, Et, En, Ht, Htr, Ex. auto.
Qed.

(** C8. From the return of [main], which the loop reaches by its
    condition or by its [break], the process ends after two steps of the
    program; [quit_application] has then run exactly once, and what the
    process did after the return is the request of the neutral gamma
    (1.0, 1.0, 1.0) followed, when the request succeeds, by the flush and
    the release of the display.  The display is not released before, and
    [quit_application] runs at most once at any point. *)
Theorem teardown_exactly_once (cfg : RunConfig) (pre inputs : list input) :
  let st0 := exec cfg pre (boot PcOpenDisplay []) in
  st_pc st0 = PcReturn ->
  let st := exec cfg inputs st0 in
  no_close (trace st0) /\
  teardowns st0 = 0%nat /\
  (teardowns st <= 1)%nat /\
  (forall s, st_pc st = PcDone s ->
     exists ok,
       s = teardown_status EXIT_SUCCESS ok /\
       trace st = trace st0 ++ neutral_tail ok /\
       teardowns st = 1%nat /\
       x11_display st = negb ok) /\
  ((2 <= count_go inputs)%nat -> exists s, st_pc st = PcDone s).
Proof.
  intros st0 Hpc st.
  assert (W : wf st0) by (apply wf_exec, wf_boot).
  unfold wf in W. rewrite Hpc in W. destruct W as (Hd & Ha & Hh & Ht & Hc).
  assert (R : returning st0 st0) by (unfold returning; tauto).
  destruct (returning_exec cfg st0 inputs st0 R) as [[R' Hn]|T];
    fold st in R', Hn || fold st in T.
  - destruct R' as (Hpc' & _ & _ & _ & Ht' & _).
    repeat split; try assumption.
    + rewrite Ht'. lia.
    + intros s Hs. destruct Hpc' as [E|E]; rewrite E in Hs; discriminate.
    + intros Hge. rewrite Hpc in Hn. simpl in Hn.
      destruct Hpc' as [E|E]; rewrite E in Hn; simpl in Hn; lia.
  - destruct T as (ok & Ep & Et & En & Ex).
    repeat split; try assumption.
    + rewrite En. lia.
    + intros s Hs. exists ok. rewrite Ep in Hs. injection Hs as <-. auto.
    + intros _. eauto.
Qed.

(** The loop is left for the return of [main] in two ways only: its
    condition fails, or the flag is found set. *)
Lemma return_reached_by (cfg : RunConfig) (i : input) (st : state) :
  st_pc st <> PcReturn ->
  st_pc (step cfg i st) = PcReturn ->
  (st_pc st = PcLoopCond /\ unbounded (time_limit cfg) = false) \/
  (st_pc st = PcCheckQuit /\ pending_quit st = true).
Proof.
  intros Hn H. unfold step in H.
  destruct (st_pc st) eqn:Hpc; try congruence;
    (destruct i as [|a];
     [ unfold deliver in H; destruct (handlers st); simpl in H; congruence | ]);
    unfold advance in H; rewrite Hpc in H.
  - destruct (x_ok a); simpl in H; discriminate.
  - simpl in H; discriminate.
  - unfold with_time in H. destruct (get_time _); simpl in H; discriminate.
  - left. split; [reflexivity|].
    destruct (unbounded (time_limit cfg)); [simpl in H; discriminate|reflexivity].
  - unfold with_time in H. destruct (get_time _); [|simpl in H; discriminate].
    unfold call_rainbow, change_gamma in H.
    destruct (rainbow_palette _ _) as [[[r g] b]|]; [|simpl in H; discriminate].
    destruct (change_gamma_assert r g b); simpl in H; [|discriminate].
    destruct (x_ok a); simpl in H; discriminate.
  - simpl in H; discriminate.
  - right. split; [reflexivity|].
    destruct (pending_quit st); [reflexivity|simpl in H; discriminate].
  - destruct (atexit_quit st).
    + unfold quit_application, change_gamma in H. rewrite neutral_in_range in H.
      simpl in H. destruct (x_ok a); simpl in H; [|discriminate].
      destruct (x11_display st); simpl in H; discriminate.
    + simpl in H; discriminate.
Qed.

(** ** Stopping on a signal *)

Lemma gamma_calls_app (tr : list event) (e : event) :
  gamma_calls (tr ++ [e]) = (gamma_calls tr + (if is_gamma e then 1 else 0))%nat.
Proof.
  unfold gamma_calls. rewrite List.filter_app, List.length_app. simpl.
  destruct (is_gamma e); reflexivity.
Qed.

Lemma quit_application_counts (code : exit_status) (a : answer) (st : state) :
  let st' := quit_application code a st in
  (exists s, st_pc st' = PcDone s) /\
  gamma_calls (trace st') = S (gamma_calls (trace st)) /\
  teardowns st' = S (teardowns st) /\
  pending_quit st' = pending_quit st.
Proof.
  unfold quit_application, change_gamma. rewrite neutral_in_range.
  simpl negb. cbv iota.
  destruct (x_ok a); simpl.
  - destruct (x11_display st); simpl;
      rewrite ?gamma_calls_app; simpl; repeat split; eauto; lia.
  - rewrite ?gamma_calls_app; simpl; repeat split; eauto; lia.
Qed.

Ltac stopping_done :=
  unfold stopping; simpl; rewrite ?gamma_calls_app; simpl;
  repeat split; try assumption; try reflexivity; try lia.

Ltac progress_done := simpl; intros; try discriminate; try lia.

Lemma stopping_step (cfg : RunConfig) (g t : nat) (i : input) (st : state) :
  stopping g t st ->
  stopping g t (step cfg i st) /\
  (in_loop (st_pc (step cfg i st)) = true ->
   steps_to_check (st_pc (step cfg i st)) + (if is_go i then 1 else 0)
   <= steps_to_check (st_pc st))%nat.
Proof.
  intros (Hq & Hs & H). unfold step.
  destruct (st_pc st) eqn:Hpc; try discriminate Hs.
  all: try (destruct i as [|a];
     [ unfold deliver;
       destruct (handlers st); simpl; rewrite ?Hpc;
       (split; [unfold stopping; simpl; rewrite ?Hpc; simpl;
                repeat split; try tauto; try lia
               | progress_done])
     | ]).
  all: try (unfold advance; rewrite Hpc).
  - (* PcLoopCond *)
    destruct H as (Ht & Hg). simpl in Hg.
    destruct (unbounded (time_limit cfg)).
    { split; [stopping_done | progress_done]. }
    unfold with_time. destruct (get_time (clock a)).
    + destruct (within_limit _ _ _);
        (split; [stopping_done | progress_done]).
    + split; [stopping_done | progress_done].
  - (* PcCallRainbow *)
    destruct H as (Ht & Hg). simpl in Hg.
    unfold with_time. destruct (get_time (clock a)).
    + unfold call_rainbow.
      destruct (rainbow_palette _ _) as [[[r g'] b]|].
      * unfold change_gamma. simpl.
        destruct (change_gamma_assert r g' b); simpl.
        { destruct (x_ok a); (split; [stopping_done | progress_done]). }
        split; [stopping_done | progress_done].
      * split; [stopping_done | progress_done].
    + split; [stopping_done | progress_done].
  - (* PcYield *)
    destruct H as (Ht & Hg). simpl in Hg.
    split; [stopping_done | progress_done].
  - (* PcCheckQuit *)
    destruct H as (Ht & Hg). simpl in Hg. rewrite Hq.
    split; [stopping_done | progress_done].
  - (* PcReturn *)
    destruct H as (Ht & Hg). simpl in Hg.
    split; [stopping_done | progress_done].
  - (* PcExit *)
    destruct H as (Ht & Hg). simpl in Hg.
    destruct (atexit_quit st).
    + destruct (quit_application_counts code a st) as ((s & Ep) & Eg & Et & Eq).
      split; [|rewrite Ep; progress_done].
      unfold stopping. rewrite Ep, Eg, Et, Eq. cbv iota beta.
      repeat split; auto; lia.
    + split; [stopping_done | progress_done].
  - (* PcDone *)
    split; [unfold stopping; rewrite Hpc; tauto | progress_done].
Qed.

Lemma stopping_exec (cfg : RunConfig) (g t : nat) (inputs : list input) :
  forall st,
    stopping g t st ->
    stopping g t (exec cfg inputs st) /\
    (in_loop (st_pc (exec cfg inputs st)) = true ->
     steps_to_check (st_pc (exec cfg inputs st)) + count_go inputs
     <= steps_to_check (st_pc st))%nat.
Proof.
  induction inputs as [|i inputs IH]; intros st H; simpl.
  - split; [exact H|]. unfold count_go; simpl. lia.
  - destruct (stopping_step cfg g t i st H) as [H1 H2].
    destruct (IH _ H1) as [H3 H4]. split; [exact H3|].
    intros L. specialize (H4 L).
    assert (L1 : in_loop (st_pc (step cfg i st)) = true).
    { destruct (st_pc (step cfg i st)); try reflexivity;
        simpl in H4; destruct (st_pc (exec cfg inputs (step cfg i st)));
        simpl in L, H4; try discriminate; lia. }
    specialize (H2 L1).
    unfold count_go in *. simpl. destruct i; simpl in *; lia.
Qed.

(** C9. From a state of the loop in which the flag is set, however the
    environment answers and whatever signals follow: while the process is
    still in the loop at most one more gamma-set request has been made;
    at any later point every request beyond that one is the request of a
    teardown; and after four steps of the program the loop has been
    left. *)
Theorem stop_within_one_iteration (cfg : RunConfig) (st : state) (inputs : list input) :
  in_loop (st_pc st) = true ->
  pending_quit st = true ->
  let st' := exec cfg inputs st in
  (in_loop (st_pc st') = true ->
   (gamma_calls (trace st') <= gamma_calls (trace st) + 1)%nat) /\
  (gamma_calls (trace st')
   <= gamma_calls (trace st) + 1 + (teardowns st' - teardowns st))%nat /\
  ((4 <= count_go inputs)%nat -> in_loop (st_pc st') = false).
Proof.
  intros L Q st'.
  assert (S0 : stopping (gamma_calls (trace st)) (teardowns st) st).
  { unfold stopping. split; [exact Q|].
    destruct (st_pc st); try discriminate L; simpl; repeat split; lia. }
  destruct (stopping_exec cfg _ _ inputs st S0) as [(_ & _ & H) P].
  fold st' in H, P.
  split; [|split].
  - intros L'. destruct (st_pc st'); try discriminate L';
      destruct H as [_ H]; simpl in H; lia.
  - destruct (st_pc st'); try (destruct H as [H1 H2]; rewrite ?H1; lia).
  - intros Hc. destruct (in_loop (st_pc st')) eqn:L'; [|reflexivity].
    specialize (P eq_refl).
    destruct (st_pc st'); try discriminate L';
      destruct (st_pc st); simpl in P; try discriminate L; lia.
Qed.

(** ** Sample runs and the defaults *)

(** C1. A luminosity of 9.5 passes the test of the argument loop; at
    elapsed time 0 the color function passes (10.5, 9.5, 9.5) to
    [change_gamma], whose assertion on the first channel fails; the
    process started with [-l 9.5] is aborted at the first pass through
    the loop, without any gamma request and without teardown. *)
Theorem accepted_luminosity_aborts :
  let l := float_of_double (atof_table "9.5"%string) in
  luminosity_rejected l = false /\
  rainbow_palette d_0 l = Some (F32.lit 105 10, l, l) /\
  SFleb (F32.lit 105 10) f_10 = false /\
  change_gamma_assert (F32.lit 105 10) l l = false /\
  let st := main atof_table ["xrainbow"%string; "-l"%string; "9.5"%string]
              [Go (at_time 5 0); Go (at_time 5 0); Go (at_time 5 0);
               Go (at_time 5 0); Go (at_time 5 0)] in
  st_pc st = PcDone Aborted /\
  teardowns st = 0%nat /\
  trace st = [XOpenDisplay true; ClockGettime true; ClockGettime true;
              AssertionFailed].
Proof. vm_compute. repeat split. Qed.

(** C10. Without flags the argument loop leaves the initialisers as
    they are: a time limit of -1.0, which the loop condition treats as
    unbounded, a speed of 1.0 and a luminosity of 1.0f / 3.0f, the float
    nearest to 1/3.  The speed is above zero and the luminosity lies
    between 0.1f and 9.9f, so both would pass the tests that the flags
    apply. *)
Theorem defaults_valid (atof : string -> double) :
  parse_args atof [] default_config = Parsed default_config /\
  time_limit default_config = F64.of_Z (-1) /\
  unbounded (time_limit default_config) = true /\
  speed default_config = F64.of_Z 1 /\
  SFltb d_0 (speed default_config) = true /\
  speed_rejected (speed default_config) = false /\
  luminosity default_config = S754_finite false 11184811 (-25) /\
  (Qabs (SF2Q (luminosity default_config) - (1 # 3)) <= (1 # (2 ^ 26)))%Q /\
  SFleb f_0_1 (luminosity default_config) = true /\
  SFleb (luminosity default_config) f_9_9 = true /\
  luminosity_rejected (luminosity default_config) = false.
Proof.
  repeat split; try reflexivity.
  vm_compute. discriminate.
Qed.

(** ** Instances *)

Lemma time_limit_boundary_witness :
  st_pc (at_loop_cond false) = PcLoopCond /\
  st_pc (step two_seconds (Go (at_time 7 0)) (at_loop_cond false)) = PcCallRainbow /\
  st_pc (step two_seconds (Go (at_time 7 1)) (at_loop_cond false)) = PcReturn /\
  st_pc (step default_config (Go (at_time 7 1)) (at_loop_cond false)) = PcCallRainbow.
Proof.
  pose proof (time_limit_boundary two_seconds (at_loop_cond false) eq_refl) as [H _].
  pose proof (time_limit_boundary default_config (at_loop_cond false) eq_refl) as [_ H'].
  split; [reflexivity|]. split; [|split].
  - apply (H eq_refl (at_time 7 0) _ eq_refl). reflexivity.
  - apply (H eq_refl (at_time 7 1) _ eq_refl). reflexivity.
  - apply H'. reflexivity.
Defined.

Lemma teardown_exactly_once_witness :
  let pre := [Go (at_time 5 0); Go (at_time 5 0); Go (at_time 5 0);
              Go (at_time 8 0)] in
  let st0 := exec two_seconds pre (boot PcOpenDisplay []) in
  let st := exec two_seconds [Go (at_time 8 0); Signal; Go (at_time 8 0)] st0 in
  st_pc st0 = PcReturn /\
  st_pc st = PcDone (Exited EXIT_SUCCESS) /\
  teardowns st = 1%nat /\
  trace st = trace st0 ++ [XF86VidModeSetGamma f_1 f_1 f_1 true; XFlush; XCloseDisplay].
Proof.
  intros pre st0 st.
  assert (H0 : st_pc st0 = PcReturn) by reflexivity.
  split; [exact H0|].
  destruct (teardown_exactly_once two_seconds pre
              [Go (at_time 8 0); Signal; Go (at_time 8 0)] H0)
    as (_ & _ & _ & H & D).
  assert (E : st_pc st = PcDone (Exited EXIT_SUCCESS)) by reflexivity.
  split; [exact E|].
  destruct (H _ E) as (ok & Es & Et & En & _).
  split; [exact En|].
  destruct ok; [exact Et | discriminate Es].
Defined.

Lemma stop_within_one_iteration_witness :
  let inputs := [Go (at_time 6 0); Go (at_time 6 0); Signal; Go (at_time 6 0);
                 Go (at_time 6 0); Go (at_time 6 0)] in
  let st' := exec two_seconds inputs (at_loop_cond true) in
  in_loop (st_pc (at_loop_cond true)) = true /\
  pending_quit (at_loop_cond true) = true /\
  in_loop (st_pc st') = false /\
  (gamma_calls (trace st')
   <= gamma_calls (trace (at_loop_cond true)) + 1
      + (teardowns st' - teardowns (at_loop_cond true)))%nat.
Proof.
  intros inputs st'.
  destruct (stop_within_one_iteration two_seconds (at_loop_cond true) inputs
              eq_refl eq_refl) as (_ & G & L).
  split; [reflexivity|]. split; [reflexivity|].
  split; [apply L; vm_compute; lia | exact G].
Defined.

(** ** Values as rational numbers *)

Lemma U_Upos : U = Zpos Upos.
Proof. reflexivity. Qed.

Lemma SF2Q_val (x : spec_float) (s : bool) :
  fin_sign s x -> (SF2Q x == val x # Upos)%Q.
Proof.
  intros F. rewrite Qmake_Qdiv. rewrite <- U_Upos.
  destruct x as [s'|s'| |s' m e]; try contradiction; cbn [SF2Q val].
  - unfold Qdiv. rewrite Qmult_0_l. reflexivity.
  - destruct F as [_ He].
    assert (E : cond_Zopp s' (Zpos m * 2 ^ (e + K))
                = cond_Zopp s' (Zpos m) * 2 ^ (e + K))
      by (destruct s'; cbn [cond_Zopp]; lia).
    rewrite E, inject_Z_mult. unfold U.
    rewrite !Zpower_Qpower by (lia || discriminate).
    change (inject_Z 2) with 2%Q.
    rewrite Qpower_plus by discriminate.
    field. intros H.
    apply (Qpower_not_0 2 K); [discriminate | exact H].
Qed.

Lemma Qle_units (d : positive) (a b : Z) :
  a <= b -> (a # d <= b # d)%Q.
Proof. intros H. unfold Qle. cbn [Qnum Qden]. nia. Qed.

Lemma Qlt_units_inv (d : positive) (a b : Z) :
  (a # d < b # d)%Q -> a < b.
Proof. unfold Qlt. cbn [Qnum Qden]. nia. Qed.

Lemma Qle_units_inv (d : positive) (a b : Z) :
  (a # d <= b # d)%Q -> a <= b.
Proof. unfold Qle. cbn [Qnum Qden]. nia. Qed.

Lemma Qeq_units_inv (d : positive) (a b : Z) :
  (a # d == b # d)%Q -> a = b.
Proof. unfold Qeq. cbn [Qnum Qden]. nia. Qed.

Lemma Qplus_units (d : positive) (a b : Z) :
  ((a # d) + (b # d) == (a + b) # d)%Q.
Proof.
  unfold Qeq, Qplus. cbn [Qnum Qden]. rewrite Pos2Z.inj_mul. ring.
Qed.

Lemma Qminus_units (d : positive) (a b : Z) :
  ((a # d) - (b # d) == (a - b) # d)%Q.
Proof.
  unfold Qeq, Qminus, Qplus, Qopp. cbn [Qnum Qden]. rewrite Pos2Z.inj_mul. ring.
Qed.

Lemma Qscale_units (d : positive) (n a : Z) :
  (inject_Z n * (a # d) == (n * a) # d)%Q.
Proof.
  unfold Qeq, Qmult, inject_Z. cbn [Qnum Qden]. rewrite Pos2Z.inj_mul. ring.
Qed.

Lemma Qone_units (d : positive) : (1 == Zpos d # d)%Q.
Proof. unfold Qeq. cbn [Qnum Qden]. ring. Qed.

Lemma Qabs_units (d : positive) (a : Z) :
  (Qabs (a # d) == Z.abs a # d)%Q.
Proof. reflexivity. Qed.

(** A bound [2 ^ - k] on a rational in units of [1 / d]. *)
Lemma Qle_pow2_units (d : positive) (a : Z) (k : positive) :
  Zpos (2 ^ k) * a <= Zpos d -> (a # d <= 1 # (2 ^ k))%Q.
Proof. unfold Qle. cbn [Qnum Qden]. nia. Qed.


Lemma units_facts :
  U = 2 ^ 20 * E32 /\ E32 = 2 ^ 29 * E64 /\ E64 = 8 * E1 /\ 0 < E1 /\
  2 ^ (4 + K) = 16 * U /\ 2 ^ (1 + K) = 2 * U.
Proof. vm_compute. repeat split; reflexivity. Qed.

Lemma constants_val :
  0 < val f_0_1 /\ val f_9_9 < 10 * U /\ val d_1 = U /\
  val f_10 = 10 * U /\ U <= 16 * val f_0_1.
Proof. vm_compute. repeat split; try reflexivity; discriminate. Qed.

Section Compare.

Variables prec emax : Z.
Hypothesis Hprec : 0 < prec.
Hypothesis Hemax : 2 <= emax.
Hypothesis HK : - K <= emin prec emax.

Lemma SFleb_val (x y : spec_float) (sx sy : bool) :
  valid_binary prec emax x = true -> valid_binary prec emax y = true ->
  fin_sign sx x -> fin_sign sy y ->
  (SFleb x y = true <-> val x <= val y).
Proof.
  intros Vx Vy Fx Fy. unfold SFleb.
  rewrite (SFcompare_val prec emax Hprec Hemax HK x y sx sy Vx Vy Fx Fy).
  destruct (Z.compare_spec (val x) (val y)); split; intros; try lia; try discriminate;
    reflexivity.
Qed.

Lemma SFltb_val (x y : spec_float) (sx sy : bool) :
  valid_binary prec emax x = true -> valid_binary prec emax y = true ->
  fin_sign sx x -> fin_sign sy y ->
  (SFltb x y = true <-> val x < val y).
Proof.
  intros Vx Vy Fx Fy. unfold SFltb.
  rewrite (SFcompare_val prec emax Hprec Hemax HK x y sx sy Vx Vy Fx Fy).
  destruct (Z.compare_spec (val x) (val y)); split; intros; try lia; try discriminate;
    reflexivity.
Qed.

End Compare.

Lemma accepted_val (L : float) :
  accepted L ->
  fin_sign false L /\ val f_0_1 <= val L <= val f_9_9.
Proof.
  intros (V & H1 & H2).
  assert (F : fin_sign false L).
  { rewrite f_0_1_bits in H1. rewrite f_9_9_bits in H2.
    unfold SFleb in H1, H2.
    destruct L as [s|s| |s m e]; cbn [SFcompare] in H1, H2; try discriminate;
      destruct s; try discriminate.
    split; [reflexivity|]. apply (bounded_inv _ _ F32_K _ _ V). }
  split; [exact F|].
  assert (F1 : fin_sign false f_0_1) by (rewrite f_0_1_bits; split; [reflexivity|discriminate]).
  assert (F9 : fin_sign false f_9_9) by (rewrite f_9_9_bits; split; [reflexivity|discriminate]).
  split.
  - apply (SFleb_val F32.prec F32.emax F32_prec F32_emax F32_K _ _ false false);
      try assumption; reflexivity.
  - apply (SFleb_val F32.prec F32.emax F32_prec F32_emax F32_K _ _ false false);
      try assumption; reflexivity.
Qed.

(** A [float] value is a [double] value. *)
Lemma RND64_float (c : float) :
  F32.valid c = true -> fin_sign false c ->
  RND F64.prec F64.emax (val c) = val c.
Proof.
  intros V F.
  destruct (double_of_float_spec c false V F) as (Fd & Vd & Ed).
  assert (B : val c < 2 ^ (F64.emax - 1 + K)).
  { destruct c as [s|s| |s m e]; try contradiction; cbn [val].
    - apply Z.pow_pos_nonneg; [lia | discriminate].
    - destruct F as [-> He]. cbn [cond_Zopp].
      destruct (bounded32_inv _ _ V) as (Be & Bl & _).
      pose proof (log2_bounds m) as [_ Hu].
      assert (P : 0 < 2 ^ (e + K)) by (apply Z.pow_pos_nonneg; lia).
      apply Z.lt_le_trans with (2 ^ (Z.log2 (Zpos m) + 1) * 2 ^ (e + K)); [nia|].
      pose proof (Z.log2_nonneg (Zpos m)).
      rewrite <- Z.pow_add_r by lia. apply Z.pow_le_mono_r; [lia|].
      unfold F64.emax, K. lia. }
  destruct (round_to_spec F64.prec F64.emax F64_prec F64_emax F64_K c F B)
    as (_ & _ & E).
  unfold double_of_float in Ed. rewrite Ed in E. symmetry. exact E.
Qed.

Lemma RND32_float (c : float) :
  F32.valid c = true -> fin_sign false c ->
  RND F32.prec F32.emax (val c) = val c.
Proof.
  intros V F. destruct c as [s|s| |s m e]; try contradiction; cbn [val].
  - apply (RND_zero _ _ F32_K).
  - destruct F as [-> He]. cbn [cond_Zopp].
    apply (RND_float _ _ F32_K); assumption.
Qed.

(** Rounding a positive value to [double] does not reach zero. *)
Lemma RND64_pos (X : Z) : 0 < X -> 0 < RND F64.prec F64.emax X.
Proof.
  intros H.
  pose proof (RND_pow2 F64.prec F64.emax F64_prec F64_K (- K)) as E.
  change (2 ^ (- K + K)) with 1 in E.
  pose proof (RND_mono F64.prec F64.emax F64_prec F64_K 1 X) as M.
  rewrite E in M by (unfold emin, F64.prec, F64.emax, K; lia). lia.
Qed.

(** One update [palette[i] += d] of a positive channel, the sum staying
    below 15: the result is a [float] not below the channel, within the
    two rounding errors of the exact sum. *)
Lemma boost_facts (c : float) (d : double) :
  F32.valid c = true -> fin_sign false c ->
  F64.valid d = true -> fin_sign false d ->
  0 < val c -> val c + val d <= 15 * U ->
  fin_sign false (boost c d) /\ F32.valid (boost c d) = true /\
  val (boost c d) = RND F32.prec F32.emax (RND F64.prec F64.emax (val c + val d)) /\
  val c <= val (boost c d) /\
  2 * Z.abs (val (boost c d) - (val c + val d)) <= E32 + E64.
Proof.
  intros Vc Fc Vd Fd Pc B.
  destruct units_facts as (U1 & U2 & U3 & U4 & U5 & U6).
  pose proof (val_nonneg d Fd) as Nd.
  destruct (boost_spec c d 4 Vc Fc Vd Fd ltac:(lia) ltac:(lia)) as (F & V & E).
  split; [exact F|]. split; [exact V|]. split; [exact E|].
  set (X := val c + val d) in *.
  set (Y := RND F64.prec F64.emax X) in *.
  assert (PX : 0 < X) by (unfold X; lia).
  assert (PY : 0 < Y) by (apply RND64_pos; exact PX).
  assert (EY : 2 * Z.abs (Y - X) <= E64).
  { apply (RND_error_below F64.prec F64.emax F64_prec F64_K X 4); try lia.
    unfold emin, F64.prec, F64.emax. lia. }
  assert (BY : Y < 2 ^ (4 + K)) by lia.
  assert (EZ : 2 * Z.abs (RND F32.prec F32.emax Y - Y) <= E32).
  { apply (RND_error_below F32.prec F32.emax F32_prec F32_K Y 4); try lia.
    unfold emin, F32.prec, F32.emax. lia. }
  rewrite E. split; [|lia].
  rewrite <- (RND32_float c Vc Fc) at 1.
  apply (RND_mono F32.prec F32.emax F32_prec F32_K); [lia|].
  rewrite <- (RND64_float c Vc Fc).
  apply (RND_mono F64.prec F64.emax F64_prec F64_K); unfold X; lia.
Qed.

(** A larger bonus gives a channel that is not smaller. *)
Lemma boost_le (c : float) (d d' : double) :
  F32.valid c = true -> fin_sign false c ->
  F64.valid d = true -> fin_sign false d ->
  F64.valid d' = true -> fin_sign false d' ->
  0 < val c -> val d <= val d' -> val c + val d' <= 15 * U ->
  val (boost c d) <= val (boost c d').
Proof.
  intros Vc Fc Vd Fd Vd' Fd' Pc Hle B.
  pose proof (val_nonneg d Fd) as Nd.
  destruct (boost_facts c d Vc Fc Vd Fd Pc ltac:(lia)) as (_ & _ & E & _).
  destruct (boost_facts c d' Vc Fc Vd' Fd' Pc B) as (_ & _ & E' & _).
  rewrite E, E'.
  apply (RND_mono F32.prec F32.emax F32_prec F32_K); [apply RND64_pos; lia|].
  apply (RND_mono F64.prec F64.emax F64_prec F64_K); lia.
Qed.

(** A bonus of zero leaves the channel as it is. *)
Lemma boost_zero (c : float) (d : double) :
  F32.valid c = true -> fin_sign false c ->
  F64.valid d = true -> fin_sign false d ->
  0 < val c -> val c <= 15 * U -> val d = 0 ->
  boost c d = c.
Proof.
  intros Vc Fc Vd Fd Pc B Z0.
  destruct (boost_facts c d Vc Fc Vd Fd Pc ltac:(lia)) as (F & V & E & _).
  apply (val_inj F32.prec F32.emax F32_prec F32_emax F32_K _ _ false);
    try assumption.
  rewrite E, Z0, Z.add_0_r, (RND64_float c Vc Fc). apply RND32_float; assumption.
Qed.

Lemma d_1_facts : F64.valid d_1 = true /\ fin_sign false d_1 /\ val d_1 = U.
Proof.
  split; [reflexivity|]. split; [split; [reflexivity|discriminate]|].
  apply constants_val.
Qed.

(** The three channels at a time [t] for an accepted luminosity: the
    fading and the rising channel lie between the luminosity and the
    channel with the full bonus, and are close to the exact sums. *)
Lemma channels_facts (t : double) (L : float) :
  time_arg t -> accepted L ->
  let fade := boost L (fading t) in
  let rise := boost L (fmod t d_1) in
  let top := boost L d_1 in
  let F := val t mod U in
  (F32.valid fade = true /\ fin_sign false fade) /\
  (F32.valid rise = true /\ fin_sign false rise) /\
  (F32.valid top = true /\ fin_sign false top) /\
  (val L <= val fade <= val top) /\
  (val L <= val rise <= val top) /\
  2 * Z.abs (val fade - (val L + (U - F))) <= E32 + E64 + E1 /\
  2 * Z.abs (val rise - (val L + F)) <= E32 + E64 /\
  2 * Z.abs (val top - (val L + U)) <= E32 + E64.
Proof.
  intros T A fade rise top F.
  destruct units_facts as (U1 & U2 & U3 & U4 & U5 & U6).
  destruct constants_val as (C1 & C2 & C3 & C4 & C5).
  destruct (accepted_val L A) as (FL & L1 & L2). destruct A as (VL & _ & _).
  destruct d_1_facts as (V1 & F1 & E1').
  pose proof T as (Vt & Ft & Bt).
  pose proof U_pos as HU.
  destruct (fmod_one t Vt Ft) as (Ff & Vf & Ef).
  destruct (fading_spec t T) as (Fg & Vg & Eg & Bg).
  pose proof (Z.mod_pos_bound (val t) U HU) as Hr. fold F in Hr, Ef, Eg.
  destruct (boost_facts L (fading t) VL FL Vg Fg ltac:(lia) ltac:(lia))
    as (A1 & A2 & _ & A4 & A5).
  destruct (boost_facts L (fmod t d_1) VL FL Vf Ff ltac:(lia) ltac:(lia))
    as (B1 & B2 & _ & B4 & B5).
  destruct (boost_facts L d_1 VL FL V1 F1 ltac:(lia) ltac:(lia))
    as (D1 & D2 & _ & D4 & D5).
  fold fade in A1, A2, A4, A5. fold rise in B1, B2, B4, B5.
  fold top in D1, D2, D4, D5.
  assert (G : 2 * Z.abs (val (fading t) - (U - F)) <= E1).
  { rewrite Eg.
    apply (RND_error_below F64.prec F64.emax F64_prec F64_K (U - F) 1); try lia.
    unfold emin, F64.prec, F64.emax. lia. }
  assert (M1 : val fade <= val top).
  { apply boost_le; try assumption; lia. }
  assert (M2 : val rise <= val top).
  { apply boost_le; try assumption; lia. }
  rewrite Ef in B5. rewrite E1' in D5.
  repeat split; try assumption; lia.
Qed.

Lemma rotate_cases (n : Z) (a b c : float) :
  rotate n a b c = (a, b, c) \/ rotate n a b c = (c, a, b) \/
  rotate n a b c = (b, c, a).
Proof.
  unfold rotate. destruct (n mod 3) as [|[p|p|]|p]; auto.
Qed.

Lemma rotate_period (n : Z) (a b c : float) :
  rotate (n + 3) a b c = rotate n a b c.
Proof.
  unfold rotate. replace (n + 3) with (n + 1 * 3) by lia.
  rewrite Z.mod_add by lia. reflexivity.
Qed.

(** Rational bounds from bounds in units. *)
Lemma Qabs_diff_units (k : positive) (a b : Z) :
  Zpos (2 ^ k) * Z.abs (a - b) <= U ->
  (Qabs ((a # Upos) - (b # Upos)) <= 1 # (2 ^ k))%Q.
Proof.
  intros H. rewrite Qminus_units, Qabs_units.
  apply Qle_pow2_units. rewrite <- U_Upos. exact H.
Qed.

Lemma Qone_Upos : (1 == U # Upos)%Q.
Proof. rewrite U_Upos. apply Qone_units. Qed.

(** C2, as amended.  For a time [t] that is zero or positive and below
    2^63 and a luminosity [L] between 0.1f and 9.9f, [call_rainbow]
    passes three channels to [change_gamma]; each lies between [L] and
    the channel with the full bonus, [(float)(L + 1.0)], which is within
    2^-20 of [L + 1]; and the sum of the three differs from [3 L + 1] by
    at most 2^-19. *)
Theorem channels_between_and_sum_close (t : double) (L : float) :
  F64.valid t = true -> SFleb d_0 t = true -> SFltb t d_2p63 = true ->
  t <> S754_zero true ->
  F32.valid L = true -> SFleb f_0_1 L = true -> SFleb L f_9_9 = true ->
  exists r g b,
    rainbow_palette t L = Some (r, g, b) /\
    (SFleb L r = true /\ SFleb r (boost L d_1) = true) /\
    (SFleb L g = true /\ SFleb g (boost L d_1) = true) /\
    (SFleb L b = true /\ SFleb b (boost L d_1) = true) /\
    (Qabs (SF2Q r + SF2Q g + SF2Q b - (3 * SF2Q L + 1)) <= 1 # (2 ^ 19))%Q /\
    (Qabs (SF2Q (boost L d_1) - (SF2Q L + 1)) <= 1 # (2 ^ 20))%Q.
Proof.
  intros Vt T0 T1 Tz VL L1 L2.
  pose proof (time_arg_of_compare t Vt T0 T1 Tz) as T.
  assert (A : accepted L) by (unfold accepted; auto).
  destruct (accepted_val L A) as (FL & _).
  destruct (channels_facts t L T A)
    as ((Vf & Ff) & (Vr & Fr) & (Vp & Fp) & (Bf1 & Bf2) & (Br1 & Br2) & Ef & Er & Ep).
  destruct units_facts as (U1 & U2 & U3 & U4 & U5 & U6).
  set (fade := boost L (fading t)) in *.
  set (rise := boost L (fmod t d_1)) in *.
  set (top := boost L d_1) in *.
  assert (Hle : forall c, F32.valid c = true -> fin_sign false c ->
                  val L <= val c <= val top ->
                  SFleb L c = true /\ SFleb c top = true).
  { intros c Vc Fc [H1 H2]. split.
    - apply (SFleb_val F32.prec F32.emax F32_prec F32_emax F32_K L c false false);
        assumption.
    - apply (SFleb_val F32.prec F32.emax F32_prec F32_emax F32_K c top false false);
        assumption. }
  pose proof (Hle fade Vf Ff (conj Bf1 Bf2)) as Cf.
  pose proof (Hle rise Vr Fr (conj Br1 Br2)) as Cr.
  pose proof (Hle L VL FL ltac:(lia)) as CL.
  assert (Etop : (Qabs (SF2Q top - (SF2Q L + 1)) <= 1 # (2 ^ 20))%Q).
  { rewrite (SF2Q_val top false Fp), (SF2Q_val L false FL), Qone_Upos.
    rewrite Qplus_units. apply Qabs_diff_units.
    change (Zpos (2 ^ 20)) with (2 ^ 20). lia. }
  assert (Esum : forall r g b,
            fin_sign false r -> fin_sign false g -> fin_sign false b ->
            val r + val g + val b = val fade + val rise + val L ->
            (Qabs (SF2Q r + SF2Q g + SF2Q b - (3 * SF2Q L + 1)) <= 1 # (2 ^ 19))%Q).
  { intros r g b Hr Hg Hb Hs.
    rewrite (SF2Q_val r false Hr), (SF2Q_val g false Hg), (SF2Q_val b false Hb).
    rewrite (SF2Q_val L false FL), Qone_Upos.
    change 3%Q with (inject_Z 3).
    rewrite Qscale_units, !Qplus_units. apply Qabs_diff_units.
    change (Zpos (2 ^ 19)) with (2 ^ 19). rewrite Hs. lia. }
  rewrite (rainbow_palette_rotate t L T). fold fade rise.
  destruct (rotate_cases (val t / U) fade rise L) as [E|[E|E]]; rewrite E.
  - exists fade, rise, L. repeat split; try tauto. apply Esum; auto.
  - exists L, fade, rise. repeat split; try tauto. apply Esum; auto. lia.
  - exists rise, L, fade. repeat split; try tauto. apply Esum; auto. lia.
Qed.

(** C2, as stated, fails: at the default luminosity and time zero the
    red channel exceeds [L + 1] and the sum of the channels is not
    [3 L + 1]. *)
Lemma sum_not_exact :
  let L := luminosity default_config in
  exists r g b,
    rainbow_palette d_0 L = Some (r, g, b) /\
    ~ (SF2Q r + SF2Q g + SF2Q b == 3 * SF2Q L + 1)%Q /\
    ~ (SF2Q r <= SF2Q L + 1)%Q.
Proof.
  eexists _, _, _. split; [vm_compute; reflexivity|].
  split.
  - vm_compute. intros H. discriminate H.
  - vm_compute. intros H. apply H. reflexivity.
Qed.

Lemma channels_between_and_sum_close_witness :
  exists r g b,
    rainbow_palette (F64.lit 1 2) (luminosity default_config) = Some (r, g, b) /\
    (SFleb (luminosity default_config) r = true /\
     SFleb r (boost (luminosity default_config) d_1) = true) /\
    (SFleb (luminosity default_config) g = true /\
     SFleb g (boost (luminosity default_config) d_1) = true) /\
    (SFleb (luminosity default_config) b = true /\
     SFleb b (boost (luminosity default_config) d_1) = true) /\
    (Qabs (SF2Q r + SF2Q g + SF2Q b - (3 * SF2Q (luminosity default_config) + 1))
     <= 1 # (2 ^ 19))%Q /\
    (Qabs (SF2Q (boost (luminosity default_config) d_1)
           - (SF2Q (luminosity default_config) + 1)) <= 1 # (2 ^ 20))%Q.
Proof.
  apply (channels_between_and_sum_close (F64.lit 1 2) (luminosity default_config));
    try (vm_compute; reflexivity).
  vm_compute. discriminate.
Defined.

(** Adding [+0.0] to a channel leaves every [float] but [-0.0] as it is. *)
Lemma boost_plus_zero (L : float) :
  F32.valid L = true -> L <> S754_zero true ->
  boost L (S754_zero false) = L.
Proof.
  intros V Hz. destruct L as [s|s| |s m e]; try reflexivity.
  - destruct s; [contradiction | reflexivity].
  - assert (F : fin_sign s (S754_finite s m e)).
    { split; [reflexivity|]. apply (bounded_inv _ _ F32_K _ _ V). }
    destruct (double_of_float_spec _ s V F) as (Fd & Vd & Ed).
    unfold boost.
    assert (E : F64.add (double_of_float (S754_finite s m e)) (S754_zero false)
                = double_of_float (S754_finite s m e)).
    { destruct (double_of_float (S754_finite s m e)) as [s'|s'| |s' m' e'];
        try contradiction; [|reflexivity].
      exfalso. cbn [val] in Ed. destruct F as [_ He].
      assert (0 < Zpos m * 2 ^ (e + K))
        by (apply Z.mul_pos_pos; [lia | apply Z.pow_pos_nonneg; lia]).
      destruct s; cbn [cond_Zopp] in Ed; lia. }
    rewrite E. apply float_roundtrip. exact V.
Qed.

(** The triples at the times 0.0, 1.0, 2.0 and 0.5, for every [float] L
    other than [-0.0]: the channel with the bonus holds the sum as the
    compound assignment computes it, in [double] and stored as
    [float]. *)
Lemma rainbow_boundaries (L : float) :
  F32.valid L = true -> L <> S754_zero true ->
  rainbow_palette d_0 L = Some (boost L d_1, L, L) /\
  rainbow_palette (F64.of_Z 1) L = Some (L, boost L d_1, L) /\
  rainbow_palette (F64.of_Z 2) L = Some (L, L, boost L d_1) /\
  rainbow_palette d_half L = Some (boost L d_half, boost L d_half, L).
Proof.
  intros V Hz.
  pose proof (boost_plus_zero L V Hz) as Z0.
  assert (T : forall t, F64.valid t = true -> SFleb d_0 t = true ->
                SFltb t d_2p63 = true -> t <> S754_zero true -> time_arg t)
    by exact time_arg_of_compare.
  split; [|split; [|split]].
  - rewrite rainbow_palette_rotate
      by (apply T; try (vm_compute; reflexivity); vm_compute; discriminate).
    replace (fading d_0) with d_1 by (vm_compute; reflexivity).
    replace (fmod d_0 d_1) with (S754_zero false) by (vm_compute; reflexivity).
    replace (val d_0 / U) with 0 by (vm_compute; reflexivity).
    rewrite Z0. reflexivity.
  - rewrite rainbow_palette_rotate
      by (apply T; try (vm_compute; reflexivity); vm_compute; discriminate).
    replace (fading (F64.of_Z 1)) with d_1 by (vm_compute; reflexivity).
    replace (fmod (F64.of_Z 1) d_1) with (S754_zero false) by (vm_compute; reflexivity).
    replace (val (F64.of_Z 1) / U) with 1 by (vm_compute; reflexivity).
    rewrite Z0. reflexivity.
  - rewrite rainbow_palette_rotate
      by (apply T; try (vm_compute; reflexivity); vm_compute; discriminate).
    replace (fading (F64.of_Z 2)) with d_1 by (vm_compute; reflexivity).
    replace (fmod (F64.of_Z 2) d_1) with (S754_zero false) by (vm_compute; reflexivity).
    replace (val (F64.of_Z 2) / U) with 2 by (vm_compute; reflexivity).
    rewrite Z0. reflexivity.
  - rewrite rainbow_palette_rotate
      by (apply T; try (vm_compute; reflexivity); vm_compute; discriminate).
    replace (fading d_half) with d_half by (vm_compute; reflexivity).
    replace (fmod d_half d_1) with d_half by (vm_compute; reflexivity).
    replace (val d_half / U) with 0 by (vm_compute; reflexivity).
    reflexivity.
Qed.

(** Where the sum [t + 3.0] is rounded the triples can differ in the last
    place: for a time [t] just above zero the green channel at the
    rounded sum is the next [float] above the one at [t] (luminosity
    0.1f). *)
Lemma period_broken_by_rounding :
  F64.valid t_rounded = true /\
  SFleb d_0 t_rounded = true /\
  rainbow_palette t_rounded f_0_1
  = Some (S754_finite false 9227469 (-23),
          S754_finite false 13421773 (-27),
          S754_finite false 13421773 (-27)) /\
  rainbow_palette (F64.add t_rounded d_3) f_0_1
  = Some (S754_finite false 9227469 (-23),
          S754_finite false 13421774 (-27),
          S754_finite false 13421773 (-27)) /\
  rainbow_palette (F64.add t_rounded d_3) f_0_1 <> rainbow_palette t_rounded f_0_1.
Proof.
  vm_compute. repeat split; discriminate.
Qed.

Lemma fading_of_fmod (t t' : double) :
  fmod t' d_1 = fmod t d_1 -> fading t' = fading t.
Proof. unfold fading. intros ->. reflexivity. Qed.

(** Exact periodicity.  For two times [t] and [t'] that are zero or
    positive and below 2^63, with [t'] exactly [t + 3], and for every
    luminosity (every [float], in fact): the body of [call_rainbow]
    yields the same triple at [t'] as at [t]. *)
Lemma rainbow_periodic (t t' : double) (L : float) :
  F64.valid t = true -> SFleb d_0 t = true -> SFltb t d_2p63 = true ->
  t <> S754_zero true ->
  F64.valid t' = true -> SFleb d_0 t' = true -> SFltb t' d_2p63 = true ->
  t' <> S754_zero true ->
  (SF2Q t' == SF2Q t + 3)%Q ->
  rainbow_palette t' L = rainbow_palette t L.
Proof.
  intros V A0 A1 Az V' B0 B1 Bz E.
  pose proof (time_arg_of_compare t V A0 A1 Az) as T.
  pose proof (time_arg_of_compare t' V' B0 B1 Bz) as T'.
  pose proof U_pos as HU.
  destruct T as (_ & F & _). destruct T' as (_ & F' & _).
  assert (Ev : val t' = val t + 3 * U).
  { rewrite (SF2Q_val t' false F'), (SF2Q_val t false F) in E.
    change 3%Q with (inject_Z 3 * 1)%Q in E.
    rewrite Qone_Upos, Qscale_units, Qplus_units in E.
    apply Qeq_units_inv in E. lia. }
  rewrite (rainbow_palette_rotate t' L (time_arg_of_compare t' V' B0 B1 Bz)).
  rewrite (rainbow_palette_rotate t L (time_arg_of_compare t V A0 A1 Az)).
  destruct (fmod_one t V F) as (Ff & Vf & Ef).
  destruct (fmod_one t' V' F') as (Ff' & Vf' & Ef').
  assert (Em : fmod t' d_1 = fmod t d_1).
  { apply (val_inj F64.prec F64.emax F64_prec F64_emax F64_K _ _ false);
      try assumption.
    rewrite Ef, Ef', Ev. apply Z.mod_add. lia. }
  rewrite (fading_of_fmod t t' Em), Em, Ev.
  rewrite Z.div_add by lia. rewrite rotate_period. reflexivity.
Qed.

Lemma near_Q (delta : Z) (x y : float) :
  near delta x y ->
  (Qabs (SF2Q x - SF2Q y) <= (delta # Upos) + (1 # (2 ^ 19)))%Q.
Proof.
  intros (Fx & Fy & H).
  rewrite (SF2Q_val x false Fx), (SF2Q_val y false Fy).
  rewrite Qminus_units, Qabs_units.
  assert (E : ((Z.abs (val x - val y) # Upos)
               == (delta # Upos) + ((Z.abs (val x - val y) - delta) # Upos))%Q).
  { rewrite Qplus_units. replace (delta + (Z.abs (val x - val y) - delta))
      with (Z.abs (val x - val y)) by lia. reflexivity. }
  rewrite E. apply Qplus_le_r.
  apply Qle_pow2_units. rewrite <- U_Upos.
  change (Zpos (2 ^ 19)) with (2 ^ 19). exact H.
Qed.

Lemma callable_time_arg (t : double) : callable t -> time_arg t.
Proof. intros (V & H0 & H1 & Hz). now apply time_arg_of_compare. Qed.

Lemma callable_closed (t : double) :
  F64.valid t && SFleb d_0 t && SFltb t d_2p63
  && negb (SFeqb t d_0 && match t with S754_zero true => true | _ => false end)
  = true ->
  callable t.
Proof.
  intros H. apply andb_true_iff in H. destruct H as [H Hz].
  apply andb_true_iff in H. destruct H as [H H2].
  apply andb_true_iff in H. destruct H as [H0 H1].
  unfold callable. repeat (split; [assumption|]).
  intros ->. rewrite d_0_bits in Hz. discriminate Hz.
Qed.

(** ** More on the argument loop *)

(** X1. Whatever the command line, a configuration with which [main]
    goes on to open the display has a speed that the test of [-s] lets
    through and a luminosity that the test of [-l] lets through. *)
Theorem parsed_config_passes_tests
    (atof : string -> double) (args : list string) (cfg : RunConfig) :
  parse_args atof args default_config = Parsed cfg ->
  speed_rejected (speed cfg) = false /\
  luminosity_rejected (luminosity cfg) = false.
Proof.
  intros H. destruct (parse_args_accepts atof args _ _ H) as [[S|S] [L|L]];
    rewrite ?S, ?L; split; try assumption; reflexivity.
Qed.

Lemma parsed_config_passes_tests_witness :
  speed_rejected (speed two_seconds) = false /\
  luminosity_rejected (luminosity two_seconds) = false.
Proof.
  apply (parsed_config_passes_tests atof_table ["-t"%string; "2"%string]).
  reflexivity.
Defined.

Lemma main_exits_in_args (atof : string -> double) (argv : list string)
    (inputs : list input) (ev : event) (code : exit_status) :
  after_args (parse_args atof (tl argv) default_config)
  = (default_config, boot (PcDone (Exited code)) [ev]) ->
  main atof argv inputs = boot (PcDone (Exited code)) [ev].
Proof.
  intros E. unfold main. rewrite E.
  now apply exec_done with (s := Exited code).
Qed.

(** X2. A help flag that the argument loop reaches prints the usage text
    and exits with success, and a version flag prints the version and
    exits with success, whatever follows on the command line (invalid
    values included); nothing else happens. *)
Theorem help_and_version_exit
    (atof : string -> double) (prog : string) (pre rest : list string)
    (a : string) (cfg : RunConfig) (inputs : list input) :
  parse_args atof pre default_config = Parsed cfg ->
  (is_flag "-h" "--help" a = true ->
   main atof (prog :: pre ++ a :: rest) inputs
   = boot (PcDone (Exited EXIT_SUCCESS)) [PrintUsage]) /\
  (is_flag "-h" "--help" a = false -> is_flag "-v" "--version" a = true ->
   main atof (prog :: pre ++ a :: rest) inputs
   = boot (PcDone (Exited EXIT_SUCCESS)) [PrintVersion]).
Proof.
  intros Hpre. split.
  - intros Ha. apply main_exits_in_args. cbn [tl].
    rewrite (parse_args_app atof pre (a :: rest) _ _ Hpre).
    cbn [parse_args]. rewrite Ha. reflexivity.
  - intros Hh Ha. apply main_exits_in_args. cbn [tl].
    rewrite (parse_args_app atof pre (a :: rest) _ _ Hpre).
    cbn [parse_args]. rewrite Hh, Ha. reflexivity.
Qed.

Lemma help_and_version_exit_witness :
  main atof_table ["xrainbow"; "-t"; "2"; "--help"; "-s"; "0"]%string []
  = boot (PcDone (Exited EXIT_SUCCESS)) [PrintUsage] /\
  main atof_table ["xrainbow"; "-t"; "2"; "-v"; "-s"; "0"]%string []
  = boot (PcDone (Exited EXIT_SUCCESS)) [PrintVersion].
Proof.
  split.
  - apply (help_and_version_exit atof_table "xrainbow" ["-t"; "2"]%string
             ["-s"; "0"]%string "--help" two_seconds []); reflexivity.
  - apply (help_and_version_exit atof_table "xrainbow" ["-t"; "2"]%string
             ["-s"; "0"]%string "-v" two_seconds []); reflexivity.
Defined.

(** X3. After arguments that the argument loop gets through (flags
    together with their values, all accepted), a last argument that is
    neither a help nor a version flag ends the program with the usage
    text and the failure status: a flag whose value is missing, or any
    other word. *)
Theorem trailing_argument_rejected
    (atof : string -> double) (prog : string) (pre : list string)
    (a : string) (cfg : RunConfig) (inputs : list input) :
  parse_args atof pre default_config = Parsed cfg ->
  is_flag "-h" "--help" a = false ->
  is_flag "-v" "--version" a = false ->
  main atof (prog :: pre ++ [a]) inputs
  = boot (PcDone (Exited EXIT_FAILURE)) [PrintUsage].
Proof.
  intros Hpre Hh Hv. apply main_exits_in_args. cbn [tl].
  rewrite (parse_args_app atof pre [a] _ _ Hpre).
  cbn [parse_args]. rewrite Hh, Hv. reflexivity.
Qed.

Lemma trailing_argument_rejected_witness :
  main atof_table ["xrainbow"; "-t"; "2"; "-s"]%string [Go (at_time 5 0)]
  = boot (PcDone (Exited EXIT_FAILURE)) [PrintUsage].
Proof.
  apply (trailing_argument_rejected atof_table "xrainbow" ["-t"; "2"]%string
           "-s" two_seconds); reflexivity.
Defined.

(** X4. A word that is none of the five flags, reached by the argument
    loop, ends the program with the usage text and the failure status,
    whatever follows it. *)
Theorem unknown_flag_rejected
    (atof : string -> double) (prog : string) (pre rest : list string)
    (a : string) (cfg : RunConfig) (inputs : list input) :
  parse_args atof pre default_config = Parsed cfg ->
  is_flag "-h" "--help" a = false ->
  is_flag "-v" "--version" a = false ->
  is_flag "-t" "--time-limit" a = false ->
  is_flag "-l" "--luminosity" a = false ->
  is_flag "-s" "--speed" a = false ->
  main atof (prog :: pre ++ a :: rest) inputs
  = boot (PcDone (Exited EXIT_FAILURE)) [PrintUsage].
Proof.
  intros Hpre Hh Hv Ht Hl Hs. apply main_exits_in_args. cbn [tl].
  rewrite (parse_args_app atof pre (a :: rest) _ _ Hpre).
  cbn [parse_args]. rewrite Hh, Hv.
  destruct rest as [|v rest]; [reflexivity|]. rewrite Ht, Hl, Hs. reflexivity.
Qed.

Lemma unknown_flag_rejected_witness :
  main atof_table ["xrainbow"; "-t"; "2"; "--fast"; "-h"]%string []
  = boot (PcDone (Exited EXIT_FAILURE)) [PrintUsage].
Proof.
  apply (unknown_flag_rejected atof_table "xrainbow" ["-t"; "2"]%string
           ["-h"]%string "--fast" two_seconds); reflexivity.
Defined.

(** X5. A value flag and its value at the end of a command line that the
    loop gets through set their field and leave the two others as the
    arguments before them made them: a later flag overrides an earlier
    one.  The time limit takes any value; the speed and the luminosity
    take the values that pass their tests. *)
Theorem value_flag_sets_field
    (atof : string -> double) (pre : list string) (a v : string)
    (cfg : RunConfig) :
  parse_args atof pre default_config = Parsed cfg ->
  (is_flag "-t" "--time-limit" a = true ->
   parse_args atof (pre ++ [a; v]) default_config
   = Parsed (mkConfig (atof v) (speed cfg) (luminosity cfg))) /\
  (is_flag "-l" "--luminosity" a = true ->
   luminosity_rejected (float_of_double (atof v)) = false ->
   parse_args atof (pre ++ [a; v]) default_config
   = Parsed (mkConfig (time_limit cfg) (speed cfg) (float_of_double (atof v)))) /\
  (is_flag "-s" "--speed" a = true ->
   speed_rejected (atof v) = false ->
   parse_args atof (pre ++ [a; v]) default_config
   = Parsed (mkConfig (time_limit cfg) (atof v) (luminosity cfg))).
Proof.
  intros Hpre.
  rewrite (parse_args_app atof pre [a; v] _ _ Hpre).
  split; [|split].
  - intros Ha. apply is_flag_inv in Ha. destruct Ha as [-> | ->]; reflexivity.
  - intros Ha Hv. apply is_flag_inv in Ha.
    destruct Ha as [-> | ->]; cbn [parse_args]; cbn; rewrite Hv; reflexivity.
  - intros Ha Hv. apply is_flag_inv in Ha.
    destruct Ha as [-> | ->]; cbn [parse_args]; cbn; rewrite Hv; reflexivity.
Qed.

Lemma value_flag_sets_field_witness :
  parse_args atof_table ["-t"; "2"; "-t"; "-1"]%string default_config
  = Parsed (mkConfig (F64.of_Z (-1)) (speed two_seconds) (luminosity two_seconds)).
Proof.
  apply (value_flag_sets_field atof_table ["-t"; "2"]%string "-t" "-1" two_seconds);
    reflexivity.
Defined.

(** ** All runs *)

Lemma close_at_end (tr tr1 tr2 : list event) (e1 e2 : event) :
  no_close tr -> e1 <> XCloseDisplay -> e2 <> XCloseDisplay ->
  tr ++ [e1; e2; XCloseDisplay] = tr1 ++ XCloseDisplay :: tr2 ->
  tr2 = [] /\ tr1 = tr ++ [e1; e2].
Proof.
  intros Hc H1 H2 E.
  assert (Hn : no_close (tr ++ [e1; e2])).
  { unfold no_close in *. intros Hin. apply in_app_or in Hin.
    destruct Hin as [Hin|[Hin|[Hin|[]]]]; [auto | congruence | congruence]. }
  destruct tr2 as [|x tr2].
  - split; [reflexivity|].
    change (tr ++ [e1; e2; XCloseDisplay]) with (tr ++ [e1; e2] ++ [XCloseDisplay]) in E.
    rewrite app_assoc in E. apply app_inj_tail in E. symmetry. tauto.
  - exfalso. destruct (exists_last (l := x :: tr2)) as (q & z & Eq); [discriminate|].
    rewrite Eq in E.
    change (tr ++ [e1; e2; XCloseDisplay]) with (tr ++ [e1; e2] ++ [XCloseDisplay]) in E.
    rewrite app_assoc in E.
    change (tr1 ++ XCloseDisplay :: q ++ [z]) with (tr1 ++ (XCloseDisplay :: q) ++ [z]) in E.
    rewrite (app_assoc tr1) in E. apply app_inj_tail in E. destruct E as [E _].
    apply Hn. rewrite E. apply in_or_app. right. left. reflexivity.
Qed.

(** X6. In every run of the program after the argument loop, whatever
    the environment answers and whenever signals arrive:
    [quit_application] runs at most once; the display is released at
    most once, as the last thing the process does, right after a
    successful request of the neutral gamma (1.0, 1.0, 1.0) and its
    flush; and a process that has released the display has ended. *)
Theorem display_released_once (cfg : RunConfig) (inputs : list input) :
  let st := exec cfg inputs (boot PcOpenDisplay []) in
  (teardowns st <= 1)%nat /\
  (forall tr1 tr2,
     trace st = tr1 ++ XCloseDisplay :: tr2 ->
     tr2 = [] /\ no_close tr1 /\
     exists tr0, tr1 = tr0 ++ [XF86VidModeSetGamma f_1 f_1 f_1 true; XFlush]) /\
  (In XCloseDisplay (trace st) -> exists s, st_pc st = PcDone s).
Proof.
  intros st.
  assert (W : wf st) by (apply wf_exec, wf_boot).
  assert (D : (teardowns st = 0%nat /\ no_close (trace st)) \/
              (exists s, st_pc st = PcDone s) /\ teardowns st = 1%nat /\
              exists tr ok, trace st = tr ++ neutral_tail ok /\ no_close tr).
  { unfold wf in W. destruct (st_pc st) eqn:Hpc; try (left; tauto).
    destruct W as [W|W]; [left; exact W|right].
    split; [eexists; reflexivity|exact W]. }
  split; [|split].
  - destruct D as [[-> _]|(_ & -> & _)]; lia.
  - intros tr1 tr2 E.
    destruct D as [[_ Hc]|(_ & _ & tr & ok & Et & Hc)].
    + exfalso. apply Hc. rewrite E. apply in_or_app. right. left. reflexivity.
    + rewrite Et in E. destruct ok; unfold neutral_tail in E.
      * apply close_at_end in E; try assumption; try discriminate.
        destruct E as [-> ->]. split; [reflexivity|]. split; [|eexists; reflexivity].
        unfold no_close in *. intros Hin. apply in_app_or in Hin.
        destruct Hin as [Hin|[Hin|[Hin|[]]]]; [auto | discriminate | discriminate].
      * exfalso.
        assert (Hin : In XCloseDisplay
                        (tr ++ [XF86VidModeSetGamma f_1 f_1 f_1 false; Diagnostic])).
        { rewrite E. apply in_or_app. right. left. reflexivity. }
        apply in_app_or in Hin.
        destruct Hin as [Hin|[Hin|[Hin|[]]]]; [auto | discriminate | discriminate].
  - intros Hin. destruct D as [[_ Hc]|(Hs & _)]; [contradiction|exact Hs].
Qed.

Lemma opened_app (tr : list event) (e : event) :
  ~ opened tr -> e <> XOpenDisplay true -> ~ opened (tr ++ [e]).
Proof.
  unfold opened. intros H He Hin. apply in_app_or in Hin.
  destruct Hin as [Hin|[Hin|[]]]; [auto | congruence].
Qed.

Lemma exit_inv_step (cfg : RunConfig) (i : input) (st : state) :
  wf st -> exit_inv st -> exit_inv (step cfg i st).
Proof.
  intros W H. unfold step.
  destruct (st_pc st) eqn:Hpc; try exact H;
    (destruct i as [|a];
     [ unfold deliver, exit_inv in *; rewrite Hpc in H;
       destruct (handlers st) eqn:Hh; simpl; rewrite ?Hpc; simpl; exact H || exact I
     | ]).
  all: unfold advance; rewrite Hpc; unfold wf in W; rewrite Hpc in W;
    unfold exit_inv in H; rewrite Hpc in H.
  - destruct (x_ok a); unfold exit_inv; simpl; [exact I|].
    intros _. repeat (apply opened_app; [|discriminate]). exact H.
  - exact I.
  - destruct W as (Hd & Ha & Hh & Ht & Hc).
    unfold with_time. destruct (get_time (clock a)); unfold exit_inv; simpl;
      [exact I | congruence].
  - destruct W as (Hd & Ha & Hh & Ht & Hc).
    destruct (unbounded (time_limit cfg)); [exact I|].
    unfold with_time. destruct (get_time (clock a)).
    + destruct (within_limit _ _ _); exact I.
    + unfold exit_inv; simpl; congruence.
  - destruct W as (Hd & Ha & Hh & Ht & Hc).
    unfold with_time. destruct (get_time (clock a)).
    + unfold call_rainbow.
      destruct (rainbow_palette _ _) as [[[r g] b]|]; [|exact I].
      unfold change_gamma. simpl.
      destruct (change_gamma_assert r g b); simpl; [|exact I].
      destruct (x_ok a); unfold exit_inv; simpl; [exact I | congruence].
    + unfold exit_inv; simpl; congruence.
  - exact I.
  - destruct (pending_quit st); exact I.
  - destruct W as (Hd & Ha & Hh & Ht & Hc). unfold exit_inv; simpl. congruence.
  - destruct W as (Hd & Ht & Hc).
    destruct (atexit_quit st) eqn:Ha.
    + destruct (quit_application_spec code a st (Hd eq_refl))
        as (Ep & Et & En & Ex).
      unfold exit_inv. rewrite Ep. unfold teardown_status. right.
      split; [rewrite En, Ht; reflexivity|].
      exists (trace st), (x_ok a), code. auto.
    + unfold exit_inv; simpl. left. auto.
Qed.

Lemma exit_inv_exec (cfg : RunConfig) (inputs : list input) (st : state) :
  wf st -> exit_inv st -> exit_inv (exec cfg inputs st).
Proof.
  revert st. induction inputs as [|i inputs IH]; intros st W H; simpl; [exact H|].
  apply IH; [now apply wf_step | now apply exit_inv_step].
Qed.

(** X7. A process that opened the display and ended by [exit] or by the
    return of [main] has run [quit_application] once: the last thing in
    its trace is the request of the neutral gamma with, on success, the
    flush and the release of the display.  If its exit status is success
    the request has succeeded and the display is released. *)
Theorem exit_resets_gamma (cfg : RunConfig) (inputs : list input) (code : exit_status) :
  let st := exec cfg inputs (boot PcOpenDisplay []) in
  st_pc st = PcDone (Exited code) ->
  opened (trace st) ->
  teardowns st = 1%nat /\
  exists tr ok,
    trace st = tr ++ neutral_tail ok /\
    x11_display st = negb ok /\
    (code = EXIT_SUCCESS -> ok = true).
Proof.
  intros st Hpc Ho.
  assert (H : exit_inv st).
  { apply exit_inv_exec; [apply wf_boot|]. unfold exit_inv, opened; simpl. auto. }
  unfold exit_inv in H. rewrite Hpc in H.
  destruct H as [H|(Ht & tr & ok & c0 & Et & Ec & Ex)]; [contradiction|].
  split; [exact Ht|]. exists tr, ok. repeat split; try assumption.
  intros ->. destruct ok; [reflexivity|discriminate].
Qed.

Lemma exit_resets_gamma_witness :
  let st := exec two_seconds
              [Go (at_time 5 0); Go (at_time 5 0); Go (mkAnswer None true);
               Go (at_time 5 0)]
              (boot PcOpenDisplay []) in
  teardowns st = 1%nat /\
  exists tr ok,
    trace st = tr ++ neutral_tail ok /\
    x11_display st = negb ok /\
    (EXIT_FAILURE = EXIT_SUCCESS -> ok = true).
Proof.
  apply (exit_resets_gamma two_seconds
           [Go (at_time 5 0); Go (at_time 5 0); Go (mkAnswer None true);
            Go (at_time 5 0)] EXIT_FAILURE).
  - reflexivity.
  - left. reflexivity.
Defined.

(** X8. When the display cannot be opened the program prints a
    diagnostic and ends with the failure status at its next step: no
    gamma request is made and [quit_application], which is not
    registered yet, does not run. *)
Theorem open_failure_exits (cfg : RunConfig) (a b : answer) (rest : list input) :
  x_ok a = false ->
  exec cfg (Go a :: Go b :: rest) (boot PcOpenDisplay [])
  = boot (PcDone (Exited EXIT_FAILURE)) [XOpenDisplay false; Diagnostic].
Proof.
  intros Ha. cbn [exec].
  assert (E1 : step cfg (Go a) (boot PcOpenDisplay [])
               = boot (PcExit EXIT_FAILURE) [XOpenDisplay false; Diagnostic]).
  { unfold step, advance. simpl. rewrite Ha. reflexivity. }
  rewrite E1.
  assert (E2 : step cfg (Go b) (boot (PcExit EXIT_FAILURE) [XOpenDisplay false; Diagnostic])
               = boot (PcDone (Exited EXIT_FAILURE)) [XOpenDisplay false; Diagnostic])
    by reflexivity.
  rewrite E2. now apply exec_done with (s := Exited EXIT_FAILURE).
Qed.

Lemma open_failure_exits_witness :
  exec two_seconds [Go (mkAnswer None false); Go (at_time 5 0); Signal]
    (boot PcOpenDisplay [])
  = boot (PcDone (Exited EXIT_FAILURE)) [XOpenDisplay false; Diagnostic].
Proof.
  apply (open_failure_exits two_seconds (mkAnswer None false) (at_time 5 0) [Signal]).
  reflexivity.
Defined.

Lemma exit_failure_step (cfg : RunConfig) (b : answer) (st : state) (tr : list event) :
  x11_display st = true -> atexit_quit st = true -> teardowns st = 0%nat ->
  let st1 := set_pc (PcExit EXIT_FAILURE)
               (mkState (st_pc st) (x11_display st) (pending_quit st) (handlers st)
                        (atexit_quit st) (start_time st) (teardowns st) tr) in
  let st' := step cfg (Go b) st1 in
  st_pc st' = PcDone (Exited EXIT_FAILURE) /\
  trace st' = tr ++ neutral_tail (x_ok b) /\
  teardowns st' = 1%nat.
Proof.
  intros Hd Ha Ht st1 st'.
  assert (E : st' = quit_application EXIT_FAILURE b st1).
  { unfold st', step, advance, st1. simpl. rewrite Ha. reflexivity. }
  destruct (quit_application_spec EXIT_FAILURE b st1 Hd) as (Ep & Et & En & _).
  rewrite E, Ep, Et, En. unfold st1; simpl. rewrite Ht.
  unfold teardown_status. destruct (x_ok b); auto.
Qed.

(** X9. When [clock_gettime] fails at any of the three calls of
    [get_time] (the start time, the loop condition of a run with a time
    limit, the call of [call_rainbow]), the program prints a diagnostic
    and exits with the failure status; the [exit] runs
    [quit_application], so the neutral gamma is requested before the
    process ends. *)
Theorem clock_failure_tears_down (cfg : RunConfig) (pre : list input) (a b : answer) :
  let st := exec cfg pre (boot PcOpenDisplay []) in
  st_pc st = PcStartTime \/
  (st_pc st = PcLoopCond /\ unbounded (time_limit cfg) = false) \/
  st_pc st = PcCallRainbow ->
  clock a = None ->
  let st' := exec cfg [Go a; Go b] st in
  st_pc st' = PcDone (Exited EXIT_FAILURE) /\
  trace st' = trace st ++ [ClockGettime false; Diagnostic] ++ neutral_tail (x_ok b) /\
  teardowns st' = 1%nat.
Proof.
  intros st Hpc Hc st'.
  assert (W : wf st) by (apply wf_exec, wf_boot).
  assert (F : x11_display st = true /\ atexit_quit st = true /\ teardowns st = 0%nat).
  { unfold wf in W.
    destruct Hpc as [Hpc|[[Hpc _]|Hpc]]; rewrite Hpc in W; tauto. }
  destruct F as (Hd & Ha & Ht).
  assert (E : step cfg (Go a) st
              = set_pc (PcExit EXIT_FAILURE)
                  (mkState (st_pc st) (x11_display st) (pending_quit st) (handlers st)
                     (atexit_quit st) (start_time st) (teardowns st)
                     ((trace st ++ [ClockGettime false]) ++ [Diagnostic]))).
  { unfold step, advance, with_time.
    destruct Hpc as [Hpc|[[Hpc Hu]|Hpc]]; rewrite Hpc, ?Hu, Hc; reflexivity. }
  unfold st'. cbn [exec]. rewrite E.
  rewrite (app_assoc (trace st) [ClockGettime false; Diagnostic]).
  change (trace st ++ [ClockGettime false; Diagnostic])
    with (trace st ++ [ClockGettime false] ++ [Diagnostic]).
  rewrite (app_assoc (trace st)).
  apply (exit_failure_step cfg b st _ Hd Ha Ht).
Qed.

Lemma clock_failure_tears_down_witness :
  let st := exec two_seconds [Go (at_time 5 0); Go (at_time 5 0)]
              (boot PcOpenDisplay []) in
  let st' := exec two_seconds [Go (mkAnswer None true); Go (at_time 5 0)] st in
  st_pc st' = PcDone (Exited EXIT_FAILURE) /\
  trace st' = trace st ++ [ClockGettime false; Diagnostic] ++ neutral_tail true /\
  teardowns st' = 1%nat.
Proof.
  apply (clock_failure_tears_down two_seconds [Go (at_time 5 0); Go (at_time 5 0)]
           (mkAnswer None true) (at_time 5 0)).
  - left. reflexivity.
  - reflexivity.
Defined.

(** X10. When the gamma request of [call_rainbow] fails, the program
    prints a diagnostic and exits with the failure status without a
    flush; the [exit] runs [quit_application], which requests the
    neutral gamma once more before the process ends. *)
Theorem gamma_failure_tears_down
    (cfg : RunConfig) (pre : list input) (a b : answer) (now : double) (r g bl : float) :
  let st := exec cfg pre (boot PcOpenDisplay []) in
  st_pc st = PcCallRainbow ->
  get_time (clock a) = Some now ->
  rainbow_palette (F64.mul (elapsed now (start_time st)) (speed cfg)) (luminosity cfg)
  = Some (r, g, bl) ->
  change_gamma_assert r g bl = true ->
  x_ok a = false ->
  let st' := exec cfg [Go a; Go b] st in
  st_pc st' = PcDone (Exited EXIT_FAILURE) /\
  trace st' = trace st ++ [ClockGettime true; XF86VidModeSetGamma r g bl false; Diagnostic]
                       ++ neutral_tail (x_ok b) /\
  teardowns st' = 1%nat.
Proof.
  intros st Hpc Hnow Hp Has Hx st'.
  assert (W : wf st) by (apply wf_exec, wf_boot).
  unfold wf in W. rewrite Hpc in W. destruct W as (Hd & Ha & Hh & Ht & _).
  assert (E : step cfg (Go a) st
              = set_pc (PcExit EXIT_FAILURE)
                  (mkState (st_pc st) (x11_display st) (pending_quit st) (handlers st)
                     (atexit_quit st) (start_time st) (teardowns st)
                     (((trace st ++ [ClockGettime true])
                       ++ [XF86VidModeSetGamma r g bl false]) ++ [Diagnostic]))).
  { unfold step, advance, with_time. rewrite Hpc, Hnow.
    unfold call_rainbow. cbn [start_time emit]. rewrite Hp.
    unfold change_gamma. rewrite Has, Hx. reflexivity. }
  unfold st'. cbn [exec]. rewrite E.
  rewrite (app_assoc (trace st)
             [ClockGettime true; XF86VidModeSetGamma r g bl false; Diagnostic]).
  change (trace st ++ [ClockGettime true; XF86VidModeSetGamma r g bl false; Diagnostic])
    with (trace st ++ [ClockGettime true] ++ [XF86VidModeSetGamma r g bl false]
            ++ [Diagnostic]).
  rewrite !(app_assoc (trace st)). rewrite !app_assoc.
  apply (exit_failure_step cfg b st _ Hd Ha Ht).
Qed.

Lemma gamma_failure_tears_down_witness :
  let L := luminosity default_config in
  let st := exec default_config
              [Go (at_time 5 0); Go (at_time 5 0); Go (at_time 5 0); Go (at_time 5 0)]
              (boot PcOpenDisplay []) in
  let st' := exec default_config
               [Go (mkAnswer (Some (5, 0)) false); Go (at_time 5 0)] st in
  st_pc st' = PcDone (Exited EXIT_FAILURE) /\
  trace st' = trace st ++ [ClockGettime true;
                           XF86VidModeSetGamma (boost L d_1) L L false; Diagnostic]
                       ++ neutral_tail true /\
  teardowns st' = 1%nat.
Proof.
  intros L.
  apply (gamma_failure_tears_down default_config
           [Go (at_time 5 0); Go (at_time 5 0); Go (at_time 5 0); Go (at_time 5 0)]
           (mkAnswer (Some (5, 0)) false) (at_time 5 0)
           (F64.add (F64.of_Z 5) (F64.div (F64.of_Z 0) d_1e9))).
  - reflexivity.
  - reflexivity.
  - vm_compute. reflexivity.
  - vm_compute. reflexivity.
  - reflexivity.
Defined.

(** X11. A failed assertion of [change_gamma] inside [call_rainbow]
    aborts the process on the spot: no request is made, and since
    [abort] does not run the [atexit] handlers, [quit_application] does
    not run; the gamma ramp stays as the last request left it and the
    display is not released. *)
Theorem assertion_failure_aborts
    (cfg : RunConfig) (st : state) (a : answer) (rest : list input)
    (now : double) (r g b : float) :
  st_pc st = PcCallRainbow ->
  get_time (clock a) = Some now ->
  rainbow_palette (F64.mul (elapsed now (start_time st)) (speed cfg)) (luminosity cfg)
  = Some (r, g, b) ->
  change_gamma_assert r g b = false ->
  let st' := exec cfg (Go a :: rest) st in
  st_pc st' = PcDone Aborted /\
  trace st' = trace st ++ [ClockGettime true; AssertionFailed] /\
  teardowns st' = teardowns st /\
  x11_display st' = x11_display st.
Proof.
  intros Hpc Hnow Hp Has st'.
  assert (E : step cfg (Go a) st
              = set_pc (PcDone Aborted)
                  (mkState (st_pc st) (x11_display st) (pending_quit st) (handlers st)
                     (atexit_quit st) (start_time st) (teardowns st)
                     ((trace st ++ [ClockGettime true]) ++ [AssertionFailed]))).
  { unfold step, advance, with_time. rewrite Hpc, Hnow.
    unfold call_rainbow. cbn [start_time emit]. rewrite Hp.
    unfold change_gamma. rewrite Has. reflexivity. }
  unfold st'. cbn [exec]. rewrite E.
  rewrite (exec_done cfg rest _ Aborted) by reflexivity.
  cbn. rewrite <- app_assoc. auto.
Qed.

Lemma assertion_failure_aborts_witness :
  let cfg := mkConfig d_m1 d_1 (float_of_double (atof_table "9.5")) in
  let st := exec cfg
              [Go (at_time 5 0); Go (at_time 5 0); Go (at_time 5 0); Go (at_time 5 0)]
              (boot PcOpenDisplay []) in
  let st' := exec cfg [Go (at_time 5 0); Go (at_time 6 0); Signal] st in
  st_pc st' = PcDone Aborted /\
  trace st' = trace st ++ [ClockGettime true; AssertionFailed] /\
  teardowns st' = teardowns st /\
  x11_display st' = x11_display st.
Proof.
  intros cfg st.
  apply (assertion_failure_aborts cfg st (at_time 5 0) [Go (at_time 6 0); Signal]
           (F64.add (F64.of_Z 5) (F64.div (F64.of_Z 0) d_1e9))
           (F32.lit 105 10) (luminosity cfg) (luminosity cfg)).
  - reflexivity.
  - reflexivity.
  - vm_compute. reflexivity.
  - vm_compute. reflexivity.
Defined.

Lemma loop_only_step (cfg : RunConfig) (a : answer) (st : state) :
  SFltb (time_limit cfg) d_0 = true ->
  loop_only st -> loop_only (step cfg (Go a) st).
Proof.
  intros Hneg [Hq H]. unfold step.
  destruct (st_pc st) eqn:Hpc; try contradiction;
    try (unfold loop_only; rewrite Hpc; tauto).
  all: unfold advance; rewrite Hpc.
  - unfold unbounded. rewrite Hneg. unfold loop_only; simpl. tauto.
  - unfold with_time. destruct (get_time (clock a)).
    + unfold call_rainbow.
      destruct (rainbow_palette _ _) as [[[r g] b]|];
        [|unfold loop_only; simpl; split; [assumption|discriminate]].
      unfold change_gamma. simpl.
      destruct (change_gamma_assert r g b); simpl;
        [|unfold loop_only; simpl; split; [assumption|discriminate]].
      destruct (x_ok a); unfold loop_only; simpl; tauto.
    + unfold loop_only; simpl; tauto.
  - unfold loop_only; simpl; tauto.
  - rewrite Hq. unfold loop_only; simpl; tauto.
  - destruct code; try contradiction.
    destruct (atexit_quit st).
    + unfold quit_application, change_gamma. rewrite neutral_in_range.
      simpl negb. cbv iota.
      destruct (x_ok a); simpl.
      * destruct (x11_display st); unfold loop_only; simpl;
          (split; [assumption|discriminate]).
      * unfold loop_only; simpl; split; [assumption|discriminate].
    + unfold loop_only; simpl; split; [assumption|discriminate].
Qed.

(** X12. With a negative time limit (the default) the loop is left only
    by a signal or by a failure: as long as no signal arrives, a process
    in the loop never reaches the return of [main] and never ends with
    the success status, however long it runs. *)
Theorem unbounded_loop_never_returns
    (cfg : RunConfig) (st : state) (inputs : list input) :
  SFltb (time_limit cfg) d_0 = true ->
  in_loop (st_pc st) = true ->
  pending_quit st = false ->
  forallb is_go inputs = true ->
  let st' := exec cfg inputs st in
  st_pc st' <> PcReturn /\
  st_pc st' <> PcExit EXIT_SUCCESS /\
  st_pc st' <> PcDone (Exited EXIT_SUCCESS).
Proof.
  intros Hneg L Q G st'.
  assert (H : loop_only st').
  { unfold st'. clear st'.
    assert (H0 : loop_only st).
    { split; [exact Q|]. destruct (st_pc st); try discriminate L; exact I. }
    clear L Q. revert st H0 G.
    induction inputs as [|i inputs IH]; intros st H0 G; simpl; [exact H0|].
    simpl in G. apply andb_true_iff in G. destruct G as [Gi G].
    destruct i as [|a]; [discriminate Gi|].
    apply IH; [|exact G]. now apply loop_only_step. }
  destruct H as [_ H].
  destruct (st_pc st') as [| | | | | | | |c|s]; try contradiction;
    repeat split; try discriminate.
  - destruct c; [contradiction|discriminate].
  - congruence.
Qed.

Lemma unbounded_loop_never_returns_witness :
  let st := exec default_config
              [Go (at_time 5 0); Go (at_time 5 0); Go (at_time 5 0)]
              (boot PcOpenDisplay []) in
  let st' := exec default_config
               [Go (at_time 5 0); Go (at_time 5 500000000); Go (at_time 6 0);
                Go (at_time 6 0); Go (at_time 6 0)] st in
  st_pc st' <> PcReturn /\
  st_pc st' <> PcExit EXIT_SUCCESS /\
  st_pc st' <> PcDone (Exited EXIT_SUCCESS).
Proof.
  apply (unbounded_loop_never_returns default_config
           (exec default_config
              [Go (at_time 5 0); Go (at_time 5 0); Go (at_time 5 0)]
              (boot PcOpenDisplay []))
           [Go (at_time 5 0); Go (at_time 5 500000000); Go (at_time 6 0);
            Go (at_time 6 0); Go (at_time 6 0)]); reflexivity.
Defined.

(** X13. With a NaN as time limit (as [atof] returns for "nan") the
    loop condition is false at its first evaluation, since both of its
    comparisons are: the loop body never runs and [main] returns. *)
Theorem nan_time_limit_skips_loop
    (cfg : RunConfig) (st : state) (a : answer) (now : double) :
  time_limit cfg = S754_nan ->
  st_pc st = PcLoopCond ->
  get_time (clock a) = Some now ->
  st_pc (step cfg (Go a) st) = PcReturn /\
  trace (step cfg (Go a) st) = trace st ++ [ClockGettime true].
Proof.
  intros Hl Hpc Hnow.
  assert (Hu : unbounded (time_limit cfg) = false) by (rewrite Hl; reflexivity).
  rewrite (advance_loop_cond_bounded cfg a st now Hpc Hu Hnow).
  assert (Hw : within_limit (time_limit cfg) now (start_time st) = false).
  { rewrite Hl. unfold within_limit, IEEE.SFgeb, SFleb.
    destruct (elapsed now (start_time st)); reflexivity. }
  unfold step, advance, with_time. rewrite Hpc, Hu, Hnow. cbn [start_time emit].
  rewrite Hw. split; reflexivity.
Qed.

Lemma nan_time_limit_skips_loop_witness :
  let cfg := mkConfig S754_nan d_1 f_1 in
  let st := boot PcLoopCond [] in
  st_pc (step cfg (Go (at_time 5 0)) st) = PcReturn /\
  trace (step cfg (Go (at_time 5 0)) st) = trace st ++ [ClockGettime true].
Proof.
  intros cfg st.
  apply (nan_time_limit_skips_loop cfg st (at_time 5 0)
           (F64.add (F64.of_Z 5) (F64.div (F64.of_Z 0) d_1e9))); reflexivity.
Defined.

Lemma requests_ok_app (tr : list event) (e : event) :
  requests_ok tr -> in_range_event e = true -> requests_ok (tr ++ [e]).
Proof.
  unfold requests_ok. intros H He. rewrite forallb_app, H. simpl. rewrite He. reflexivity.
Qed.

Lemma requests_ok_tail (tr : list event) (ok : bool) :
  requests_ok tr -> requests_ok (tr ++ neutral_tail ok).
Proof.
  unfold requests_ok. intros H. rewrite forallb_app, H.
  destruct ok; reflexivity.
Qed.

Ltac requests_done :=
  simpl; repeat (apply requests_ok_app; [|try reflexivity]); try assumption.

Lemma requests_ok_step (cfg : RunConfig) (i : input) (st : state) :
  wf st -> requests_ok (trace st) -> requests_ok (trace (step cfg i st)).
Proof.
  intros W H. unfold step.
  destruct (st_pc st) eqn:Hpc; try exact H;
    (destruct i as [|a];
     [ unfold deliver; destruct (handlers st); exact H | ]).
  all: unfold advance; rewrite Hpc; unfold wf in W; rewrite Hpc in W.
  - destruct (x_ok a); requests_done.
  - exact H.
  - unfold with_time. destruct (get_time (clock a)); requests_done.
  - destruct (unbounded (time_limit cfg)); [exact H|].
    unfold with_time. destruct (get_time (clock a)).
    + destruct (within_limit _ _ _); requests_done.
    + requests_done.
  - unfold with_time. destruct (get_time (clock a)).
    + unfold call_rainbow.
      destruct (rainbow_palette _ _) as [[[r g] b]|]; [|requests_done].
      unfold change_gamma.
      destruct (change_gamma_assert r g b) eqn:Has; simpl negb; cbv iota;
        [|requests_done].
      destruct (x_ok a); simpl negb; cbv iota; requests_done;
        simpl; exact Has.
    + requests_done.
  - requests_done.
  - destruct (pending_quit st); exact H.
  - exact H.
  - destruct W as (Hd & Ht & Hc).
    destruct (atexit_quit st) eqn:Ha.
    + destruct (quit_application_spec code a st (Hd eq_refl)) as (_ & Et & _).
      rewrite Et. now apply requests_ok_tail.
    + exact H.
Qed.

Lemma requests_ok_exec (cfg : RunConfig) (inputs : list input) (st : state) :
  wf st -> requests_ok (trace st) -> requests_ok (trace (exec cfg inputs st)).
Proof.
  revert st. induction inputs as [|i inputs IH]; intros st W H; simpl; [exact H|].
  apply IH; [now apply wf_step | now apply requests_ok_step].
Qed.

(** X14. The process never sends a gamma outside the range of the
    assertions: in every run, each of the three values of every gamma
    request that was made, successful or not, lies between 0.1f and
    10.0f. *)
Theorem requests_in_range
    (cfg : RunConfig) (inputs : list input) (r g b : float) (ok : bool) :
  In (XF86VidModeSetGamma r g b ok) (trace (exec cfg inputs (boot PcOpenDisplay []))) ->
  gamma_in_range r = true /\ gamma_in_range g = true /\ gamma_in_range b = true.
Proof.
  intros Hin.
  pose proof (requests_ok_exec cfg inputs _ wf_boot eq_refl) as H.
  unfold requests_ok in H. rewrite forallb_forall in H.
  specialize (H _ Hin). cbn [in_range_event] in H.
  unfold change_gamma_assert in H.
  apply andb_true_iff in H. destruct H as [H Hb].
  apply andb_true_iff in H. tauto.
Qed.

Lemma requests_in_range_witness :
  let L := luminosity default_config in
  gamma_in_range (boost L d_1) = true /\ gamma_in_range L = true /\
  gamma_in_range L = true.
Proof.
  intros L.
  apply (requests_in_range default_config
           [Go (at_time 5 0); Go (at_time 5 0); Go (at_time 5 0); Go (at_time 5 0);
            Go (at_time 5 0)] (boost L d_1) L L true).
  vm_compute. right. right. right. left. reflexivity.
Defined.

(** ** The assertions of [change_gamma] under [call_rainbow] *)

Lemma f_9_bits : f_9 = S754_finite false 9437184 (-20).
Proof. reflexivity. Qed.

Lemma nine_val : val f_9 = 9 * U /\ val f_9 <= val f_9_9 /\ val f_10 = 10 * U.
Proof. vm_compute. repeat split; try reflexivity; discriminate. Qed.

Lemma f_10_facts : F32.valid f_10 = true /\ fin_sign false f_10.
Proof. split; [reflexivity|]. rewrite f_10_bits. split; [reflexivity|discriminate]. Qed.

Lemma f_9_facts : F32.valid f_9 = true /\ fin_sign false f_9.
Proof. split; [reflexivity|]. rewrite f_9_bits. split; [reflexivity|discriminate]. Qed.

Lemma f_0_1_facts : F32.valid f_0_1 = true /\ fin_sign false f_0_1.
Proof. split; [reflexivity|]. rewrite f_0_1_bits. split; [reflexivity|discriminate]. Qed.

Lemma f_9_9_facts : F32.valid f_9_9 = true /\ fin_sign false f_9_9.
Proof. split; [reflexivity|]. rewrite f_9_9_bits. split; [reflexivity|discriminate]. Qed.

Lemma SFleb32 (x y : float) :
  F32.valid x = true -> F32.valid y = true ->
  fin_sign false x -> fin_sign false y ->
  (SFleb x y = true <-> val x <= val y).
Proof.
  intros. now apply (SFleb_val F32.prec F32.emax F32_prec F32_emax F32_K _ _ false false).
Qed.

Lemma SFltb32 (x y : float) :
  F32.valid x = true -> F32.valid y = true ->
  fin_sign false x -> fin_sign false y ->
  (SFltb x y = true <-> val x < val y).
Proof.
  intros. now apply (SFltb_val F32.prec F32.emax F32_prec F32_emax F32_K _ _ false false).
Qed.

Lemma gamma_in_range_val (x : float) :
  F32.valid x = true -> fin_sign false x ->
  (gamma_in_range x = true <-> val f_0_1 <= val x <= val f_10).
Proof.
  intros V F. unfold gamma_in_range, IEEE.SFgeb.
  destruct f_0_1_facts as [V1 F1]. destruct f_10_facts as [V2 F2].
  rewrite andb_true_iff, (SFleb32 f_0_1 x V1 V F1 F), (SFleb32 x f_10 V V2 F F2).
  tauto.
Qed.

Lemma ten_rounds_to_ten :
  RND F32.prec F32.emax (RND F64.prec F64.emax (10 * U)) = 10 * U.
Proof.
  destruct f_10_facts as [V F]. destruct nine_val as (_ & _ & E).
  rewrite <- E. rewrite (RND64_float f_10 V F). apply (RND32_float f_10 V F).
Qed.

(** X15. For a luminosity between 0.1f and 9.0f and every time
    [call_rainbow] can take, the body of [call_rainbow] is defined and
    the three values it passes satisfy the assertions of
    [change_gamma]: up to 9.0f the process never aborts in
    [call_rainbow]. *)
Theorem assertions_hold_up_to_nine (t : double) (L : float) :
  callable t ->
  F32.valid L = true -> SFleb f_0_1 L = true -> SFleb L f_9 = true ->
  exists r g b,
    rainbow_palette t L = Some (r, g, b) /\ change_gamma_assert r g b = true.
Proof.
  intros Ct V H1 H2.
  destruct nine_val as (N1 & N2 & N3).
  destruct f_9_facts as [V9 F9]. destruct f_9_9_facts as [V99 F99].
  assert (FL : fin_sign false L).
  { rewrite f_0_1_bits in H1. rewrite f_9_bits in H2.
    unfold SFleb in H1, H2.
    destruct L as [s|s| |s m e]; cbn [SFcompare] in H1, H2; try discriminate;
      destruct s; try discriminate.
    split; [reflexivity|]. apply (bounded_inv _ _ F32_K _ _ V). }
  assert (L9 : val L <= 9 * U).
  { rewrite <- N1. now apply (SFleb32 L f_9 V V9 FL F9). }
  assert (A : accepted L).
  { split; [exact V|]. split; [exact H1|].
    apply (SFleb32 L f_9_9 V V99 FL F99). lia. }
  pose proof (callable_time_arg t Ct) as T.
  destruct (accepted_val L A) as (_ & L1 & _).
  destruct (channels_facts t L T A) as ((Vf & Ff) & (Vr & Fr) & (Vt & Ft) & Bf & Br & _).
  destruct constants_val as (C1 & _).
  destruct d_1_facts as (V1 & F1 & E1').
  pose proof U_pos as HU.
  assert (Top : val (boost L d_1) <= 10 * U).
  { destruct (boost_facts L d_1 V FL V1 F1 ltac:(lia) ltac:(lia)) as (_ & _ & -> & _).
    rewrite E1'. rewrite <- ten_rounds_to_ten.
    apply (RND_mono F32.prec F32.emax F32_prec F32_K).
    - apply RND64_pos. lia.
    - apply (RND_mono F64.prec F64.emax F64_prec F64_K); lia. }
  assert (GL : gamma_in_range L = true) by (apply gamma_in_range_val; try assumption; lia).
  assert (Gf : gamma_in_range (boost L (fading t)) = true)
    by (apply gamma_in_range_val; try assumption; lia).
  assert (Gr : gamma_in_range (boost L (fmod t d_1)) = true)
    by (apply gamma_in_range_val; try assumption; lia).
  rewrite (rainbow_palette_rotate t L T).
  destruct (rotate_cases (val t / U) (boost L (fading t)) (boost L (fmod t d_1)) L)
    as [-> | [-> | ->]];
    do 3 eexists; (split; [reflexivity|]);
    unfold change_gamma_assert; rewrite GL, Gf, Gr; reflexivity.
Qed.

Lemma assertions_hold_up_to_nine_witness :
  exists r g b,
    rainbow_palette d_half f_9 = Some (r, g, b) /\ change_gamma_assert r g b = true.
Proof.
  apply (assertions_hold_up_to_nine d_half f_9).
  - apply callable_closed; vm_compute; try reflexivity; discriminate.
  - reflexivity.
  - reflexivity.
  - reflexivity.
Defined.

(** At a whole second the rising channel gets [+ 0.0] and the fading
    one the full bonus. *)
Lemma whole_palette (n : double) (L : float) :
  time_arg n -> fmod n d_1 = S754_zero false ->
  F32.valid L = true -> L <> S754_zero true ->
  rainbow_palette n L = Some (rotate (val n / U) (boost L d_1) L L).
Proof.
  intros T Hf V Hz. rewrite (rainbow_palette_rotate n L T).
  assert (E : fading n = d_1) by (unfold fading; rewrite Hf; reflexivity).
  rewrite E, Hf, (boost_plus_zero L V Hz). reflexivity.
Qed.

Lemma ten_plus_ulp :
  let X0 := 10 * U + 2 ^ (K - 20) in
  RND F32.prec F32.emax (RND F64.prec F64.emax X0) = X0.
Proof.
  intros X0.
  assert (E64' : RND F64.prec F64.emax X0 = X0).
  { apply (RND_exact_at F64.prec F64.emax F64_prec F64_K X0 (-20)).
    - vm_compute. reflexivity.
    - vm_compute. discriminate.
    - vm_compute. reflexivity.
    - vm_compute. reflexivity. }
  rewrite E64'.
  apply (RND_exact_at F32.prec F32.emax F32_prec F32_K X0 (-20)).
  - vm_compute. reflexivity.
  - vm_compute. discriminate.
  - vm_compute. reflexivity.
  - vm_compute. reflexivity.
Qed.

(** A [float] above 9 is at least 9 + 2^-20. *)
Lemma above_nine (L : float) :
  F32.valid L = true -> fin_sign false L -> 9 * U < val L ->
  10 * U + 2 ^ (K - 20) <= val L + U.
Proof.
  intros V F H.
  assert (HU : U = 2 ^ 20 * 2 ^ (K - 20)) by (vm_compute; reflexivity).
  assert (HG : 0 < 2 ^ (K - 20)) by (vm_compute; reflexivity).
  destruct L as [s|s| |s m e]; cbn [val] in H; try (pose proof U_pos; lia).
  destruct F as [-> He]. cbn [val cond_Zopp] in *.
  pose proof (bounded_mantissa _ _ _ _ V) as Hm.
  change (2 ^ F32.prec) with 16777216 in Hm.
  assert (E20 : -20 <= e).
  { destruct (Z_lt_le_dec e (-20)) as [Hlt|]; [exfalso|assumption].
    assert (P : 2 ^ (e + K) <= 2 ^ (K - 21)) by (apply Z.pow_le_mono_r; lia).
    assert (HU' : U = 2 ^ 21 * 2 ^ (K - 21)) by (vm_compute; reflexivity).
    assert (0 < 2 ^ (e + K)) by (apply Z.pow_pos_nonneg; lia).
    change (2 ^ 21) with 2097152 in HU'.
    nia. }
  assert (P : 2 ^ (e + K) = 2 ^ (e + 20) * 2 ^ (K - 20)).
  { rewrite <- (Z.pow_add_r 2 (e + 20) (K - 20)); [f_equal; lia | lia | discriminate]. }
  rewrite P in *.
  assert (0 <= 2 ^ (e + 20)) by (apply Z.pow_nonneg; lia).
  change (2 ^ 20) with 1048576 in HU.
  set (G := 2 ^ (K - 20)) in *. set (j := Z.pos m * 2 ^ (e + 20)).
  assert (Hj : Z.pos m * (2 ^ (e + 20) * G) = j * G) by (unfold j; ring).
  rewrite Hj in *.
  assert (9 * 1048576 < j) by nia.
  nia.
Qed.

(** X16. Above 9.0f the assertions fail: for every luminosity that the
    argument loop accepts and that is greater than 9.0f, at every whole
    second that [call_rainbow] can take, the channel with the full
    bonus is greater than 10.0f and [change_gamma] aborts. *)
Theorem above_nine_aborts_at_whole_seconds (n : double) (L : float) :
  callable n -> fmod n d_1 = S754_zero false ->
  F32.valid L = true -> SFltb f_9 L = true -> SFleb L f_9_9 = true ->
  exists r g b,
    rainbow_palette n L = Some (r, g, b) /\ change_gamma_assert r g b = false.
Proof.
  intros Cn Hf V H1 H2.
  destruct nine_val as (N1 & N2 & N3).
  destruct f_9_facts as [V9 F9]. destruct f_9_9_facts as [V99 F99].
  assert (FL : fin_sign false L).
  { rewrite f_9_bits in H1. rewrite f_9_9_bits in H2.
    unfold SFltb in H1. unfold SFleb in H2.
    destruct L as [s|s| |s m e]; cbn [SFcompare] in H1, H2; try discriminate;
      destruct s; try discriminate.
    split; [reflexivity|]. apply (bounded_inv _ _ F32_K _ _ V). }
  assert (L9 : 9 * U < val L).
  { rewrite <- N1. now apply (SFltb32 f_9 L V9 V F9 FL). }
  assert (L99 : val L <= val f_9_9) by now apply (SFleb32 L f_9_9 V V99 FL F99).
  destruct constants_val as (C1 & C2 & _).
  destruct d_1_facts as (V1 & F1 & E1').
  pose proof U_pos as HU.
  destruct (boost_facts L d_1 V FL V1 F1 ltac:(lia) ltac:(lia)) as (Ft & Vt & Et & _).
  assert (Top : 10 * U < val (boost L d_1)).
  { rewrite Et, E1'.
    pose proof (above_nine L V FL L9) as H.
    assert (HG : 0 < 2 ^ (K - 20)) by (vm_compute; reflexivity).
    pose proof ten_plus_ulp as E. cbv zeta in E.
    assert (M : RND F32.prec F32.emax (RND F64.prec F64.emax (10 * U + 2 ^ (K - 20)))
                <= RND F32.prec F32.emax (RND F64.prec F64.emax (val L + U))).
    { apply (RND_mono F32.prec F32.emax F32_prec F32_K).
      - apply RND64_pos. lia.
      - apply (RND_mono F64.prec F64.emax F64_prec F64_K); lia. }
    lia. }
  assert (G : gamma_in_range (boost L d_1) = false).
  { destruct (gamma_in_range (boost L d_1)) eqn:G; [|reflexivity].
    apply (gamma_in_range_val _ Vt Ft) in G. lia. }
  assert (Hz : L <> S754_zero true).
  { intros ->. cbn in L9. lia. }
  rewrite (whole_palette n L (callable_time_arg n Cn) Hf V Hz).
  destruct (rotate_cases (val n / U) (boost L d_1) L L) as [-> | [-> | ->]];
    do 3 eexists; (split; [reflexivity|]);
    unfold change_gamma_assert; rewrite G; destruct (gamma_in_range L); reflexivity.
Qed.

Lemma above_nine_aborts_at_whole_seconds_witness :
  exists r g b,
    rainbow_palette d_3 (float_of_double (atof_table "9.5")) = Some (r, g, b) /\
    change_gamma_assert r g b = false.
Proof.
  apply (above_nine_aborts_at_whole_seconds d_3 (float_of_double (atof_table "9.5"))).
  - apply callable_closed; vm_compute; reflexivity.
  - vm_compute. reflexivity.
  - reflexivity.
  - reflexivity.
  - reflexivity.
Defined.

Lemma of_Z_spec (k : Z) :
  0 <= k < 2 ^ 53 ->
  fin_sign false (F64.of_Z k) /\ F64.valid (F64.of_Z k) = true /\
  val (F64.of_Z k) = k * U.
Proof.
  intros [H0 H1]. destruct k as [|p|p]; [| |lia].
  - repeat split.
  - change (F64.of_Z (Z.pos p)) with (binary_round F64.prec F64.emax false p 0).
    assert (Hl : Z.log2 (Z.pos p) + 1 <= 53).
    { assert (Z.log2 (Z.pos p) < 53) by (apply Z.log2_lt_pow2; lia). lia. }
    destruct (binary_round_exact F64.prec F64.emax F64_prec F64_emax F64_K false p 0)
      as (A & B & C).
    + discriminate.
    + discriminate.
    + exact Hl.
    + unfold F64.emax. lia.
    + split; [exact A|]. split; [exact B|]. rewrite C. reflexivity.
Qed.

(** X17. At a whole second [k] the channel of index [k mod 3] has the
    full bonus and the two others are exactly the luminosity: the triple
    is [(L + 1, L, L)], [(L, L + 1, L)] or [(L, L, L + 1)] according to
    [k mod 3], with the sum as the compound assignment computes it.
    This holds for every whole number of seconds that a [double] holds
    exactly and every luminosity other than [-0.0]. *)
Theorem whole_second_triple (k : Z) (L : float) :
  0 <= k < 2 ^ 53 ->
  F32.valid L = true -> L <> S754_zero true ->
  rainbow_palette (F64.of_Z k) L = Some (rotate k (boost L d_1) L L).
Proof.
  intros Hk V Hz.
  destruct (of_Z_spec k Hk) as (F & Vk & E).
  pose proof U_pos as HU.
  assert (T : time_arg (F64.of_Z k)).
  { split; [exact Vk|]. split; [exact F|]. rewrite E.
    apply Z.mul_lt_mono_pos_r; [exact HU|]. lia. }
  destruct (fmod_one _ Vk F) as (Ff & Vf & Ef).
  assert (Hf : fmod (F64.of_Z k) d_1 = S754_zero false).
  { apply (val_inj F64.prec F64.emax F64_prec F64_emax F64_K _ _ false);
      try assumption; try reflexivity.
    rewrite Ef, E. cbn [val]. apply Z.mod_mul. lia. }
  rewrite (whole_palette _ L T Hf V Hz). rewrite E, Z.div_mul by lia. reflexivity.
Qed.

Lemma whole_second_triple_witness :
  rainbow_palette (F64.of_Z 7) f_9 = Some (rotate 7 (boost f_9 d_1) f_9 f_9).
Proof.
  apply (whole_second_triple 7 f_9).
  - split; [discriminate | reflexivity].
  - reflexivity.
  - discriminate.
Defined.

(** ** The times that [call_rainbow] can take *)

Lemma to_long_in_long (t : double) (n : Z) : to_long t = Some n -> in_long n = true.
Proof.
  unfold to_long. destruct (trunc t) as [z|]; [|discriminate].
  destruct (in_long z) eqn:E; [|discriminate]. intros H. inversion H. subst. exact E.
Qed.

Lemma in_long_iff (n : Z) : in_long n = true <-> - 2 ^ 63 <= n <= 2 ^ 63 - 1.
Proof.
  unfold in_long, LONG_MIN, LONG_MAX. rewrite andb_true_iff, !Z.leb_le. tauto.
Qed.

Lemma rem3_cases (n : Z) :
  (0 <= n -> Z.rem n 3 = 0 \/ Z.rem n 3 = 1 \/ Z.rem n 3 = 2) /\
  (n < 0 -> Z.rem n 3 = 0 \/ Z.rem n 3 = -1 \/ Z.rem n 3 = -2).
Proof.
  split; intros H.
  - pose proof (Z.rem_bound_pos n 3 H ltac:(lia)). lia.
  - pose proof (Z.rem_bound_pos_neg n 3 ltac:(lia) ltac:(lia)). lia.
Qed.

Lemma rem3_succ_neg (n : Z) : n < 0 -> Z.rem n 3 = 0 -> Z.rem (n + 1) 3 = -2.
Proof.
  intros H R.
  pose proof (Z.quot_rem' n 3) as Q. rewrite R in Q.
  pose proof (Z.quot_rem' (n + 1) 3) as Q'.
  assert (n + 1 < 0) by lia.
  pose proof (Z.rem_bound_pos_neg (n + 1) 3 ltac:(lia) ltac:(lia)). lia.
Qed.

(** The body of [call_rainbow] is defined exactly when [(long)t] is
    defined, is not negative, and [(long)t + 1] does not overflow. *)
Lemma rainbow_palette_defined (t : double) (c : float) :
  rainbow_palette t c <> None <->
  exists n, to_long t = Some n /\ 0 <= n /\ n + 1 <= LONG_MAX.
Proof.
  unfold rainbow_palette.
  destruct (to_long t) as [n|] eqn:Et; cbn [bind].
  2: { split; [intros H; contradiction H; reflexivity|].
       intros (n & Hn & _). discriminate Hn. }
  pose proof (to_long_in_long t n Et) as Hin.
  unfold index3. rewrite Z.add_0_r, Hin. cbn [bind].
  destruct (rem3_cases n) as [Rp Rn].
  destruct (rem3_cases (n + 1)) as [Rp' Rn'].
  apply in_long_iff in Hin.
  destruct (Z_lt_le_dec n 0) as [Hneg|Hpos].
  - (* a negative number of seconds *)
    split; [|intros (n' & Hn' & H0 & _); inversion Hn'; lia].
    intros H. exfalso. apply H. clear H.
    destruct (Rn Hneg) as [R|[R|R]]; rewrite R; try reflexivity.
    cbn [add_assign Z.ltb Z.compare Z.to_nat array_upd bind].
    assert (I1 : in_long (n + 1) = true) by (apply in_long_iff; lia).
    rewrite I1, (rem3_succ_neg n Hneg R). reflexivity.
  - split.
    + intros H. exists n. split; [reflexivity|]. split; [exact Hpos|].
      destruct (in_long (n + 1)) eqn:I1.
      * apply in_long_iff in I1. unfold LONG_MAX. lia.
      * exfalso. apply H.
        destruct (Rp Hpos) as [R|[R|R]]; rewrite R; reflexivity.
    + intros (n' & Hn' & _ & H1). inversion Hn'. subst n'.
      assert (I1 : in_long (n + 1) = true)
        by (apply in_long_iff; unfold LONG_MAX in H1; lia).
      rewrite I1.
      destruct (Rp Hpos) as [R|[R|R]]; rewrite R;
        (destruct (Rp' ltac:(lia)) as [R'|[R'|R']]; rewrite R'; discriminate).
Qed.

Lemma d_m1_bits : d_m1 = S754_finite true 4503599627370496 (-52).
Proof. reflexivity. Qed.

Lemma d_m1_facts : F64.valid d_m1 = true /\ fin_sign true d_m1 /\ val d_m1 = - U.
Proof.
  split; [reflexivity|]. split; [rewrite d_m1_bits; split; [reflexivity|discriminate]|].
  vm_compute. reflexivity.
Qed.

Lemma d_2p63_facts :
  F64.valid d_2p63 = true /\ fin_sign false d_2p63 /\ val d_2p63 = 2 ^ 63 * U.
Proof.
  split; [vm_compute; reflexivity|].
  split; [rewrite d_2p63_bits; split; [reflexivity|discriminate]|].
  vm_compute. reflexivity.
Qed.

(** X18. The body of [call_rainbow] has defined behaviour exactly for
    the times greater than -1.0 and less than 2^63: for a time of -1.0
    or less the index [(long)t % 3] or [((long)t + 1) % 3] is negative,
    from 2^63 on and for infinities and NaN the conversion [(long)t] is
    undefined.  This holds for every luminosity. *)
Theorem rainbow_domain (t : double) (c : float) :
  F64.valid t = true ->
  (rainbow_palette t c <> None <->
   SFltb d_m1 t = true /\ SFltb t d_2p63 = true).
Proof.
  intros V. rewrite rainbow_palette_defined.
  destruct d_m1_facts as (Vm & Fm & Em).
  destruct d_2p63_facts as (Vp & Fp & Ep).
  pose proof U_pos as HU.
  destruct t as [s|s| |s m e].
  - (* zeros *)
    split.
    + intros _. rewrite d_m1_bits, d_2p63_bits. destruct s; split; reflexivity.
    + intros _. exists 0. repeat split; try discriminate.
  - (* infinities *)
    split.
    + intros (n & Hn & _). discriminate Hn.
    + rewrite d_m1_bits, d_2p63_bits. destruct s; intros [H1 H2]; discriminate.
  - (* NaN *)
    split.
    + intros (n & Hn & _). discriminate Hn.
    + intros [H1 _]. rewrite d_m1_bits in H1. discriminate H1.
  - destruct s.
    + (* negative numbers *)
      assert (F : fin_sign true (S754_finite true m e)).
      { split; [reflexivity|]. apply (bounded_inv _ _ F64_K _ _ V). }
      assert (F' : fin_sign false (S754_finite false m e))
        by (split; [reflexivity | apply F]).
      assert (A : 0 < Z.pos m * 2 ^ (e + K)).
      { apply Z.mul_pos_pos; [lia|]. apply Z.pow_pos_nonneg; [lia|]. destruct F; lia. }
      assert (Tr : Z.shiftl (Z.pos m) e = Z.pos m * 2 ^ (e + K) / U).
      { pose proof (trunc_val _ F') as T0. unfold trunc, val, cond_Zopp in T0.
        congruence. }
      rewrite (SFltb_val F64.prec F64.emax F64_prec F64_emax F64_K _ _ true true Vm V Fm F).
      rewrite (SFltb_val F64.prec F64.emax F64_prec F64_emax F64_K _ _ true false V Vp F Fp).
      rewrite Em, Ep. cbn [val cond_Zopp].
      unfold to_long. cbn [trunc cond_Zopp]. rewrite Tr.
      set (X := Z.pos m * 2 ^ (e + K)) in *.
      split.
      * intros (n & Hn & H0 & _).
        destruct (in_long (- (X / U))); [|discriminate].
        inversion Hn. subst n.
        assert (X / U <= 0) by lia.
        assert (X / U = 0) by (pose proof (Z.div_pos X U); lia).
        assert (X < U) by (apply Z.div_small_iff in H1; lia).
        lia.
      * intros [H1 _]. exists 0.
        assert (E0 : X / U = 0) by (apply Z.div_small; lia).
        rewrite E0. split; [reflexivity|]. split; [lia | discriminate].
    + (* positive numbers *)
      assert (F : fin_sign false (S754_finite false m e)).
      { split; [reflexivity|]. apply (bounded_inv _ _ F64_K _ _ V). }
      assert (A : 0 < Z.pos m * 2 ^ (e + K)).
      { apply Z.mul_pos_pos; [lia|]. apply Z.pow_pos_nonneg; [lia|]. destruct F; lia. }
      rewrite (SFltb_val F64.prec F64.emax F64_prec F64_emax F64_K _ _ true false Vm V Fm F).
      rewrite (SFltb_val F64.prec F64.emax F64_prec F64_emax F64_K _ _ false false V Vp F Fp).
      rewrite Em, Ep.
      unfold to_long. rewrite (trunc_val _ F).
      set (t := S754_finite false m e) in *.
      assert (Ht : 0 < val t) by exact A.
      split.
      * intros (n & Hn & H0 & H1).
        destruct (in_long (val t / U)) eqn:I; [|discriminate].
        apply in_long_iff in I. split; [lia|].
        destruct (Z_lt_le_dec (val t) (2 ^ 63 * U)) as [|Hge]; [assumption|exfalso].
        assert (2 ^ 63 <= val t / U) by (apply Z.div_le_lower_bound; lia).
        lia.
      * intros [_ H1].
        assert (T : time_arg t) by (split; [exact V|]; split; assumption).
        destruct (long_succ_ok t T) as [L0 L1].
        assert (I : in_long (val t / U) = true)
          by (apply in_long_iff; unfold LONG_MAX in L1; lia).
        rewrite I. exists (val t / U). auto.
Qed.

Lemma rainbow_domain_witness :
  (rainbow_palette d_m1 f_1 <> None <->
   SFltb d_m1 d_m1 = true /\ SFltb d_m1 d_2p63 = true) /\
  (rainbow_palette d_half f_1 <> None <->
   SFltb d_m1 d_half = true /\ SFltb d_half d_2p63 = true).
Proof.
  split.
  - apply (rainbow_domain d_m1 f_1). reflexivity.
  - apply (rainbow_domain d_half f_1). reflexivity.
Defined.

(** X19. A NaN (as [atof] returns for the string "nan") passes both
    tests of the argument loop, since every comparison with a NaN is
    false.  A NaN luminosity then makes the assertions of
    [change_gamma] fail at every time that [call_rainbow] can take, and
    with a NaN speed the time passed to [call_rainbow] is a NaN, for
    which the conversion [(long)t] is undefined. *)
Theorem nan_arguments_pass_tests :
  luminosity_rejected (float_of_double S754_nan) = false /\
  speed_rejected S754_nan = false /\
  (forall t, callable t ->
     exists r g b,
       rainbow_palette t (float_of_double S754_nan) = Some (r, g, b) /\
       change_gamma_assert r g b = false) /\
  (forall e c, rainbow_palette (F64.mul e S754_nan) c = None).
Proof.
  split; [reflexivity|]. split; [reflexivity|]. split.
  - intros t Ct. rewrite (rainbow_palette_rotate t _ (callable_time_arg t Ct)).
    assert (B : forall d, boost (float_of_double S754_nan) d = S754_nan).
    { intros d. unfold boost. destruct d; reflexivity. }
    rewrite !B.
    destruct (rotate_cases (val t / U) S754_nan S754_nan (float_of_double S754_nan))
      as [-> | [-> | ->]]; do 3 eexists; split; reflexivity.
  - intros e c.
    assert (E : F64.mul e S754_nan = S754_nan) by (destruct e; reflexivity).
    rewrite E. reflexivity.
Qed.

(** ** The rotation of the channels *)

Lemma rotate_next (n : Z) (a b c : float) (r g bl : float) :
  rotate n a b c = (r, g, bl) -> rotate (n + 1) a b c = (bl, r, g).
Proof.
  unfold rotate.
  pose proof (Z.mod_pos_bound n 3 ltac:(lia)) as Hr.
  assert (E1 : (n + 1) mod 3 = (n mod 3 + 1) mod 3)
    by (rewrite Z.add_mod_idemp_l by lia; reflexivity).
  rewrite E1.
  assert (C : n mod 3 = 0 \/ n mod 3 = 1 \/ n mod 3 = 2) by lia.
  destruct C as [C|[C|C]]; rewrite C; cbn; intros H; inversion H; reflexivity.
Qed.

(** X20. One second later every channel value has moved to the next
    channel: for every luminosity and all times [t] and [t'] that
    [call_rainbow] can take with [t'] exactly [t + 1], if the triple at
    [t] is [(r, g, b)] then the triple at [t'] is [(b, r, g)]. *)
Theorem rainbow_shift (t t' : double) (L r g b : float) :
  callable t -> callable t' ->
  (SF2Q t' == SF2Q t + 1)%Q ->
  rainbow_palette t L = Some (r, g, b) ->
  rainbow_palette t' L = Some (b, r, g).
Proof.
  intros C C' E.
  pose proof (callable_time_arg t C) as T.
  pose proof (callable_time_arg t' C') as T'.
  pose proof U_pos as HU.
  destruct T as (V & F & B). destruct T' as (V' & F' & B').
  assert (Ev : val t' = val t + 1 * U).
  { rewrite (SF2Q_val t' false F'), (SF2Q_val t false F) in E.
    rewrite Qone_Upos, Qplus_units in E.
    apply Qeq_units_inv in E. lia. }
  rewrite (rainbow_palette_rotate t' L (callable_time_arg t' C')).
  rewrite (rainbow_palette_rotate t L (callable_time_arg t C)).
  destruct (fmod_one t V F) as (Ff & Vf & Ef).
  destruct (fmod_one t' V' F') as (Ff' & Vf' & Ef').
  assert (Em : fmod t' d_1 = fmod t d_1).
  { apply (val_inj F64.prec F64.emax F64_prec F64_emax F64_K _ _ false);
      try assumption.
    rewrite Ef, Ef', Ev. apply Z.mod_add. lia. }
  rewrite (fading_of_fmod t t' Em), Em, Ev.
  rewrite Z.div_add by lia.
  intros H. inversion H as [H']. f_equal. now apply rotate_next.
Qed.

Lemma rainbow_shift_witness :
  rainbow_palette (F64.lit 3 2) f_0_1
  = Some (f_0_1, boost f_0_1 d_half, boost f_0_1 d_half).
Proof.
  apply (rainbow_shift d_half (F64.lit 3 2) f_0_1
           (boost f_0_1 d_half) (boost f_0_1 d_half) f_0_1).
  - apply callable_closed; vm_compute; reflexivity.
  - apply callable_closed; vm_compute; reflexivity.
  - reflexivity.
  - vm_compute. reflexivity.
Defined.

(** X21. At every time that [call_rainbow] can take, one of the three
    channels is left at the luminosity: only the two channels of
    indices [(long)t % 3] and [((long)t + 1) % 3] are updated.  This
    holds for every luminosity. *)
Theorem one_channel_untouched (t : double) (L : float) :
  callable t ->
  exists r g b,
    rainbow_palette t L = Some (r, g, b) /\ (r = L \/ g = L \/ b = L).
Proof.
  intros C. rewrite (rainbow_palette_rotate t L (callable_time_arg t C)).
  destruct (rotate_cases (val t / U) (boost L (fading t)) (boost L (fmod t d_1)) L)
    as [-> | [-> | ->]]; do 3 eexists; (split; [reflexivity|]); auto.
Qed.

Lemma one_channel_untouched_witness :
  exists r g b,
    rainbow_palette d_half f_1 = Some (r, g, b) /\ (r = f_1 \/ g = f_1 \/ b = f_1).
Proof.
  apply (one_channel_untouched d_half f_1).
  apply callable_closed; vm_compute; reflexivity.
Defined.

(** ** Conversion to [float] of any [double] *)

(** Whatever the size of the number, rounding keeps the sign, gives no
    NaN, gives a zero only at the least exponent of the format, and does
    not lower the exponent below the one of the format. *)
Lemma binary_round_shape (prec emax : Z) (s : bool) (m : positive) (e : Z) :
  0 < prec -> 2 <= emax ->
  let E := fexp prec emax (Z.log2 (Zpos m) + 1 + e) in
  match binary_round prec emax s m e with
  | S754_zero s' => s' = s /\ E = emin prec emax
  | S754_infinity s' => s' = s
  | S754_finite s' _ e' => s' = s /\ E <= e'
  | S754_nan => False
  end.
Proof.
  intros Hprec Hemax E. rewrite binary_round_phases.
  pose proof (rounded_mantissa_bounds prec emax Hprec Hemax m e) as [[Q0 Q1] Q2].
  pose proof (fexp_ge_emin prec emax (Z.log2 (Zpos m) + 1 + e)) as HE.
  fold E in Q2, HE |- *.
  set (Q := rounded_mantissa prec emax m e) in *.
  destruct (Z.eq_dec Q 0) as [Z0|NZ].
  - rewrite Z0. unfold shr_fexp, shr. cbn [Zdigits2 shr_record_of_loc].
    assert (fexp prec emax (0 + E) - E <= 0) by (unfold fexp; lia).
    assert (E = emin prec emax).
    { destruct (Z.eq_dec E (emin prec emax)); [assumption|].
      assert (0 < 2 ^ (prec - 1)) by (apply Z.pow_pos_nonneg; lia). lia. }
    destruct (fexp prec emax (0 + E) - E) as [|n|n]; try lia; cbn [shr_m]; auto.
  - assert (HQ : 0 < Q) by lia.
    destruct (shr_fexp_round prec emax Q E HQ) as [H1 H2].
    destruct (shr_fexp prec emax Q E loc_Exact) as [mrs e2].
    cbn [fst snd] in H1, H2.
    destruct (Z_lt_le_dec E (fexp prec emax (Z.log2 Q + 1 + E))) as [L|L].
    + destruct (H2 L) as (-> & Hm & _).
      assert (0 <= shr_m mrs) by (rewrite Hm; apply Z.div_pos; [lia|];
                                   apply Z.pow_pos_nonneg; lia).
      destruct (shr_m mrs) as [|p|p] eqn:Ep; try lia.
      * exfalso.
        assert (Hl : Z.log2 Q <= prec).
        { rewrite <- (Z.log2_pow2 prec) by lia. apply Z.log2_le_mono. lia. }
        assert (Hl' : Z.log2 Q = prec) by (unfold fexp in L; lia).
        assert (2 ^ prec <= Q) by (rewrite <- Hl'; apply Z.log2_spec; lia).
        assert (EE : fexp prec emax (Z.log2 Q + 1 + E) - E = 1) by (unfold fexp in *; lia).
        rewrite EE, Z.pow_1_r in Hm.
        assert (2 <= Q).
        { apply Z.le_trans with (2 ^ prec); [|assumption].
          change 2 with (2 ^ 1) at 1. apply Z.pow_le_mono_r; lia. }
        assert (1 <= Q / 2) by (apply Z.div_le_lower_bound; lia). lia.
      * destruct (_ <=? _); [split; [reflexivity | lia] | reflexivity].
    + destruct (H1 L) as [-> ->]. cbn [shr_m].
      destruct Q as [|q|q]; try lia.
      destruct (_ <=? _); [split; [reflexivity | lia] | reflexivity].
Qed.

Lemma lum_low_facts :
  F64.valid lum_low = true /\ fin_sign false lum_low /\
  val lum_low < 2 ^ (F32.emax - 1 + K) /\
  RND F32.prec F32.emax (val lum_low) < val f_0_1.
Proof.
  split; [reflexivity|]. split; [vm_compute; split; [reflexivity|discriminate]|].
  split; vm_compute; reflexivity.
Qed.

Lemma lum_high_facts :
  F64.valid lum_high = true /\ fin_sign false lum_high /\
  0 < val lum_high /\
  val f_9_9 < RND F32.prec F32.emax (val lum_high + 1).
Proof.
  split; [reflexivity|]. split; [vm_compute; split; [reflexivity|discriminate]|].
  split; vm_compute; reflexivity.
Qed.

Lemma SFltb_exponent (m1 m2 : positive) (e1 e2 : Z) :
  e1 < e2 -> SFltb (S754_finite false m1 e1) (S754_finite false m2 e2) = true.
Proof.
  intros H. unfold SFltb, SFcompare.
  destruct (Z.compare_spec e1 e2); try reflexivity; lia.
Qed.

(** The test of the luminosity on the value that [atof] returns: every
    number at or below [lum_low] and every number above [lum_high],
    infinities included, is rejected. *)
Lemma luminosity_thresholds (v : double) :
  F64.valid v = true ->
  SFleb v lum_low = true \/ SFltb lum_high v = true ->
  luminosity_rejected (float_of_double v) = true.
Proof.
  intros V H.
  destruct lum_low_facts as (Vl & Fl & Bl & Rl).
  destruct lum_high_facts as (Vh & Fh & Ph & Rh).
  destruct f_0_1_facts as [V01 F01]. destruct f_9_9_facts as [V99 F99].
  destruct v as [s|s| |s m e].
  - destruct s; reflexivity.
  - destruct s; reflexivity.
  - destruct H as [H|H]; discriminate H.
  - unfold float_of_double, IEEE.round_to.
    pose proof (binary_round_shape F32.prec F32.emax s m e F32_prec F32_emax) as S.
    cbv zeta in S.
    destruct s.
    + (* a negative number *)
      destruct (binary_round F32.prec F32.emax true m e) as [s'|s'| |s' m' e'];
        try contradiction.
      * destruct S as [-> _]. reflexivity.
      * subst s'. reflexivity.
      * destruct S as [-> _]. reflexivity.
    + assert (F : fin_sign false (S754_finite false m e)).
      { split; [reflexivity|]. apply (bounded_inv _ _ F64_K _ _ V). }
      set (v := S754_finite false m e) in *.
      assert (Pv : 0 < val v).
      { apply Z.mul_pos_pos; [lia|]. apply Z.pow_pos_nonneg; [lia|]. destruct F; lia. }
      destruct H as [H|H].
      * (* at or below the lower midpoint *)
        apply (SFleb_val F64.prec F64.emax F64_prec F64_emax F64_K _ _ false false
                 V Vl F Fl) in H.
        destruct (round_to_spec F32.prec F32.emax F32_prec F32_emax F32_K v F
                    ltac:(lia)) as (Fr & Vr & Er).
        change (IEEE.round_to F32.prec F32.emax v)
          with (binary_round F32.prec F32.emax false m e) in Fr, Vr, Er.
        pose proof (RND_mono F32.prec F32.emax F32_prec F32_K _ _ Pv H) as M.
        unfold luminosity_rejected.
        replace (SFltb (binary_round F32.prec F32.emax false m e) f_0_1) with true;
          [reflexivity|].
        symmetry. apply (SFltb32 _ _ Vr V01 Fr F01). lia.
      * (* above the upper midpoint *)
        apply (SFltb_val F64.prec F64.emax F64_prec F64_emax F64_K _ _ false false
                 Vh V Fh F) in H.
        unfold luminosity_rejected, IEEE.SFgtb.
        replace (SFltb f_9_9 (binary_round F32.prec F32.emax false m e)) with true;
          [apply orb_true_r|].
        symmetry.
        destruct (Z_lt_le_dec (val v) (2 ^ (F32.emax - 1 + K))) as [Small|Large].
        -- destruct (round_to_spec F32.prec F32.emax F32_prec F32_emax F32_K v F Small)
             as (Fr & Vr & Er).
           change (IEEE.round_to F32.prec F32.emax v)
             with (binary_round F32.prec F32.emax false m e) in Fr, Vr, Er.
           assert (M : RND F32.prec F32.emax (val lum_high + 1)
                       <= RND F32.prec F32.emax (val v))
             by (apply (RND_mono F32.prec F32.emax F32_prec F32_K); lia).
           apply (SFltb32 _ _ V99 Vr F99 Fr). lia.
        -- (* beyond the range of [float] *)
           assert (He : - K <= e) by (destruct F; assumption).
           assert (Hl : 127 < Z.log2 (Z.pos m) + 1 + e).
           { pose proof (log2_bounds m) as [_ Hm].
             assert (P : 0 < 2 ^ (e + K)) by (apply Z.pow_pos_nonneg; lia).
             assert (Hlt : 2 ^ (127 + K) < 2 ^ (Z.log2 (Z.pos m) + 1 + (e + K))).
             { rewrite (Z.pow_add_r 2 (Z.log2 (Z.pos m) + 1) (e + K))
                 by (pose proof (Z.log2_nonneg (Z.pos m)); lia).
               unfold v in Large. cbn [val cond_Zopp] in Large.
               change (F32.emax - 1 + K) with (127 + K) in Large. nia. }
             apply Z.pow_lt_mono_r_iff in Hlt; [lia | lia |].
             pose proof (Z.log2_nonneg (Z.pos m)). lia. }
           assert (HE : 104 <= fexp F32.prec F32.emax (Z.log2 (Z.pos m) + 1 + e))
             by (unfold fexp, F32.prec; lia).
           rewrite f_9_9_bits.
           destruct (binary_round F32.prec F32.emax false m e) as [s'|s'| |s' m' e'];
             try contradiction.
           ++ destruct S as [_ S]. rewrite S in HE.
              unfold emin, F32.prec, F32.emax in HE. lia.
           ++ subst s'. reflexivity.
           ++ destruct S as [-> S]. apply SFltb_exponent. lia.
Qed.

(** C6, as stated, fails: the luminosities 9.90000001 and 0.0999999999
    lie outside the interval [0.1, 9.9], yet they are accepted, since
    they round to 9.9f and to 0.1f, and the display is opened. *)
Lemma outside_interval_accepted :
  (99 # 10 < SF2Q (atof_edge "9.90000001"))%Q /\
  float_of_double (atof_edge "9.90000001") = f_9_9 /\
  trace (main atof_edge ["xrainbow"; "-l"; "9.90000001"]%string [Go (at_time 5 0)])
  = [XOpenDisplay true] /\
  (SF2Q (atof_edge "0.0999999999") < 1 # 10)%Q /\
  float_of_double (atof_edge "0.0999999999") = f_0_1 /\
  trace (main atof_edge ["xrainbow"; "-l"; "0.0999999999"]%string [Go (at_time 5 0)])
  = [XOpenDisplay true].
Proof.
  split; [vm_compute; reflexivity|]. split; [vm_compute; reflexivity|].
  split; [vm_compute; reflexivity|]. split; [vm_compute; reflexivity|].
  split; vm_compute; reflexivity.
Qed.

(** C6, as amended.  At a flag that the argument loop reaches: a speed
    at or below zero, or a luminosity that the conversion to [float]
    takes below 0.1f or above 9.9f, makes the program print the usage
    text and exit with the failure status without any other call,
    [XOpenDisplay] in particular.  In terms of the number that [atof]
    returns, the luminosities rejected are those at or below
    [lum_low] = 0.09999999776482582... and those above
    [lum_high] = 9.900000095367431..., infinities included. *)
Theorem out_of_range_rejected
    (atof : string -> double) (prog : string)
    (pre : list string) (flag v : string) (rest : list string)
    (cfg : RunConfig) (inputs : list input) :
  parse_args atof pre default_config = Parsed cfg ->
  (is_flag "-s" "--speed" flag = true /\ SFleb (atof v) d_0 = true) \/
  (is_flag "-l" "--luminosity" flag = true /\
   (SFltb (float_of_double (atof v)) f_0_1 = true \/
    SFltb f_9_9 (float_of_double (atof v)) = true \/
    (F64.valid (atof v) = true /\
     (SFleb (atof v) lum_low = true \/ SFltb lum_high (atof v) = true)))) ->
  let st := main atof (prog :: pre ++ flag :: v :: rest) inputs in
  st_pc st = PcDone (Exited EXIT_FAILURE) /\
  trace st = [PrintUsage] /\
  (forall ok, ~ In (XOpenDisplay ok) (trace st)).
Proof.
  intros Hpre Hbad.
  apply (invalid_value_rejected atof prog pre flag v rest cfg inputs Hpre).
  destruct Hbad as [H | [Hf H]]; [left; exact H | right].
  split; [exact Hf|].
  destruct H as [H | [H | [V H]]]; [left; exact H | right; exact H |].
  pose proof (luminosity_thresholds (atof v) V H) as R.
  unfold luminosity_rejected, IEEE.SFgtb in R.
  apply orb_true_iff in R. exact R.
Qed.

Lemma out_of_range_rejected_witness :
  let st := main atof_edge ["xrainbow"; "-t"; "2"; "-l"; "9.91"; "-s"; "1"]%string
              [Go (at_time 5 0)] in
  st_pc st = PcDone (Exited EXIT_FAILURE) /\
  trace st = [PrintUsage] /\
  (forall ok, ~ In (XOpenDisplay ok) (trace st)).
Proof.
  apply (out_of_range_rejected atof_edge "xrainbow" ["-t"; "2"]%string "-l" "9.91"
           ["-s"; "1"]%string (mkConfig d_0 d_1 (luminosity default_config))
           [Go (at_time 5 0)]).
  - reflexivity.
  - right. split; [reflexivity|]. right. right. split; [reflexivity|].
    right. reflexivity.
Defined.

(** ** The bonus at the boundaries, against [L + 1.0] and [L + 0.5] *)

Lemma d_half_facts : F64.valid d_half = true /\ fin_sign false d_half /\ 2 * val d_half = U.
Proof.
  split; [reflexivity|]. split; [vm_compute; split; [reflexivity|discriminate]|].
  vm_compute. reflexivity.
Qed.

(** A valid number whose value is positive is finite and positive. *)
Lemma positive_value (x : float) :
  F32.valid x = true -> (0 < SF2Q x)%Q -> fin_sign false x.
Proof.
  intros V H. destruct x as [s|s| |s m e]; try (cbn in H; discriminate H).
  assert (He : - K <= e) by apply (bounded_inv _ _ F32_K _ _ V).
  destruct s; [exfalso|split; [reflexivity|exact He]].
  assert (F : fin_sign true (S754_finite true m e)) by (split; [reflexivity|exact He]).
  rewrite (SF2Q_val _ true F) in H.
  unfold Qlt in H. cbn [Qnum Qden] in H. rewrite Z.mul_0_l, Z.mul_1_r in H.
  cbn [val cond_Zopp] in H.
  assert (0 < Z.pos m * 2 ^ (e + K))
    by (apply Z.mul_pos_pos; [lia | apply Z.pow_pos_nonneg; lia]).
  lia.
Qed.

(** An update of an accepted luminosity by a bonus of at most one: the
    result is within 2^-20 of the exact sum, and is the exact sum
    whenever that is a [float]. *)
Lemma boost_against_sum (L : float) (d : double) :
  accepted L ->
  F64.valid d = true -> fin_sign false d -> val d <= U ->
  (Qabs (SF2Q (boost L d) - (SF2Q L + SF2Q d)) <= 1 # (2 ^ 20))%Q /\
  (forall x : float, F32.valid x = true ->
     (SF2Q x == SF2Q L + SF2Q d)%Q -> boost L d = x).
Proof.
  intros A Vd Fd Bd.
  destruct units_facts as (U1 & U2 & U3 & U4 & U5 & U6).
  destruct constants_val as (C1 & C2 & C3 & C4 & C5).
  destruct (accepted_val L A) as (FL & L1 & L2). pose proof A as (VL & _ & _).
  pose proof U_pos as HU.
  destruct (boost_facts L d VL FL Vd Fd ltac:(lia) ltac:(lia)) as (Fb & Vb & Eb & _ & Gb).
  assert (Es : (SF2Q L + SF2Q d == (val L + val d) # Upos)%Q).
  { rewrite (SF2Q_val L false FL), (SF2Q_val d false Fd). apply Qplus_units. }
  split.
  - rewrite Es, (SF2Q_val _ false Fb). apply Qabs_diff_units.
    change (Z.pos (2 ^ 20)) with (2 ^ 20). lia.
  - intros x Vx Ex. rewrite Es in Ex.
    assert (Px : (0 < SF2Q x)%Q).
    { rewrite Ex. unfold Qlt. cbn [Qnum Qden]. rewrite Z.mul_0_l, Z.mul_1_r.
      pose proof (val_nonneg d Fd). lia. }
    pose proof (positive_value x Vx Px) as Fx.
    rewrite (SF2Q_val x false Fx) in Ex. apply Qeq_units_inv in Ex.
    apply (val_inj F32.prec F32.emax F32_prec F32_emax F32_K _ _ false);
      try assumption.
    rewrite Eb, <- Ex, (RND64_float x Vx Fx). apply (RND32_float x Vx Fx).
Qed.

(** C3, as stated, fails: at the default luminosity the first channel
    at time 0.0 is not [L + 1.0], neither as a number nor in the
    comparison of C, and the first channel at 0.5 is not [L + 0.5]. *)
Lemma bonus_not_exact :
  let L := luminosity default_config in
  exists r h,
    rainbow_palette d_0 L = Some (r, L, L) /\
    rainbow_palette d_half L = Some (h, h, L) /\
    ~ (SF2Q r == SF2Q L + 1)%Q /\
    SFeqb (double_of_float r) (F64.add (double_of_float L) d_1) = false /\
    ~ (SF2Q h == SF2Q L + (1 # 2))%Q /\
    SFeqb (double_of_float h) (F64.add (double_of_float L) d_half) = false.
Proof.
  eexists _, _. split; [vm_compute; reflexivity|].
  split; [vm_compute; reflexivity|].
  split; [vm_compute; intros H; discriminate H|].
  split; [vm_compute; reflexivity|].
  split; [vm_compute; intros H; discriminate H|].
  vm_compute. reflexivity.
Qed.

(** C3, as amended.  For every [float] L other than [-0.0], with
    [one = (float)(L + 1.0)] and [half = (float)(L + 0.5)], the sums
    taken in [double] and stored as [float] as the compound assignment
    does: the triple is [(one, L, L)] at time 0.0, [(L, one, L)] at 1.0,
    [(L, L, one)] at 2.0 and [(half, half, L)] at 0.5.  For L between
    0.1f and 9.9f, [one] is within 2^-20 of [L + 1] and [half] within
    2^-20 of [L + 0.5], and each is the exact sum whenever that sum is
    a [float]. *)
Theorem boundaries_rounded (L : float) :
  F32.valid L = true -> L <> S754_zero true ->
  let one := float_of_double (F64.add (double_of_float L) d_1) in
  let half := float_of_double (F64.add (double_of_float L) d_half) in
  (rainbow_palette d_0 L = Some (one, L, L) /\
   rainbow_palette (F64.of_Z 1) L = Some (L, one, L) /\
   rainbow_palette (F64.of_Z 2) L = Some (L, L, one) /\
   rainbow_palette d_half L = Some (half, half, L)) /\
  (SFleb f_0_1 L = true -> SFleb L f_9_9 = true ->
   (Qabs (SF2Q one - (SF2Q L + 1)) <= 1 # (2 ^ 20))%Q /\
   (Qabs (SF2Q half - (SF2Q L + (1 # 2))) <= 1 # (2 ^ 20))%Q /\
   (forall x : float, F32.valid x = true -> (SF2Q x == SF2Q L + 1)%Q -> one = x) /\
   (forall x : float, F32.valid x = true -> (SF2Q x == SF2Q L + (1 # 2))%Q ->
      half = x)).
Proof.
  intros V Hz one half.
  split; [exact (rainbow_boundaries L V Hz)|].
  intros H1 H2.
  assert (A : accepted L) by (unfold accepted; auto).
  destruct d_1_facts as (V1 & F1 & E1').
  destruct d_half_facts as (Vh & Fh & Eh).
  pose proof U_pos as HU.
  destruct (boost_against_sum L d_1 A V1 F1 ltac:(lia)) as [B1 X1].
  destruct (boost_against_sum L d_half A Vh Fh ltac:(lia)) as [Bh Xh].
  assert (Q1 : (SF2Q d_1 == 1)%Q) by reflexivity.
  assert (Qh : (SF2Q d_half == 1 # 2)%Q) by reflexivity.
  fold (boost L d_1) in one. fold (boost L d_half) in half.
  split; [|split; [|split]].
  - rewrite <- Q1. exact B1.
  - rewrite <- Qh. exact Bh.
  - intros x Vx Ex. apply X1; [exact Vx|]. rewrite Q1. exact Ex.
  - intros x Vx Ex. apply Xh; [exact Vx|]. rewrite Qh. exact Ex.
Qed.

Lemma boundaries_rounded_witness :
  let L := f_1 in
  let one := float_of_double (F64.add (double_of_float L) d_1) in
  let half := float_of_double (F64.add (double_of_float L) d_half) in
  (rainbow_palette d_0 L = Some (one, L, L) /\
   rainbow_palette (F64.of_Z 1) L = Some (L, one, L) /\
   rainbow_palette (F64.of_Z 2) L = Some (L, L, one) /\
   rainbow_palette d_half L = Some (half, half, L)) /\
  (Qabs (SF2Q one - (SF2Q L + 1)) <= 1 # (2 ^ 20))%Q /\
  (Qabs (SF2Q half - (SF2Q L + (1 # 2))) <= 1 # (2 ^ 20))%Q /\
  one = F32.of_Z 2 /\ half = F32.lit 3 2.
Proof.
  intros L one half.
  destruct (boundaries_rounded f_1) as [P R].
  - reflexivity.
  - discriminate.
  - split; [exact P|].
    destruct R as (R1 & R2 & R3 & R4); [reflexivity | reflexivity |].
    split; [exact R1|]. split; [exact R2|]. split.
    + apply R3; reflexivity.
    + apply R4; reflexivity.
Defined.

(** ** The channels against the bonus without rounding *)

Lemma mod3_cases (n : Z) : n mod 3 = 0 \/ n mod 3 = 1 \/ n mod 3 = 2.
Proof. pose proof (Z.mod_pos_bound n 3 ltac:(lia)). lia. Qed.

Lemma mod3_pred (n : Z) :
  (n mod 3 = 0 -> (n - 1) mod 3 = 2 /\ (n - 2) mod 3 = 1) /\
  (n mod 3 = 1 -> (n - 1) mod 3 = 0 /\ (n - 2) mod 3 = 2) /\
  (n mod 3 = 2 -> (n - 1) mod 3 = 1 /\ (n - 2) mod 3 = 0).
Proof.
  pose proof (Z.div_mod n 3 ltac:(lia)).
  pose proof (Z.div_mod (n - 1) 3 ltac:(lia)).
  pose proof (Z.div_mod (n - 2) 3 ltac:(lia)).
  pose proof (Z.mod_pos_bound (n - 1) 3 ltac:(lia)).
  pose proof (Z.mod_pos_bound (n - 2) 3 ltac:(lia)).
  repeat split; lia.
Qed.

Lemma ideal_cases (i tau : Z) :
  ((tau / U - i) mod 3 = 0 -> ideal i tau = U - tau mod U) /\
  ((tau / U - i) mod 3 = 1 -> ideal i tau = 0) /\
  ((tau / U - i) mod 3 = 2 -> ideal i tau = tau mod U).
Proof. unfold ideal. repeat split; intros ->; reflexivity. Qed.

Lemma channel_ideal (t : double) (L : float) :
  time_arg t -> accepted L ->
  exists r g b,
    rainbow_palette t L = Some (r, g, b) /\
    tracks 0 t L r /\ tracks 1 t L g /\ tracks 2 t L b.
Proof.
  intros T A.
  destruct units_facts as (U1 & U2 & U3 & U4 & U5 & U6).
  destruct (accepted_val L A) as (FL & L1 & L2).
  destruct (channels_facts t L T A)
    as ((Vf & Ff) & (Vr & Fr) & _ & _ & _ & Gf & Gr & _).
  assert (HE : 0 <= E32 + E64 + E1) by lia.
  assert (Gr' : 2 * Z.abs (val (boost L (fmod t d_1)) - (val L + val t mod U))
                <= E32 + E64 + E1) by lia.
  clear U1 U2 U3 U4 U5 U6 L1 L2 Gr.
  assert (TL : forall i, ideal i (val t) = 0 -> tracks i t L L).
  { intros i Hi. unfold tracks. rewrite Hi. split; [exact FL|].
    rewrite Z.add_0_r, Z.sub_diag. exact HE. }
  assert (TF : forall i, ideal i (val t) = U - val t mod U ->
                         tracks i t L (boost L (fading t))).
  { intros i Hi. unfold tracks. rewrite Hi. split; [exact Ff | exact Gf]. }
  assert (TR : forall i, ideal i (val t) = val t mod U ->
                         tracks i t L (boost L (fmod t d_1))).
  { intros i Hi. unfold tracks. rewrite Hi. split; [exact Fr | exact Gr']. }
  rewrite (rainbow_palette_rotate t L T).
  destruct (ideal_cases 0 (val t)) as (A0 & B0 & C0).
  destruct (ideal_cases 1 (val t)) as (A1 & B1 & C1).
  destruct (ideal_cases 2 (val t)) as (A2 & B2 & C2).
  rewrite Z.sub_0_r in A0, B0, C0.
  destruct (mod3_pred (val t / U)) as (P0 & P1 & P2).
  unfold rotate.
  destruct (mod3_cases (val t / U)) as [C|[C|C]]; rewrite C.
  - destruct (P0 C) as [Q1 Q2].
    exists (boost L (fading t)), (boost L (fmod t d_1)), L.
    split; [reflexivity|]. split; [|split].
    + apply TF, A0, C.
    + apply TR, C1, Q1.
    + apply TL, B2, Q2.
  - destruct (P1 C) as [Q1 Q2].
    exists L, (boost L (fading t)), (boost L (fmod t d_1)).
    split; [reflexivity|]. split; [|split].
    + apply TL, B0, C.
    + apply TF, A1, Q1.
    + apply TR, C2, Q2.
  - destruct (P2 C) as [Q1 Q2].
    exists (boost L (fmod t d_1)), L, (boost L (fading t)).
    split; [reflexivity|]. split; [|split].
    + apply TR, C0, C.
    + apply TL, B1, Q1.
    + apply TF, A2, Q2.
Qed.

Lemma ideal_bounds (i tau : Z) : 0 <= ideal i tau <= U.
Proof.
  pose proof U_pos as HU. pose proof (Z.mod_pos_bound tau U HU).
  unfold ideal. destruct ((tau / U - i) mod 3) as [|p|p]; try lia.
  destruct p as [p|p|]; try lia. destruct p; lia.
Qed.

Lemma ideal_period (i tau k : Z) : ideal i (tau + 3 * k * U) = ideal i tau.
Proof.
  pose proof U_pos as HU. unfold ideal.
  rewrite Z.div_add, Z.mod_add by lia.
  replace (tau / U + 3 * k - i) with (tau / U - i + k * 3) by lia.
  rewrite Z.mod_add by lia. reflexivity.
Qed.

Lemma ideal_lipschitz_le (i a b : Z) :
  a <= b -> Z.abs (ideal i a - ideal i b) <= b - a.
Proof.
  intros Hab. pose proof U_pos as HU.
  pose proof (ideal_bounds i a) as Ba. pose proof (ideal_bounds i b) as Bb.
  destruct (Z_lt_le_dec (b - a) U) as [Near|Far]; [|lia].
  pose proof (Z.div_mod a U ltac:(lia)) as Da.
  pose proof (Z.div_mod b U ltac:(lia)) as Db.
  pose proof (Z.mod_pos_bound a U HU) as Ra.
  pose proof (Z.mod_pos_bound b U HU) as Rb.
  assert (N1 : a / U <= b / U) by (apply Z.div_le_mono; lia).
  assert (N2 : b / U <= a / U + 1).
  { replace (a / U + 1) with ((a + 1 * U) / U) by (rewrite Z.div_add; lia).
    apply Z.div_le_mono; lia. }
  unfold ideal in *.
  set (na := a / U) in *. set (nb := b / U) in *.
  set (Fa := a mod U) in *. set (Fb := b mod U) in *.
  assert (C : nb = na \/ nb = na + 1) by lia.
  destruct C as [C|C]; rewrite C in *.
  - assert (Fb - Fa = b - a) by lia.
    destruct ((na - i) mod 3) as [|p|p]; try lia.
    destruct p as [p|p|]; try lia. destruct p; lia.
  - assert (E : (na + 1 - i) mod 3 = ((na - i) mod 3 + 1) mod 3).
    { replace (na + 1 - i) with (na - i + 1) by lia.
      rewrite Z.add_mod_idemp_l by lia. reflexivity. }
    rewrite E.
    assert (D : b - a = U - Fa + Fb) by lia.
    destruct (mod3_cases (na - i)) as [M|[M|M]]; rewrite M;
      [change ((0 + 1) mod 3) with 1 | change ((1 + 1) mod 3) with 2
       | change ((2 + 1) mod 3) with 0]; cbv iota; lia.
Qed.

Lemma ideal_lipschitz (i a b : Z) : Z.abs (ideal i a - ideal i b) <= Z.abs (a - b).
Proof.
  destruct (Z_le_gt_dec a b) as [H|H].
  - pose proof (ideal_lipschitz_le i a b H). lia.
  - pose proof (ideal_lipschitz_le i b a ltac:(lia)). lia.
Qed.

Lemma tracks_gap (i k : Z) (t t' : double) (L x x' : float) :
  tracks i t L x -> tracks i t' L x' ->
  gap (Z.abs (val t' - (val t + 3 * k * U))) x' x.
Proof.
  intros [Fx Hx] [Fx' Hx'].
  pose proof (ideal_lipschitz i (val t') (val t + 3 * k * U)) as Hl.
  rewrite ideal_period in Hl.
  unfold gap. split; [exact Fx'|]. split; [exact Fx|]. lia.
Qed.

(** The triples at two times, channel by channel: they differ by at
    most the distance of the second time to the first one moved by [k]
    periods, and the rounding of two updates. *)
Lemma channels_gap (k : Z) (t t' : double) (L : float) :
  time_arg t -> time_arg t' -> accepted L ->
  exists r g b r' g' b',
    rainbow_palette t' L = Some (r', g', b') /\
    rainbow_palette t L = Some (r, g, b) /\
    gap (Z.abs (val t' - (val t + 3 * k * U))) r' r /\
    gap (Z.abs (val t' - (val t + 3 * k * U))) g' g /\
    gap (Z.abs (val t' - (val t + 3 * k * U))) b' b.
Proof.
  intros T T' A.
  destruct (channel_ideal t L T A) as (r & g & b & E & H0 & H1 & H2).
  destruct (channel_ideal t' L T' A) as (r' & g' & b' & E' & H0' & H1' & H2').
  exists r, g, b, r', g', b'. split; [exact E'|]. split; [exact E|].
  repeat split; eapply tracks_gap; eassumption.
Qed.

Lemma gap_near (delta : Z) (x y : float) : gap delta x y -> near delta x y.
Proof.
  intros (Fx & Fy & H). destruct units_facts as (U1 & U2 & U3 & U4 & _).
  unfold near. split; [exact Fx|]. split; [exact Fy|]. lia.
Qed.

Lemma gap_Q (delta : Z) (x y : float) :
  gap delta x y ->
  (Qabs (SF2Q x - SF2Q y) <= (delta # Upos) + (1 # (2 ^ 19)))%Q.
Proof. intros H. apply near_Q, gap_near, H. Qed.

Lemma gap_small (delta : Z) (x y : float) :
  gap delta x y -> 2 * delta <= E32 ->
  (Qabs (SF2Q x - SF2Q y) <= 1 # (2 ^ 19))%Q.
Proof.
  intros (Fx & Fy & H) Hd. destruct units_facts as (U1 & U2 & U3 & U4 & _).
  rewrite (SF2Q_val x false Fx), (SF2Q_val y false Fy).
  apply Qabs_diff_units. change (Z.pos (2 ^ 19)) with (2 ^ 19). lia.
Qed.

Lemma d_0_facts : F64.valid d_0 = true /\ fin_sign false d_0 /\ val d_0 = 0.
Proof. repeat split. Qed.

Lemma d_3_facts : F64.valid d_3 = true /\ fin_sign false d_3 /\ val d_3 = 3 * U.
Proof.
  split; [reflexivity|]. split; [vm_compute; split; [reflexivity|discriminate]|].
  vm_compute. reflexivity.
Qed.

Lemma d_2p32_facts :
  F64.valid d_2p32 = true /\ fin_sign false d_2p32 /\ val d_2p32 = 2 ^ 32 * U.
Proof.
  split; [reflexivity|]. split; [vm_compute; split; [reflexivity|discriminate]|].
  vm_compute. reflexivity.
Qed.

(** The sum [t + 3.0] as the machine computes it. *)
Lemma plus_three (t : double) :
  time_arg t ->
  let t3 := F64.add t d_3 in
  fin_sign false t3 /\ F64.valid t3 = true /\
  val t3 = RND F64.prec F64.emax (val t + 3 * U) /\
  SFleb d_0 t3 = true /\ t3 <> S754_zero true.
Proof.
  intros (V & F & B) t3.
  destruct d_3_facts as (V3 & F3 & E3). destruct d_0_facts as (V0 & F0 & E0).
  assert (Big : 2 ^ 63 * U + 3 * U < 2 ^ (F64.emax - 1 + K)) by (vm_compute; reflexivity).
  destruct (SFadd_nonneg F64.prec F64.emax F64_prec F64_emax F64_K t d_3 V V3 F F3
              ltac:(lia)) as (Fs & Vs & Es).
  fold (F64.add t d_3) in Fs, Vs, Es. fold t3 in Fs, Vs, Es. rewrite E3 in Es.
  split; [exact Fs|]. split; [exact Vs|]. split; [exact Es|]. split.
  - apply (SFleb_val F64.prec F64.emax F64_prec F64_emax F64_K _ _ false false
             V0 Vs F0 Fs).
    rewrite E0. apply val_nonneg, Fs.
  - intros E. rewrite E in Fs. discriminate Fs.
Qed.

Lemma three_units (a b : Z) :
  (Qabs ((a # Upos) - ((b # Upos) + 3)) == Z.abs (a - (b + 3 * 1 * U)) # Upos)%Q.
Proof.
  change 3%Q with (inject_Z 3 * 1)%Q.
  rewrite Qone_Upos, Qscale_units, Qplus_units, Qminus_units, Qabs_units.
  replace (b + 3 * U) with (b + 3 * 1 * U) by lia. reflexivity.
Qed.

(** C4, as stated, fails beyond rounding: at t = 2^53 the sum t + 3.0
    is 2^53 + 4, one whole second too far, and the triple there is the
    triple at t with its channels moved by one place; the first channel
    differs by more than 1. *)
Lemma period_broken_at_2p53 :
  let t := F64.of_Z (2 ^ 53) in
  let L := luminosity default_config in
  F64.add t d_3 = F64.of_Z (2 ^ 53 + 4) /\
  rainbow_palette t L = Some (L, L, boost L d_1) /\
  rainbow_palette (F64.add t d_3) L = Some (boost L d_1, L, L) /\
  (1 < SF2Q (boost L d_1) - SF2Q L)%Q.
Proof.
  split; [vm_compute; reflexivity|]. split; [vm_compute; reflexivity|].
  split; vm_compute; reflexivity.
Qed.

(** C4, as amended.  Let [t] be a time that [call_rainbow] can take and
    [t3] the sum [t + 3.0] as the machine computes it.  For a
    luminosity between 0.1f and 9.9f each channel at [t3] differs from
    the channel at [t] by at most the rounding error of the sum plus
    2^-19; up to t = 2^32 that is at most 2^-19 altogether.  For every
    luminosity, when the sum is exact the two triples are equal. *)
Theorem periodic_within_rounding (t : double) (L : float) :
  callable t ->
  let t3 := F64.add t d_3 in
  (F32.valid L = true -> SFleb f_0_1 L = true -> SFleb L f_9_9 = true ->
   SFltb t3 d_2p63 = true ->
   triples_within (Qabs (SF2Q t3 - (SF2Q t + 3)) + (1 # (2 ^ 19))) t3 t L) /\
  (F32.valid L = true -> SFleb f_0_1 L = true -> SFleb L f_9_9 = true ->
   SFleb t d_2p32 = true ->
   triples_within (1 # (2 ^ 19)) t3 t L) /\
  (SFltb t3 d_2p63 = true -> (SF2Q t3 == SF2Q t + 3)%Q ->
   rainbow_palette t3 L = rainbow_palette t L).
Proof.
  intros Ct t3.
  pose proof (callable_time_arg t Ct) as T.
  pose proof T as (Vt & Ft & Bt).
  destruct (plus_three t T) as (F3 & V3 & E3 & P3 & Z3). fold t3 in F3, V3, E3, P3, Z3.
  destruct d_2p63_facts as (Vp & Fp & Ep).
  pose proof U_pos as HU.
  assert (Pos : 0 < val t + 3 * U) by (pose proof (val_nonneg t Ft); lia).
  split; [|split].
  - intros VL L1 L2 H63.
    assert (A : accepted L) by (unfold accepted; auto).
    assert (T3 : time_arg t3).
    { split; [exact V3|]. split; [exact F3|]. rewrite <- Ep.
      now apply (SFltb_val F64.prec F64.emax F64_prec F64_emax F64_K _ _ false false
                   V3 Vp F3 Fp). }
    destruct (channels_gap 1 t t3 L T T3 A)
      as (r & g & b & r' & g' & b' & E' & E & G1 & G2 & G3).
    exists r', g', b', r, g, b. split; [exact E'|]. split; [exact E|].
    rewrite (SF2Q_val t3 false F3), (SF2Q_val t false Ft), three_units.
    repeat split; apply gap_Q; assumption.
  - intros VL L1 L2 H32.
    assert (A : accepted L) by (unfold accepted; auto).
    destruct d_2p32_facts as (V32 & F32' & E32').
    apply (SFleb_val F64.prec F64.emax F64_prec F64_emax F64_K _ _ false false
             Vt V32 Ft F32') in H32. rewrite E32' in H32.
    assert (P33 : 2 ^ (33 + K) = 2 ^ 33 * U)
      by (unfold U; rewrite Z.pow_add_r by (pose proof K_nonneg; lia); reflexivity).
    assert (S33 : val t + 3 * U < 2 ^ (33 + K)) by (rewrite P33; lia).
    pose proof (RND_error_below F64.prec F64.emax F64_prec F64_K _ 33 Pos
                  ltac:(unfold emin, F64.prec, F64.emax; lia) S33) as Err.
    change (2 ^ (33 - F64.prec + K)) with E32 in Err.
    pose proof (RND_le_pow2 F64.prec F64.emax F64_prec F64_K _ 33 Pos
                  ltac:(unfold emin, F64.prec, F64.emax; lia) ltac:(lia)) as Le.
    rewrite <- E3 in Err, Le.
    assert (T3 : time_arg t3).
    { split; [exact V3|]. split; [exact F3|]. rewrite P33 in Le. lia. }
    destruct (channels_gap 1 t t3 L T T3 A)
      as (r & g & b & r' & g' & b' & E' & E & G1 & G2 & G3).
    exists r', g', b', r, g, b. split; [exact E'|]. split; [exact E|].
    assert (D : 2 * Z.abs (val t3 - (val t + 3 * 1 * U)) <= E32)
      by (replace (val t + 3 * 1 * U) with (val t + 3 * U) by lia; exact Err).
    repeat split; eapply gap_small; eassumption.
  - intros H63 Ex.
    destruct Ct as (V & H0 & H1 & Hz).
    apply (rainbow_periodic t t3 L); assumption.
Qed.

Lemma periodic_within_rounding_witness :
  let t := F64.lit 1 10 in
  let t3 := F64.add t d_3 in
  triples_within (Qabs (SF2Q t3 - (SF2Q t + 3)) + (1 # (2 ^ 19))) t3 t f_0_1 /\
  triples_within (1 # (2 ^ 19)) t3 t f_0_1 /\
  rainbow_palette (F64.add d_half d_3) f_0_1 = rainbow_palette d_half f_0_1.
Proof.
  intros t t3.
  assert (Ct : callable t) by (apply callable_closed; vm_compute; reflexivity).
  assert (Ch : callable d_half) by (apply callable_closed; vm_compute; reflexivity).
  destruct (periodic_within_rounding t f_0_1 Ct) as (H1 & H2 & _).
  destruct (periodic_within_rounding d_half f_0_1 Ch) as (_ & _ & H3).
  split; [|split].
  - apply H1; vm_compute; reflexivity.
  - apply H2; vm_compute; reflexivity.
  - apply H3; vm_compute; reflexivity.
Defined.

(** ** The handoff at a whole second *)

Lemma abs_units (a b : Z) :
  (Qabs ((a # Upos) - (b # Upos)) == Z.abs (b - a) # Upos)%Q.
Proof.
  rewrite Qminus_units, Qabs_units.
  replace (Z.abs (b - a)) with (Z.abs (a - b)) by lia. reflexivity.
Qed.

(** A [double] from 1.0 on is a multiple of 2^-52. *)
Lemma double_grid (t : double) :
  F64.valid t = true -> fin_sign false t -> U <= val t ->
  val t mod 2 ^ (K - 52) = 0.
Proof.
  intros V F H.
  destruct t as [s|s| |s m e]; cbn [val] in H; try (pose proof U_pos; lia).
  destruct F as [-> He]. cbn [val cond_Zopp] in *.
  pose proof (bounded_mantissa _ _ _ _ V) as Hm.
  assert (E52 : -52 <= e).
  { destruct (Z_lt_le_dec e (-52)) as [Hlt|]; [exfalso|assumption].
    assert (P : 2 ^ (e + K) <= 2 ^ (K - 53)) by (apply Z.pow_le_mono_r; lia).
    assert (HU' : U = 2 ^ 53 * 2 ^ (K - 53)) by (vm_compute; reflexivity).
    assert (0 < 2 ^ (e + K)) by (apply Z.pow_pos_nonneg; lia).
    change (2 ^ F64.prec) with (2 ^ 53) in Hm.
    assert (0 < 2 ^ (K - 53)) by (vm_compute; reflexivity).
    nia. }
  replace (e + K) with ((e + 52) + (K - 52)) by lia.
  rewrite (Z.pow_add_r 2 (e + 52) (K - 52)) by (pose proof K_nonneg; unfold K; lia).
  rewrite Z.mul_assoc. apply Z.mod_mul.
  apply Z.pow_nonzero; unfold K; lia.
Qed.

Lemma tie_facts :
  accepted lum_tie /\
  F64.valid d_below_1 = true /\ fin_sign false d_below_1 /\
  val d_below_1 = U - 2 ^ (K - 52) /\
  boost lum_tie d_below_1 = blue_below_2 /\
  F32.valid blue_below_2 = true /\ fin_sign false blue_below_2 /\
  val lum_tie <= val blue_below_2 /\
  U = 2 ^ 52 * 2 ^ (K - 52).
Proof.
  split; [repeat split|].
  split; [reflexivity|]. split; [split; [reflexivity|discriminate]|].
  split; [vm_compute; reflexivity|]. split; [vm_compute; reflexivity|].
  split; [reflexivity|]. split; [split; [reflexivity|discriminate]|].
  split; [vm_compute; discriminate | vm_compute; reflexivity].
Qed.

(** C5, as stated, fails: for the luminosity [lum_tie] the triple does
    not converge to the triple at 2.0.  The third channel is
    12582914 * 2^-23 at 2.0; at the last [double] below 2.0 it is
    12582913 * 2^-23, and at no time below 2.0 is it greater: a gap of
    2^-23 remains. *)
Lemma handoff_gap_remains :
  (SFleb f_0_1 lum_tie = true /\ SFleb lum_tie f_9_9 = true) /\
  rainbow_palette (F64.of_Z 2) lum_tie = Some (lum_tie, lum_tie, blue_at_2) /\
  rainbow_palette d_below_2 lum_tie = Some (lum_tie, lum_tie, blue_below_2) /\
  (SF2Q blue_at_2 - SF2Q blue_below_2 == 1 # (2 ^ 23))%Q /\
  (forall t : double, callable t -> SFltb t (F64.of_Z 2) = true ->
     exists r g b,
       rainbow_palette t lum_tie = Some (r, g, b) /\ SFleb b blue_below_2 = true).
Proof.
  split; [split; reflexivity|]. split; [vm_compute; reflexivity|].
  split; [vm_compute; reflexivity|]. split; [reflexivity|].
  intros t Ct Ht.
  destruct tie_facts as (A & Vd & Fd & Ed & Eb & Vb & Fb & Lb & HU2).
  pose proof (callable_time_arg t Ct) as T. pose proof T as (Vt & Ft & Bt).
  destruct (of_Z_spec 2 ltac:(split; [lia | reflexivity])) as (F2 & V2 & E2).
  apply (SFltb_val F64.prec F64.emax F64_prec F64_emax F64_K _ _ false false
           Vt V2 Ft F2) in Ht. rewrite E2 in Ht.
  pose proof U_pos as HU. pose proof (val_nonneg t Ft) as Ht0.
  destruct (accepted_val lum_tie A) as (FL & L1 & L2). pose proof A as (VL & _ & _).
  destruct constants_val as (C1 & C2 & _).
  rewrite (rainbow_palette_rotate t lum_tie T).
  destruct (Z_lt_le_dec (val t) U) as [Lt1|Ge1].
  - (* the first second: the third channel is the luminosity *)
    rewrite (Z.div_small (val t) U) by lia.
    do 3 eexists. split; [reflexivity|].
    apply (SFleb32 _ _ VL Vb FL Fb). exact Lb.
  - (* the second: it rises, and stays below the value at the last time *)
    assert (En : val t / U = 1).
    { symmetry. apply Z.div_unique with (r := val t - U); lia. }
    rewrite En. do 3 eexists. split; [reflexivity|].
    destruct (fmod_one t Vt Ft) as (Ff & Vf & Ef).
    assert (Em : val t mod U = val t - U).
    { symmetry. apply Z.mod_unique with (q := 1); lia. }
    pose proof (double_grid t Vt Ft Ge1) as Hg.
    assert (HG : 0 < 2 ^ (K - 52)) by (vm_compute; reflexivity).
    assert (Hf : val (fmod t d_1) <= val d_below_1).
    { rewrite Ef, Em, Ed.
      pose proof (Z.div_mod (val t) (2 ^ (K - 52)) ltac:(lia)) as D.
      rewrite Hg in D. set (G := 2 ^ (K - 52)) in *. set (q := val t / G) in *.
      change (2 ^ 52) with 4503599627370496 in HU2.
      assert (q < 2 * 4503599627370496) by nia. nia. }
    pose proof (boost_le lum_tie (fmod t d_1) d_below_1 VL FL Vf Ff Vd Fd
                  ltac:(lia) Hf ltac:(lia)) as Hb.
    rewrite Eb in Hb.
    destruct (boost_facts lum_tie (fmod t d_1) VL FL Vf Ff ltac:(lia) ltac:(lia))
      as (Fr & Vr & _).
    apply (SFleb32 _ _ Vr Vb Fr Fb). exact Hb.
Qed.

(** C5, as amended.  For a luminosity between 0.1f and 9.9f and any two
    times [t] and [n] that [call_rainbow] can take, a whole second [n]
    and a time [t] below it in particular: each channel at [t] differs
    from the channel at [n] by at most the distance of the two times
    plus the rounding tolerance 2^-19.  There is no jump at the handoff
    of the bonus from one channel to the next. *)
Theorem no_jump_up_to_rounding (t n : double) (L : float) :
  callable t -> callable n ->
  F32.valid L = true -> SFleb f_0_1 L = true -> SFleb L f_9_9 = true ->
  triples_within (Qabs (SF2Q n - SF2Q t) + (1 # (2 ^ 19))) t n L.
Proof.
  intros Ct Cn VL L1 L2.
  assert (A : accepted L) by (unfold accepted; auto).
  pose proof (callable_time_arg t Ct) as T.
  pose proof (callable_time_arg n Cn) as Tn.
  pose proof T as (_ & Ft & _). pose proof Tn as (_ & Fn & _).
  destruct (channels_gap 0 n t L Tn T A)
    as (r & g & b & r' & g' & b' & E' & E & G1 & G2 & G3).
  exists r', g', b', r, g, b. split; [exact E'|]. split; [exact E|].
  rewrite (SF2Q_val t false Ft), (SF2Q_val n false Fn), abs_units.
  replace (val t - val n) with (val t - (val n + 3 * 0 * U)) by lia.
  repeat split; apply gap_Q; assumption.
Qed.

Lemma no_jump_up_to_rounding_witness :
  triples_within (Qabs (SF2Q (F64.of_Z 2) - SF2Q d_below_2) + (1 # (2 ^ 19)))
                 d_below_2 (F64.of_Z 2) lum_tie.
Proof.
  apply (no_jump_up_to_rounding d_below_2 (F64.of_Z 2) lum_tie).
  - apply callable_closed; vm_compute; reflexivity.
  - apply callable_closed; vm_compute; reflexivity.
  - reflexivity.
  - reflexivity.
  - reflexivity.
Defined.
